(** * Skynet renter: download orchestration, HasSector queue, Merkle range proofs

    A shallow embedding of the parts of the renter that the download path
    relies on:

    - [PieceGeometry]: [getPieceOffsetAndLen], the mapping from a byte range
      inside a chunk to the segment range requested from every host;
    - [Orchestrator]: the [projectDownloadChunk] state and the functions
      that inspect or update it ([findBestWorker], [handleJobReadResponse],
      [finalize], [finished], [needsOverdrive], the guard of
      [managedDownload]);
    - [HasSectorQueue]: the batched HasSector job queue
      ([callNext], [managedHasSector], [callAddWithEstimate]);
    - [MerkleRange]: [BuildRangeProof] and [VerifyReaderRangeProof].

    Go integers are modelled as [Z] with the wrap-around of their width
    written out; slices are lists; a panic is the [None] of an [option]. *)

From Stdlib Require Import ZArith Lia Bool List String ZifyNat.
From stdpp Require Import base option list strings gmap.

Local Open Scope Z_scope.

(** ** Machine integers *)

Module GoInt.

Definition two64 : Z := 2 ^ 64.
Definition MaxInt64 : Z := 2 ^ 63 - 1.
Definition MinInt64 : Z := - 2 ^ 63.
Definition MaxUint64 : Z := 2 ^ 64 - 1.

(** Truncation of a mathematical integer to [uint64]. *)
Definition u64 (z : Z) : Z := z mod two64.

(** Truncation of a mathematical integer to [int64] (two's complement). *)
Definition i64 (z : Z) : Z := (z + 2 ^ 63) mod two64 - 2 ^ 63.

Definition is_u64 (z : Z) : Prop := 0 <= z < two64.
Definition is_i64 (z : Z) : Prop := MinInt64 <= z <= MaxInt64.

End GoInt.

(** ** Errors

    [errors.New] and [errors.AddContext]. *)

Inductive error :=
| ErrNew (msg : string)
| ErrAddContext (inner : error) (msg : string).

(** ** Erasure coder interface

    [modules.ErasureCoder] is an interface; only the methods the download
    path calls are kept.  [MinPieces] and [NumPieces] return Go [int]s. *)

(** A [[]byte] as a slice expression sees it: the [len] bytes in view and,
    behind them, the rest of the backing array up to [cap]. *)
Record byteSlice := {
  visible : list Byte.byte;
  spare : list Byte.byte
}.

(** The backing array from the start of the slice: [cap] bytes. *)
Definition backing (s : byteSlice) : list Byte.byte := visible s ++ spare s.

(** [buf.Bytes()] of the buffer that [bytes.NewBuffer(nil)] returns, after
    a single [Write] of [p]: an empty write allocates nothing, and a first
    write of up to 64 bytes ([smallBufferSize]) allocates 64 zeroed bytes.
    A longer write is given the room it needs and no more; the runtime may
    round that up. *)
Definition bufferWritten (p : list Byte.byte) : byteSlice :=
  match p with
  | [] => {| visible := []; spare := [] |}
  | _ => {| visible := p; spare := replicate (64 - length p) Byte.x00 |}
  end.

Record ErasureCoder := {
  MinPieces : Z;
  NumPieces : Z;
  (** [SupportsPartialEncoding] returns the segment size and whether partial
      encoding is supported. *)
  SupportsPartialEncoding : Z * bool;
  (** [Recover] decodes the first [n] bytes of the chunk from the sparse
      piece array and writes them to the writer it is given.  The caller
      hands in an empty [bytes.Buffer]; the result is the [Bytes()] of that
      buffer after the call, or the error. *)
  Recover : list (option (list Byte.byte)) -> Z -> error + byteSlice
}.

(** ** Piece offset and length *)

Module PieceGeometry.
Import GoInt.

(** Modelled from the spec: [modules.SectorSize], the fixed size of a
    sector (4 MiB); the constant is declared outside the files at hand. *)
Definition SectorSize : Z := 2 ^ 22.

(** Modelled from the spec: [crypto.SegmentSize], the size of a Merkle
    leaf (64 B); the constant is declared outside the files at hand. *)
Definition SegmentSize : Z := 64.

(** Unsigned division and remainder panic on a zero divisor. *)
Definition udiv (a b : Z) : option Z :=
  if b =? 0 then None else Some (a / b).
Definition umod (a b : Z) : option Z :=
  if b =? 0 then None else Some (a mod b).

(** The segment size [getPieceOffsetAndLen] works with: the coder's own
    when it supports partial encoding, the whole sector otherwise. *)
Definition pieceSegmentSizeOf (ec : ErasureCoder) : Z :=
  let '(pieceSegmentSize, partialsSupported) := SupportsPartialEncoding ec in
  if partialsSupported then pieceSegmentSize else SectorSize.

(** [getPieceOffsetAndLen ec offset length].  [build.Critical] logs in a
    release build, after which the function returns the whole piece. *)
Definition getPieceOffsetAndLen (ec : ErasureCoder) (offset length : Z)
  : option (Z * Z) :=
  let pieceSegmentSize := pieceSegmentSizeOf ec in
  if (pieceSegmentSize =? 0) || negb (pieceSegmentSize mod SegmentSize =? 0)
  then Some (0, SectorSize)
  else
    let minPieces := u64 (MinPieces ec) in
    pieceOffset ← udiv offset minPieces;
    pieceOffset ← udiv pieceOffset pieceSegmentSize;
    let pieceOffset := u64 (pieceOffset * pieceSegmentSize) in
    let chunkSegmentSize := u64 (pieceSegmentSize * minPieces) in
    let chunkTerminationOffset := u64 (offset + length) in
    overflow ← umod chunkTerminationOffset chunkSegmentSize;
    let chunkTerminationOffset :=
      if negb (overflow =? 0)
      then u64 (chunkTerminationOffset + u64 (chunkSegmentSize - overflow))
      else chunkTerminationOffset in
    pieceTerminationOffset ← udiv chunkTerminationOffset pieceSegmentSize;
    let pieceLength := u64 (pieceTerminationOffset - pieceOffset) in
    Some (pieceOffset, pieceLength).

(** A 10-of-30 coder with 64-byte segments. *)
Definition ec_10_30 : ErasureCoder :=
  {| MinPieces := 10; NumPieces := 30;
     SupportsPartialEncoding := (64, true);
     Recover := fun _ _ => inl (ErrNew "not used") |}.

End PieceGeometry.

(** ** Download orchestrator state *)

Module Orchestrator.
Import GoInt PieceGeometry.

(** [crypto.Hash]: a 32-byte array, compared with [==]. *)
Definition Hash := list Byte.byte.

#[global] Instance byte_eq_dec : EqDecision Byte.byte := Byte.byte_eq_dec.

(** [time.Time] is an instant in nanoseconds; the zero [time.Time] is the
    instant [0].  [time.Duration] is an [int64] count of nanoseconds. *)
Definition Time := Z.
Definition Duration := Z.
Definition zeroTime : Time := 0.
Definition Millisecond : Duration := 1000000.

(** [t.Sub(u)] saturates at the smallest and largest [Duration]. *)
Definition timeSub (t u : Time) : Duration :=
  Z.max MinInt64 (Z.min MaxInt64 (t - u)).
(** [time.Until(t)] is [t.Sub(time.Now())]. *)
Definition timeUntil (now t : Time) : Duration := timeSub t now.
Definition timeBefore (t u : Time) : bool := t <? u.

(** A [worker], reduced to what the orchestrator reads: its host key and
    the estimates of its read queue for a job of a given length
    ([staticJobReadQueue.callExpectedJobTime] and [callExpectedJobCost];
    the cost is a [types.Currency], a non-negative big integer). *)
Record worker := {
  staticHostPubKeyStr : string;
  callExpectedJobTime : Z -> Duration;
  callExpectedJobCost : Z -> Z
}.

Record pieceDownload := {
  completed : bool;
  failed : bool;
  launched : bool;
  expectedCompletionTime : Time;
  pdWorker : worker
}.

Record pcwsUnresolvedWorker := {
  staticExpectedCompletionTime : Time;
  staticWorker : worker
}.

(** [projectChunkWorkerSet]: the coder, the per-block overhead of the
    master key's cipher ([staticMasterKey.Type().Overhead()]), the piece
    roots and the unresolved workers (a Go map, listed in the order the
    range statement visits it). *)
Record projectChunkWorkerSet := {
  staticErasureCoder : ErasureCoder;
  staticMasterKeyOverhead : Z;
  staticPieceRoots : list Hash;
  unresolvedWorkers : list pcwsUnresolvedWorker
}.

Record projectDownloadChunk := {
  chunkLength : Z;
  chunkOffset : Z;
  pricePerMS : Z;
  pieceLength : Z;
  pieceOffset : Z;
  availablePieces : list (list pieceDownload);
  workersConsidered : gset string;
  dataPieces : list (option (list Byte.byte));
  workerSet : projectChunkWorkerSet
}.

Record downloadResponse := {
  data : option (list Byte.byte);
  err : option error
}.

Record jobReadResponse := {
  staticData : list Byte.byte;
  staticErr : option error;
  staticSectorRoot : Hash;
  jrrWorker : worker
}.

Definition set_availablePieces (pdc : projectDownloadChunk)
    (ap : list (list pieceDownload)) : projectDownloadChunk :=
  {| chunkLength := chunkLength pdc; chunkOffset := chunkOffset pdc;
     pricePerMS := pricePerMS pdc; pieceLength := pieceLength pdc;
     pieceOffset := pieceOffset pdc; availablePieces := ap;
     workersConsidered := workersConsidered pdc;
     dataPieces := dataPieces pdc; workerSet := workerSet pdc |}.

Definition set_dataPieces (pdc : projectDownloadChunk)
    (dp : list (option (list Byte.byte))) : projectDownloadChunk :=
  {| chunkLength := chunkLength pdc; chunkOffset := chunkOffset pdc;
     pricePerMS := pricePerMS pdc; pieceLength := pieceLength pdc;
     pieceOffset := pieceOffset pdc; availablePieces := availablePieces pdc;
     workersConsidered := workersConsidered pdc;
     dataPieces := dp; workerSet := workerSet pdc |}.

Definition set_failed (pd : pieceDownload) : pieceDownload :=
  {| completed := completed pd; failed := true; launched := launched pd;
     expectedCompletionTime := expectedCompletionTime pd;
     pdWorker := pdWorker pd |}.

Definition set_completed (pd : pieceDownload) : pieceDownload :=
  {| completed := true; failed := failed pd; launched := launched pd;
     expectedCompletionTime := expectedCompletionTime pd;
     pdWorker := pdWorker pd |}.

(** *** handleJobReadResponse *)

(** The loop that looks the sector root up among the piece roots: the
    index of the first equal root, and [0] when there is none. *)
Fixpoint findPieceIndex (roots : list Hash) (root : Hash) (i : nat) : nat :=
  match roots with
  | [] => 0%nat
  | r :: rest =>
      if decide (root = r) then i else findPieceIndex rest root (S i)
  end.

(** The loops over [pdc.availablePieces[pieceIndex]] that flag every entry
    of the responding worker. *)
Definition markWorker (f : pieceDownload -> pieceDownload) (key : string)
    (piece : list pieceDownload) : list pieceDownload :=
  map (fun pd =>
         if String.eqb (staticHostPubKeyStr (pdWorker pd)) key
         then f pd else pd) piece.

(** [handleJobReadResponse]; a [nil] response is logged and dropped, an
    index outside [availablePieces] or [dataPieces] panics. *)
Definition handleJobReadResponse (pdc : projectDownloadChunk)
    (jrr : option jobReadResponse) : option projectDownloadChunk :=
  match jrr with
  | None => Some pdc
  | Some jrr =>
      let pieceIndex :=
        findPieceIndex (staticPieceRoots (workerSet pdc))
                       (staticSectorRoot jrr) 0 in
      let key := staticHostPubKeyStr (jrrWorker jrr) in
      match staticErr jrr with
      | Some _ =>
          piece ← availablePieces pdc !! pieceIndex;
          Some (set_availablePieces pdc
                  (<[pieceIndex := markWorker set_failed key piece]>
                     (availablePieces pdc)))
      | None =>
          _ ← dataPieces pdc !! pieceIndex;
          let pdc1 :=
            set_dataPieces pdc
              (<[pieceIndex := Some (staticData jrr)]> (dataPieces pdc)) in
          piece ← availablePieces pdc1 !! pieceIndex;
          Some (set_availablePieces pdc1
                  (<[pieceIndex := markWorker set_completed key piece]>
                     (availablePieces pdc1)))
      end
  end.

(** *** fail and finalize *)

(** [fail] sends an error down the download response channel; the value
    sent is what is modelled. *)
Definition fail (e : error) : downloadResponse :=
  {| data := None; err := Some e |}.

(** The byte count [finalize] hands to [Recover]:
    [chunkDLOffset + chunkDLLength]. *)
Definition finalizeRecoverLen (pdc : projectDownloadChunk) : Z :=
  let ec := staticErasureCoder (workerSet pdc) in
  let chunkDLOffset := u64 (pieceOffset pdc * u64 (MinPieces ec)) in
  let chunkDLLength := u64 (pieceOffset pdc * u64 (MinPieces ec)) in
  u64 (chunkDLOffset + chunkDLLength).

(** [data[lo:hi]]: the bounds are checked against the capacity, not the
    length, so the result can reach into the spare part of the backing
    array; out-of-range bounds panic. *)
Definition slice (buf : byteSlice) (lo hi : Z) : option (list Byte.byte) :=
  if (lo <=? hi) && (hi <=? Z.of_nat (length (backing buf)))
  then Some (take (Z.to_nat (hi - lo)) (drop (Z.to_nat lo) (backing buf)))
  else None.

(** [finalize]: the response sent on the download response channel. *)
Definition finalize (pdc : projectDownloadChunk) : option downloadResponse :=
  let ec := staticErasureCoder (workerSet pdc) in
  let chunkDLOffset := u64 (pieceOffset pdc * u64 (MinPieces ec)) in
  match Recover ec (dataPieces pdc) (finalizeRecoverLen pdc) with
  | inl e =>
      Some (fail (ErrAddContext e
                    "unable to complete erasure decode of download"))
  | inr buf =>
      let chunkStartWithinData := u64 (chunkOffset pdc - chunkDLOffset) in
      let chunkEndWithinData := u64 (chunkLength pdc + chunkStartWithinData) in
      d ← slice buf chunkStartWithinData chunkEndWithinData;
      Some {| data := Some d; err := None |}
  end.

(** *** finished *)

(** The inner loop of [finished] over one piece: whether the piece is
    hopeful and whether a completed download was met (which ends the
    loop). *)
Fixpoint finishedPiece (piece : list pieceDownload) (hopeful : bool)
  : bool * bool :=
  match piece with
  | [] => (hopeful, false)
  | pd :: rest =>
      if completed pd then (true, true)
      else finishedPiece rest (if negb (failed pd) then true else hopeful)
  end.

(** The outer loop: the counts [(completedPieces, hopefulPieces)]. *)
Fixpoint finishedCount (pieces : list (list pieceDownload))
    (completedPieces hopefulPieces : Z) : Z * Z :=
  match pieces with
  | [] => (completedPieces, hopefulPieces)
  | piece :: rest =>
      let '(hopeful, done) := finishedPiece piece false in
      finishedCount rest
        (if done then completedPieces + 1 else completedPieces)
        (if hopeful then hopefulPieces + 1 else hopefulPieces)
  end.

Definition errNotEnoughPieces : error :=
  ErrNew "not enough pieces to complete download".

Definition finished (pdc : projectDownloadChunk) : bool * option error :=
  let ws := workerSet pdc in
  let ec := staticErasureCoder ws in
  let '(completedPieces, hopefulPieces) :=
    finishedCount (availablePieces pdc) 0 0 in
  if completedPieces >=? MinPieces ec then (true, None)
  else
    let hopefulPieces :=
      hopefulPieces + Z.of_nat (length (unresolvedWorkers ws)) in
    if hopefulPieces <? MinPieces ec then (false, Some errNotEnoughPieces)
    else (false, None).

(** *** needsOverdrive *)

(** Inner loop of [needsOverdrive] over one piece. *)
Fixpoint overdrivePiece (piece : list pieceDownload)
    (launchedWithoutFail : bool) (latestReturn : Time) : bool * Time :=
  match piece with
  | [] => (launchedWithoutFail, latestReturn)
  | pd :: rest =>
      if launched pd && negb (failed pd) then
        overdrivePiece rest true
          (if negb (completed pd)
              && timeBefore latestReturn (expectedCompletionTime pd)
           then expectedCompletionTime pd else latestReturn)
      else overdrivePiece rest launchedWithoutFail latestReturn
  end.

(** Outer loop: [(numLWF, latestReturn)]. *)
Fixpoint overdriveScan (pieces : list (list pieceDownload))
    (numLWF : Z) (latestReturn : Time) : Z * Time :=
  match pieces with
  | [] => (numLWF, latestReturn)
  | piece :: rest =>
      let '(lwf, latestReturn) := overdrivePiece piece false latestReturn in
      overdriveScan rest (if lwf then numLWF + 1 else numLWF) latestReturn
  end.

(** [needsOverdrive], with the reading of the clock as an argument. *)
Definition needsOverdrive (now : Time) (pdc : projectDownloadChunk)
  : Duration * bool :=
  let '(numLWF, latestReturn) :=
    overdriveScan (availablePieces pdc) 0 zeroTime in
  if numLWF <? MinPieces (staticErasureCoder (workerSet pdc)) then (0, true)
  else
    let untilLatest := timeUntil now latestReturn in
    if untilLatest <=? 0 then (0, true)
    else (i64 (untilLatest + Millisecond * 50), false).

(** *** findBestWorker *)

Definition workerRankErr : Z := 0.
Definition workerRankUnlaunchedPiece : Z := 1.
Definition workerRankLaunchedPiece : Z := 2.
Definition workerRankActivePiece : Z := 3.
Definition workerRankLate : Z := 4.

Definition nullDuration : Duration := MaxInt64.

(** The read time of a worker with its price penalty: the expected job
    time (clamped at zero) plus [expectedCost / pricePerMSPerWorker]
    milliseconds-as-nanoseconds, saturating at [math.MaxInt64].
    [Currency.Div] panics on a zero divisor; [Currency.Uint64] fails above
    [math.MaxUint64]. *)
Definition costAdjustedReadTime (w : worker) (pieceLength : Z)
    (pricePerMSPerWorker : Z) : option Duration :=
  let readTime := callExpectedJobTime w pieceLength in
  let readTime := if readTime <? 0 then 0 else readTime in
  let expectedRSCompletionCost := callExpectedJobCost w pieceLength in
  if pricePerMSPerWorker =? 0 then None
  else
    let quotient := expectedRSCompletionCost / pricePerMSPerWorker in
    let uint64Err := MaxUint64 <? quotient in
    let rsPricePenalty := if uint64Err then 0 else quotient in
    if uint64Err || (MaxInt64 <? rsPricePenalty) then Some MaxInt64
    else if MaxInt64 - rsPricePenalty <? readTime then Some MaxInt64
    else Some (i64 (readTime + rsPricePenalty)).

(** State of the loop over the unresolved workers. *)
Record unresolvedBest := {
  bestUnresolvedDuration : Duration;
  bestWorkerLate : bool;
  bestUnresolvedWaitTime : Duration
}.

Definition unresolvedStep (now : Time) (pieceLength pricePerMSPerWorker : Z)
    (st : unresolvedBest) (uw : pcwsUnresolvedWorker) : option unresolvedBest :=
  let hasSectorTime := timeUntil now (staticExpectedCompletionTime uw) in
  let hasSectorTime := if hasSectorTime <? 0 then 0 else hasSectorTime in
  readTime ← costAdjustedReadTime (staticWorker uw) pieceLength pricePerMSPerWorker;
  let adjustedTotalDuration := i64 (hasSectorTime + readTime) in
  let betterLateStatus := bestWorkerLate st && (0 <? hasSectorTime) in
  let betterDuration := adjustedTotalDuration <? bestUnresolvedDuration st in
  Some {| bestUnresolvedDuration :=
            if betterLateStatus || betterDuration
            then adjustedTotalDuration else bestUnresolvedDuration st;
          bestUnresolvedWaitTime :=
            if (0 <? hasSectorTime) && betterDuration
            then hasSectorTime else bestUnresolvedWaitTime st;
          bestWorkerLate :=
            if 0 <? hasSectorTime then false else bestWorkerLate st |}.

Fixpoint unresolvedLoop (now : Time) (pieceLength pricePerMSPerWorker : Z)
    (uws : list pcwsUnresolvedWorker) (st : unresolvedBest)
  : option unresolvedBest :=
  match uws with
  | [] => Some st
  | uw :: rest =>
      st' ← unresolvedStep now pieceLength pricePerMSPerWorker st uw;
      unresolvedLoop now pieceLength pricePerMSPerWorker rest st'
  end.

(** Per-piece flags of the scan over [availablePieces]. *)
Record pieceScan := {
  unlaunchedWorkerAvailable : bool;
  launchedWithoutFail : bool;
  unlaunchedPiece : bool;
  pieceHasLateWorkers : bool;
  pieceHasActiveWorkers : bool;
  lateWorkers : gset string
}.

Definition pieceScanStep (now : Time) (st : pieceScan) (pd : pieceDownload)
  : pieceScan :=
  let isLateOrFailed :=
    launched pd
    && (failed pd || timeBefore (expectedCompletionTime pd) now) in
  {| unlaunchedWorkerAvailable :=
       if negb (launched pd) then true else unlaunchedWorkerAvailable st;
     unlaunchedPiece :=
       if launched pd && negb (failed pd) then false else unlaunchedPiece st;
     launchedWithoutFail :=
       if launched pd && negb (failed pd) then true else launchedWithoutFail st;
     lateWorkers :=
       if isLateOrFailed
       then {[ staticHostPubKeyStr (pdWorker pd) ]} ∪ lateWorkers st
       else lateWorkers st;
     pieceHasLateWorkers :=
       if isLateOrFailed then true else pieceHasLateWorkers st;
     pieceHasActiveWorkers :=
       if isLateOrFailed then pieceHasActiveWorkers st
       else if launched pd then true else pieceHasActiveWorkers st |}.

(** Flags accumulated over all pieces. *)
Record piecesScan := {
  piecesAvailableToLaunch : Z;
  unlaunchedWorkersAvailable : bool;
  unlaunchedPieces : bool;
  inactivePieces : bool;
  allLateWorkers : gset string
}.

Definition piecesScanStep (now : Time) (st : piecesScan)
    (activePiece : list pieceDownload) : piecesScan :=
  let p := fold_left (pieceScanStep now) activePiece
             {| unlaunchedWorkerAvailable := false;
                launchedWithoutFail := false;
                unlaunchedPiece := true;
                pieceHasLateWorkers := false;
                pieceHasActiveWorkers := false;
                lateWorkers := allLateWorkers st |} in
  {| piecesAvailableToLaunch :=
       if launchedWithoutFail p || unlaunchedWorkerAvailable p
       then piecesAvailableToLaunch st + 1 else piecesAvailableToLaunch st;
     unlaunchedWorkersAvailable :=
       unlaunchedWorkersAvailable st || unlaunchedWorkerAvailable p;
     unlaunchedPieces :=
       if unlaunchedPiece p then true else unlaunchedPieces st;
     inactivePieces :=
       if pieceHasLateWorkers p && negb (pieceHasActiveWorkers p)
       then true else inactivePieces st;
     allLateWorkers := lateWorkers p |}.

(** The first inner loop of the selection: the flags
    [(pieceCompleted, pieceActive, pieceLaunched)] of one piece.  The
    guard tests the flag itself, as the source does. *)
Fixpoint selectionFlags (now : Time) (activePiece : list pieceDownload)
    (pieceCompleted pieceActive pieceLaunched : bool) : bool * bool * bool :=
  match activePiece with
  | [] => (pieceCompleted, pieceActive, pieceLaunched)
  | pd :: rest =>
      if pieceCompleted then (true, pieceActive, pieceLaunched)
      else
        selectionFlags now rest pieceCompleted
          (if launched pd && timeBefore now (expectedCompletionTime pd)
           then true else pieceActive)
          (if launched pd then true else pieceLaunched)
  end.

(** The best worker seen so far. *)
Record selection := {
  bestKnownRank : Z;
  bestKnownDuration : Duration;
  bestResolvedWorker : option worker;
  bestPieceIndex : Z;
  bestWorkerResolved : bool
}.

(** The loop over the workers of one piece; [i] is the index of the worker
    inside the piece, which is what the source stores in
    [bestPieceIndex]. *)
Fixpoint selectWorkers (pieceLength pricePerMSPerWorker : Z)
    (late : gset string) (pieceActive pieceLaunched : bool)
    (activePiece : list pieceDownload) (i : nat) (st : selection)
  : option selection :=
  match activePiece with
  | [] => Some st
  | pd :: rest =>
      let continue st' :=
        selectWorkers pieceLength pricePerMSPerWorker late
          pieceActive pieceLaunched rest (S i) st' in
      let isLate :=
        bool_decide (staticHostPubKeyStr (pdWorker pd) ∈ late) in
      if (bestKnownRank st <? workerRankLate) && isLate then continue st
      else
        let w := pdWorker pd in
        readTime ← costAdjustedReadTime w pieceLength pricePerMSPerWorker;
        if bestKnownDuration st <? readTime then continue st
        else
          continue
            {| bestKnownRank :=
                 if isLate then workerRankLate
                 else if pieceActive then workerRankActivePiece
                 else if pieceLaunched then workerRankLaunchedPiece
                 else workerRankUnlaunchedPiece;
               bestKnownDuration := readTime;
               bestResolvedWorker := Some (pdWorker pd);
               bestPieceIndex := u64 (Z.of_nat i);
               bestWorkerResolved := true |}
  end.

(** The loop over the pieces of the snapshot. *)
Fixpoint selectPieces (now : Time) (pieceLength pricePerMSPerWorker : Z)
    (late : gset string) (piecesCopy : list (list pieceDownload))
    (st : selection) : option selection :=
  match piecesCopy with
  | [] => Some st
  | activePiece :: rest =>
      let continue st' :=
        selectPieces now pieceLength pricePerMSPerWorker late rest st' in
      let '(pieceCompleted, pieceActive, pieceLaunched) :=
        selectionFlags now activePiece false false false in
      if pieceCompleted then continue st
      else if (bestKnownRank st <? workerRankLaunchedPiece) && pieceLaunched
      then continue st
      else if (bestKnownRank st <? workerRankActivePiece) && pieceActive
      then continue st
      else
        st' ← selectWorkers pieceLength pricePerMSPerWorker late
                pieceActive pieceLaunched activePiece 0 st;
        continue st'
  end.

(** The five results of [findBestWorker]; [fbwWake] tells whether an
    update channel was registered and returned. *)
Record fbwResult := {
  fbwWorker : option worker;
  fbwPieceIndex : Z;
  fbwSleep : Duration;
  fbwWake : bool;
  fbwErr : option error
}.

Definition errNotEnoughWorkers : error :=
  ErrNew "rph3 chunk download has failed because there are not enough potential workers".

(** [findBestWorker], with one reading [now] of the clock for the whole
    call.  [None] is the panic of a division by a zero price. *)
Definition findBestWorker (now : Time) (pdc : projectDownloadChunk)
  : option fbwResult :=
  let ws := workerSet pdc in
  let pricePerMSPerWorker :=
    pricePerMS pdc * u64 (MinPieces (staticErasureCoder ws)) in
  let unresolved := unresolvedWorkers ws in
  ub ← unresolvedLoop now (pieceLength pdc) pricePerMSPerWorker unresolved
         {| bestUnresolvedDuration := nullDuration;
            bestWorkerLate := true;
            bestUnresolvedWaitTime := 0 |};
  let sc := fold_left (piecesScanStep now) (availablePieces pdc)
              {| piecesAvailableToLaunch := 0;
                 unlaunchedWorkersAvailable := false;
                 unlaunchedPieces := false;
                 inactivePieces := false;
                 allLateWorkers := ∅ |} in
  let piecesCopy := availablePieces pdc in
  let potentialPieces :=
    piecesAvailableToLaunch sc + Z.of_nat (length unresolved) in
  if potentialPieces <? MinPieces (staticErasureCoder ws) then
    Some {| fbwWorker := None; fbwPieceIndex := 0; fbwSleep := 0;
            fbwWake := false; fbwErr := Some errNotEnoughWorkers |}
  else if negb (unlaunchedWorkersAvailable sc)
          && (length unresolved =? 0)%nat then
    Some {| fbwWorker := None; fbwPieceIndex := 0; fbwSleep := 0;
            fbwWake := false; fbwErr := None |}
  else
    let init :=
      if (0 <? length unresolved)%nat then
        {| bestKnownRank :=
             if unlaunchedPieces sc then workerRankUnlaunchedPiece
             else if inactivePieces sc then workerRankLaunchedPiece
             else workerRankActivePiece;
           bestKnownDuration := bestUnresolvedDuration ub;
           bestResolvedWorker := None;
           bestPieceIndex := 0;
           bestWorkerResolved := false |}
      else
        {| bestKnownRank := workerRankLate;
           bestKnownDuration := nullDuration;
           bestResolvedWorker := None;
           bestPieceIndex := 0;
           bestWorkerResolved := true |} in
    sel ← selectPieces now (pieceLength pdc) pricePerMSPerWorker
            (allLateWorkers sc) piecesCopy init;
    if negb (bestWorkerResolved sel) then
      let checkAgainTime :=
        if bestWorkerLate ub then 0 else bestUnresolvedWaitTime ub in
      Some {| fbwWorker := None; fbwPieceIndex := 0;
              fbwSleep := checkAgainTime; fbwWake := true; fbwErr := None |}
    else
      Some {| fbwWorker := bestResolvedWorker sel;
              fbwPieceIndex := bestPieceIndex sel;
              fbwSleep := 0; fbwWake := false; fbwErr := None |}.

(** *** The collection loop and managedDownload *)

(** What one pass through the head of the loop of
    [threadedCollectAndOverdrivePieces] does before it blocks on the
    worker response channel: it emits a terminal response, or goes on to
    wait. *)
Inductive loopHead :=
| Emit (r : downloadResponse)
| Wait
| Panic.

Definition collectLoopHead (pdc : projectDownloadChunk) : loopHead :=
  let '(completed, err) := finished pdc in
  if completed then
    match finalize pdc with
    | Some r => Emit r
    | None => Panic
    end
  else
    match err with
    | Some e => Emit (fail e)
    | None => Wait
    end.

Definition errEncryptionOverhead : error :=
  ErrNew "invalid request performed - this chunk has encryption overhead and therefore the full chunk must be downloaded".

(** What [managedDownload] returns and what it did on the way: the
    download state behind the returned channel ([None] for a [nil]
    channel), the error, whether a download state was built, and how often
    [launchWorker] was called. *)
Record mdResult := {
  mdChan : option projectDownloadChunk;
  mdErr : option error;
  mdBuilt : bool;
  mdLaunchCalls : nat
}.

Section ManagedDownload.

(** [launchWorker] blocks on channels and timers inside [waitForWorker]
    and enqueues a job on a worker's read queue; it is taken as the
    state transformer it is for the caller. *)
Variable launchWorker :
  projectDownloadChunk -> projectDownloadChunk * option error.

(** The loop [for i := 0; i < MinPieces; i++] with [n] passes left. *)
Fixpoint launchInitial (n : nat) (pdc : projectDownloadChunk)
    (calls : nat) : mdResult :=
  match n with
  | O => {| mdChan := Some pdc; mdErr := None;
            mdBuilt := true; mdLaunchCalls := calls |}
  | S n' =>
      let '(pdc', err) := launchWorker pdc in
      match err with
      | Some e =>
          {| mdChan := None;
             mdErr := Some (ErrAddContext e
                        "not enough workers to kick off the download");
             mdBuilt := true; mdLaunchCalls := S calls |}
      | None => launchInitial n' pdc' (S calls)
      end
  end.

(** [managedDownload]; [make] panics on a negative length. *)
Definition managedDownload (pcws : projectChunkWorkerSet)
    (pricePerMS offset length : Z) : option mdResult :=
  let ec := staticErasureCoder pcws in
  if negb (staticMasterKeyOverhead pcws =? 0)
     && (negb (offset =? 0)
         || negb (length =? u64 (SectorSize * u64 (MinPieces ec))))
  then Some {| mdChan := None; mdErr := Some errEncryptionOverhead;
               mdBuilt := false; mdLaunchCalls := 0 |}
  else
    '(pieceOffset, pieceLength) ← getPieceOffsetAndLen ec offset length;
    if NumPieces ec <? 0 then None
    else
      let pdc :=
        {| chunkOffset := offset; chunkLength := length;
           pricePerMS := pricePerMS;
           pieceOffset := pieceOffset; pieceLength := pieceLength;
           availablePieces := replicate (Z.to_nat (NumPieces ec)) [];
           workersConsidered := ∅;
           dataPieces := replicate (Z.to_nat (NumPieces ec)) None;
           workerSet := pcws |} in
      Some (launchInitial (Z.to_nat (MinPieces ec)) pdc 0).

End ManagedDownload.

(** *** A download in progress

    Two data pieces are needed.  Piece 0 has been fetched by worker [wA];
    worker [wC] also holds it and has not been launched.  Piece 1 was
    requested from worker [wB], who is late; the slower worker [wD] holds
    it too.  The clock reads 200. *)

Definition mkWorker (key : string) (readTime : Duration) : worker :=
  {| staticHostPubKeyStr := key;
     callExpectedJobTime := fun _ => readTime;
     callExpectedJobCost := fun _ => 0 |}.

Definition wA : worker := mkWorker "hostA" 10.
Definition wB : worker := mkWorker "hostB" 10.
Definition wC : worker := mkWorker "hostC" 5.
Definition wD : worker := mkWorker "hostD" 100.

Definition pdUnlaunched (w : worker) : pieceDownload :=
  {| completed := false; failed := false; launched := false;
     expectedCompletionTime := zeroTime; pdWorker := w |}.

Definition pdLaunched (w : worker) (t : Time) : pieceDownload :=
  {| completed := false; failed := false; launched := true;
     expectedCompletionTime := t; pdWorker := w |}.

Definition pdCompleted (w : worker) (t : Time) : pieceDownload :=
  {| completed := true; failed := false; launched := true;
     expectedCompletionTime := t; pdWorker := w |}.

Definition ec_2_2 : ErasureCoder :=
  {| MinPieces := 2; NumPieces := 2;
     SupportsPartialEncoding := (64, true);
     Recover := fun _ _ => inl (ErrNew "not used") |}.

Definition ws_2_2 : projectChunkWorkerSet :=
  {| staticErasureCoder := ec_2_2;
     staticMasterKeyOverhead := 0;
     staticPieceRoots := [[Byte.x01]; [Byte.x02]];
     unresolvedWorkers := [] |}.

Definition pdcInProgress : projectDownloadChunk :=
  {| chunkLength := 128; chunkOffset := 0; pricePerMS := 1;
     pieceLength := 64; pieceOffset := 0;
     availablePieces :=
       [ [pdUnlaunched wC; pdCompleted wA 150];
         [pdLaunched wB 150; pdUnlaunched wD] ];
     workersConsidered := ∅;
     dataPieces := [Some (repeat Byte.x00 64); None];
     workerSet := ws_2_2 |}.

(** *** Counting pieces

    The quantities the progress check and the overdrive check are specified
    with, written as plain counts over the state. *)

Definition hasCompleted (piece : list pieceDownload) : bool :=
  existsb completed piece.

Definition hasUnfailed (piece : list pieceDownload) : bool :=
  existsb (fun pd => negb (failed pd)) piece.

Definition isLaunchedWithoutFail (pd : pieceDownload) : bool :=
  launched pd && negb (failed pd).

Definition isOutstanding (pd : pieceDownload) : bool :=
  launched pd && negb (failed pd) && negb (completed pd).

Definition countPieces (p : list pieceDownload -> bool)
    (pdc : projectDownloadChunk) : Z :=
  Z.of_nat (length (List.filter p (availablePieces pdc))).

(** Pieces with a completed download. *)
Definition completedCount := countPieces hasCompleted.
(** Pieces still pending: no download of the piece is completed, and one
    of them, launched or not, has not failed. *)
Definition pendingCount :=
  countPieces (fun piece => negb (hasCompleted piece) && hasUnfailed piece).
(** Pieces with a launched download that has not failed. *)
Definition launchedWithoutFailCount :=
  countPieces (existsb isLaunchedWithoutFail).

(** The latest expected completion time among the launched, not failed,
    not completed downloads; the zero time when there is none. *)
Definition latestOutstanding (pdc : projectDownloadChunk) : Time :=
  fold_right Z.max zeroTime
    (map expectedCompletionTime
         (List.filter isOutstanding (concat (availablePieces pdc)))).

(** *** A completed one-piece download

    A pass-through coder over one piece: the chunk is piece 0, and
    [Recover] writes its first [n] bytes in one [Write]. *)
Definition ec_1_1 : ErasureCoder :=
  {| MinPieces := 1; NumPieces := 1;
     SupportsPartialEncoding := (64, true);
     Recover := fun pieces n =>
       match pieces with
       | Some p :: _ => inr (bufferWritten (take (Z.to_nat n) p))
       | _ => inl (ErrNew "not enough pieces")
       end |}.

Definition ws_1_1 (overhead : Z) : projectChunkWorkerSet :=
  {| staticErasureCoder := ec_1_1; staticMasterKeyOverhead := overhead;
     staticPieceRoots := [[Byte.x01]]; unresolvedWorkers := [] |}.

Definition pdcDone : projectDownloadChunk :=
  {| chunkLength := 64; chunkOffset := 0; pricePerMS := 1;
     pieceLength := 64; pieceOffset := 0;
     availablePieces := [[pdCompleted wA 150]];
     workersConsidered := ∅;
     dataPieces := [Some (repeat Byte.x2a 64)];
     workerSet := ws_1_1 0 |}.

(** A download that can no longer complete: two pieces are needed, one
    is completed and the only download of the other has failed. *)
Definition pdFailed (w : worker) : pieceDownload :=
  {| completed := false; failed := true; launched := true;
     expectedCompletionTime := zeroTime; pdWorker := w |}.

Definition pdcStuck : projectDownloadChunk :=
  {| chunkLength := 128; chunkOffset := 0; pricePerMS := 1;
     pieceLength := 64; pieceOffset := 0;
     availablePieces := [ [pdCompleted wA 150]; [pdFailed wB] ];
     workersConsidered := ∅;
     dataPieces := [Some (repeat Byte.x00 64); None];
     workerSet := ws_2_2 |}.

(** A launch that always succeeds and changes nothing. *)
Definition launchNoop (pdc : projectDownloadChunk)
  : projectDownloadChunk * option error := (pdc, None).

(** A read response from hostC for a root that is none of the chunk's. *)
Definition jrrStray (e : option error) : jobReadResponse :=
  {| staticData := repeat Byte.x07 64; staticErr := e;
     staticSectorRoot := [Byte.xff]; jrrWorker := wC |}.

End Orchestrator.

(** ** HasSector job queue *)

Module HasSectorQueue.
Import GoInt Orchestrator.

Definition hasSectorBatchSize : nat := 13.

(** [JobTime]: potential durations of a job, one per percentile. *)
Definition JobTime := list Duration.

Record ResolveTime := {
  start : Time;
  times : JobTime
}.

(** The zero value [ResolveTime{}]. *)
Definition zeroResolveTime : ResolveTime :=
  {| start := zeroTime; times := [] |}.

(** [jt.ResolveTime(start)], with its deep copy of the durations. *)
Definition jtResolveTime (jt : JobTime) (start : Time) : ResolveTime :=
  {| start := start; times := [] ++ jt |}.

(** [jt.Max()] indexes the last entry and panics on an empty [JobTime]. *)
Definition jtMax (jt : JobTime) : option Duration := last jt.

(** The loop of [ResolveTime.time] from index [i] on. *)
Fixpoint firstAhead (passedTime : Duration) (ds : list Duration) (i : nat)
  : option (Duration * nat) :=
  match ds with
  | [] => None
  | d :: rest =>
      if passedTime <? d then Some (d, i)
      else firstAhead passedTime rest (S i)
  end.

(** [rt.time()], with the reading of the clock as an argument: the
    expected resolve time and the index of the duration it comes from. *)
Definition resolveTimeTime (now : Time) (rt : ResolveTime)
  : option (Time * nat) :=
  match times rt with
  | [] => Some (zeroTime, 0%nat)
  | _ =>
      let passedTime := timeSub now (start rt) in
      match firstAhead passedTime (times rt) 0 with
      | Some (d, i) => Some (start rt + d, i)
      | None =>
          m ← jtMax (times rt);
          Some (start rt + m, (length (times rt) - 1)%nat)
      end
  end.

Definition errEstimateAboveMax : error :=
  ErrNew "can't add job since estimate is above max timeout".
Definition errUnableToAdd : error :=
  ErrNew "unable to add job to queue".

(** A [jobHasSector]: the roots asked for, an identifier standing for the
    job's response channel, whether the job's context has been cancelled
    ([staticCanceled]) and the start time kept in its [jobGeneric]. *)
Record jobHasSector := {
  staticSectors : list Hash;
  staticResponseChan : nat;
  jobCanceled : bool;
  externJobStartTime : Time
}.

Definition set_externJobStartTime (j : jobHasSector) (t : Time) : jobHasSector :=
  {| staticSectors := staticSectors j;
     staticResponseChan := staticResponseChan j;
     jobCanceled := jobCanceled j;
     externJobStartTime := t |}.

(** Modelled from the spec: the generic job queue embedded in every typed
    queue, whose source is not among the files at hand.  It is a FIFO of
    pending jobs with a cancellation state; after repeated failures the
    queue is on cool-down until a point in time, and a killed queue takes
    no more jobs. *)
Record jobGenericQueue := {
  jobs : list jobHasSector;
  killed : bool;
  cooldownUntil : Time
}.

Definition onCooldown (now : Time) (q : jobGenericQueue) : bool :=
  timeBefore now (cooldownUntil q).

(** Modelled from the spec: [jobGenericQueue.add].  "Jobs submitted during
    cool-down are rejected immediately"; an accepted job goes to the back
    of the FIFO. *)
Definition genericAdd (now : Time) (q : jobGenericQueue) (j : jobHasSector)
  : bool * jobGenericQueue :=
  if killed q || onCooldown now q then (false, q)
  else (true, {| jobs := jobs q ++ [j]; killed := killed q;
                 cooldownUntil := cooldownUntil q |}).

(** Modelled from the spec: [jobGenericQueue.callNext].  Jobs leave the
    FIFO from the front; cancelled jobs are dropped on the way, and [nil]
    is returned when the queue runs empty. *)
Fixpoint popNext (js : list jobHasSector)
  : option jobHasSector * list jobHasSector :=
  match js with
  | [] => (None, [])
  | j :: rest => if jobCanceled j then popNext rest else (Some j, rest)
  end.

Definition genericCallNext (q : jobGenericQueue)
  : option jobHasSector * jobGenericQueue :=
  let '(j, rest) := popNext (jobs q) in
  (j, {| jobs := rest; killed := killed q;
         cooldownUntil := cooldownUntil q |}).

(** [jobHasSectorQueue]: the generic queue and the distribution tracker,
    of which the queue reads [PercentilesCustom(jobTimePercentiles)[0]],
    the current duration estimates at p50, p60, p70, p80, p90, p99 and
    p999. *)
Record jobHasSectorQueue := {
  staticDT : JobTime;
  generic : jobGenericQueue
}.

Definition expectedJobTime (jq : jobHasSectorQueue) : JobTime := staticDT jq.

Definition set_generic (jq : jobHasSectorQueue) (g : jobGenericQueue)
  : jobHasSectorQueue :=
  {| staticDT := staticDT jq; generic := g |}.

Definition jobHasSectorBatch := list jobHasSector.

(** The loop of [jobHasSectorQueue.callNext]; every pass either leaves the
    loop or appends a job, so [fuel] passes are enough when
    [fuel > hasSectorBatchSize]. *)
Fixpoint callNextLoop (fuel : nat) (q : jobGenericQueue)
    (batch : list jobHasSector)
  : option (list jobHasSector * jobGenericQueue) :=
  match fuel with
  | O => None
  | S fuel' =>
      if (hasSectorBatchSize <=? length batch)%nat then Some (batch, q)
      else
        match genericCallNext q with
        | (None, q') => Some (batch, q')
        | (Some j, q') => callNextLoop fuel' q' (batch ++ [j])
        end
  end.

(** [jobHasSectorQueue.callNext]: the batch, [None] for a [nil] job. *)
Definition callNext (fuel : nat) (jq : jobHasSectorQueue)
  : option (option jobHasSectorBatch * jobHasSectorQueue) :=
  '(batch, q') ← callNextLoop fuel (generic jq) [];
  Some (match batch with [] => None | _ => Some batch end,
        set_generic jq q').

(** [callAddWithEstimate], with the reading of the clock as an argument.
    The result is the returned pair and the queue afterwards. *)
Definition callAddWithEstimate (now : Time) (jq : jobHasSectorQueue)
    (j : jobHasSector) (maxEstimate : Duration)
  : option (ResolveTime * option error * jobHasSectorQueue) :=
  let estimate := expectedJobTime jq in
  m ← jtMax estimate;
  if maxEstimate <? m then
    Some (zeroResolveTime, Some errEstimateAboveMax, jq)
  else
    let j := set_externJobStartTime j now in
    let '(added, g') := genericAdd now (generic jq) j in
    if negb added then Some (zeroResolveTime, Some errUnableToAdd, jq)
    else Some (jtResolveTime estimate now, None, set_generic jq g').

(** *** Executing a batch *)

(** One [programResponse] of the host: an error or an output. *)
Record programResponse := {
  respError : option error;
  respOutput : list Byte.byte
}.


Section Execute.

(** [w.managedExecuteProgram], for a program of one HasSector
    instruction per root: the responses of the host, or an error. *)
Variable managedExecuteProgram : list Hash -> error + list programResponse.

(** The program of a batch: the roots of its jobs, in order. *)
Definition batchProgram (batch : jobHasSectorBatch) : list Hash :=
  flat_map staticSectors batch.

(** The loop over the responses; [resp.Output[0]] panics on an empty
    output.  [inl] is the returned error. *)
Fixpoint parseResponses (responses : list programResponse)
    (hasSectors : list bool) : option (error + list bool) :=
  match responses with
  | [] => Some (inr hasSectors)
  | resp :: rest =>
      match respError resp with
      | Some e => Some (inl (ErrAddContext e "Output error"))
      | None =>
          match respOutput resp with
          | [] => None
          | b :: _ =>
              parseResponses rest
                (hasSectors ++ [bool_decide (b = Byte.x01)])
          end
      end
  end.

(** The loop that cuts the bit-vector into one slice per job;
    re-slicing past the end panics. *)
Fixpoint sliceResults (batch : jobHasSectorBatch) (hasSectors : list bool)
    (results : list (list bool)) : option (list (list bool)) :=
  match batch with
  | [] => Some results
  | hsj :: rest =>
      let n := length (staticSectors hsj) in
      if (length hasSectors <? n)%nat then None
      else sliceResults rest (drop n hasSectors)
             (results ++ [take n hasSectors])
  end.

(** [managedHasSector]: [None] is a panic, [inl] the returned error. *)
Definition managedHasSector (batch : jobHasSectorBatch)
  : option (error + list (list bool)) :=
  match batch with
  | [] => Some (inr [])
  | _ =>
      let program := batchProgram batch in
      match managedExecuteProgram program with
      | inl e =>
          Some (inl (ErrAddContext e
                       "unable to execute program for has sector job"))
      | inr responses =>
          parsed ← parseResponses responses [];
          match parsed with
          | inl e => Some (inl e)
          | inr hasSectors =>
              if negb (length responses =? length program)%nat then
                Some (inl (ErrNew
                  "received invalid number of responses but no error"))
              else
                results ← sliceResults batch hasSectors [];
                Some (inr results)
          end
      end
  end.



End Execute.


(** The jobs of a queue that have not been cancelled, in queue order. *)
Definition live (js : list jobHasSector) : list jobHasSector :=
  List.filter (fun j => negb (jobCanceled j)) js.

(** Whether a response says the host has the sector. *)
Definition isAvailable (resp : programResponse) : bool :=
  match respOutput resp with
  | b :: _ => bool_decide (b = Byte.x01)
  | [] => false
  end.

(** A response that carries an output and no error. *)
Definition goodResponse (resp : programResponse) : Prop :=
  respError resp = None /\ respOutput resp <> [].

(** The bit-vector cut into consecutive slices, one per job, each as long
    as the job's list of roots. *)
Fixpoint cut (batch : jobHasSectorBatch) (hasSectors : list bool)
  : list (list bool) :=
  match batch with
  | [] => []
  | hsj :: rest =>
      take (length (staticSectors hsj)) hasSectors
        :: cut rest (drop (length (staticSectors hsj)) hasSectors)
  end.


(** *** A queue and a host to run *)

Definition mkJob (chan : nat) (roots : list Hash) : jobHasSector :=
  {| staticSectors := roots; staticResponseChan := chan;
     jobCanceled := false; externJobStartTime := zeroTime |}.

Definition estimates : JobTime := [1; 2; 3; 4; 5; 6; 7].

Definition jqReady : jobHasSectorQueue :=
  {| staticDT := estimates;
     generic := {| jobs := [mkJob 1 [[Byte.x01]]]; killed := false;
                   cooldownUntil := zeroTime |} |}.

(** The same queue on cool-down until time 1000. *)
Definition jqCooling : jobHasSectorQueue :=
  {| staticDT := estimates;
     generic := {| jobs := [mkJob 1 [[Byte.x01]]]; killed := false;
                   cooldownUntil := 1000 |} |}.

(** A host that has exactly the sectors whose root starts with byte 1. *)
Definition hostAnswers (program : list Hash) : error + list programResponse :=
  inr (map (fun root =>
              {| respError := None;
                 respOutput := match root with
                               | b :: _ => [b]
                               | [] => [Byte.x00]
                               end |}) program).


Definition batch2 : jobHasSectorBatch :=
  [ mkJob 1 [[Byte.x01]; [Byte.x02]]; mkJob 2 [[Byte.x03]; [Byte.x01]; [Byte.x01]] ].

End HasSectorQueue.

(** ** Merkle range proofs *)

Module MerkleRange.
Import GoInt.

Definition Digest := list Byte.byte.

#[global] Instance error_eq_dec : EqDecision error.
Proof. solve_decision. Defined.

Definition ioEOF : error := ErrNew "EOF".
Definition ioErrUnexpectedEOF : error := ErrNew "unexpected EOF".
Definition errInsufficientLeafData : error :=
  ErrNew "insufficient leaf data in reader".

(** [1 << i] at type [uint64]: a shift by 64 or more gives 0. *)
Definition shl1_u64 (i : nat) : Z := u64 (Z.shiftl 1 (Z.of_nat i)).
(** [1 << i] at type [int]. *)
Definition shl1_int (i : nat) : Z := i64 (Z.shiftl 1 (Z.of_nat i)).

Section Hashing.

(** The [hash.Hash] in use, as the function from a message to its
    digest. *)
Variable sum : list Byte.byte -> Digest.

(** Modelled from the spec: the [Stack] of the merkletree package, whose
    source is not among the files at hand.  The root is that of a binary
    Merkle tree with the leaf hash domain-separated from the internal hash;
    the stack keeps at most one subtree root per height, [used] has bit [i]
    set when the slot of height [i] is taken, and a node appended at a
    taken height is merged with the node there and carried upwards. *)
Record Stack := {
  stack : list Digest;
  used : Z
}.

(** Modelled from the spec: leaf and node hashes carry distinct prefixes. *)
Definition leafHash (leaf : list Byte.byte) : Digest :=
  sum (Byte.x00 :: leaf).
Definition nodeHash (left right : Digest) : Digest :=
  sum (Byte.x01 :: left ++ right).

(** Modelled from the spec: [NewStack], the empty stack of 64 slots. *)
Definition NewStack : Stack := {| stack := replicate 64 []; used := 0 |}.

(** Modelled from the spec: the read [s.stack[i]] of a slot of the stack. *)
Definition slot (s : Stack) (i : nat) : Digest := default [] (stack s !! i).

(** Modelled from the spec: the test [s.used&(1<<i) != 0] that the slot of
    height [i] is taken. *)
Definition usedBit (s : Stack) (i : nat) : bool :=
  negb (Z.land (used s) (shl1_u64 i) =? 0).

(** Modelled from the spec: the merge loop of [appendNodeAtHeight],
    [for ; s.used&(1<<i) != 0; i++ { node = nodeHash(s.stack[i], node) }],
    with [k = 64 - i] heights left; at [i = 64] the mask [1<<i] is 0 and
    the loop ends. *)
Fixpoint mergeUp (k : nat) (s : Stack) (node : Digest) (i : nat)
  : Digest * nat :=
  match k with
  | O => (node, i)
  | S k' =>
      if usedBit s i then mergeUp k' s (nodeHash (slot s i) node) (S i)
      else (node, i)
  end.

(** Modelled from the spec: [appendNodeAtHeight]; a height of 64 or more
    panics, and so does the store into a slot past the array. *)
Definition appendNodeAtHeight (s : Stack) (node : Digest) (height : nat)
  : option Stack :=
  if (64 <=? height)%nat then None
  else
    let '(node', i) := mergeUp (64 - height) s node height in
    if (64 <=? i)%nat then None
    else Some {| stack := <[i := node']> (stack s);
                 used := u64 (used s + shl1_u64 height) |}.

(** Modelled from the spec: [AppendNode] appends at height 0. *)
Definition AppendNode (s : Stack) (node : Digest) : option Stack :=
  appendNodeAtHeight s node 0.

(** Modelled from the spec: [NumNodes]. *)
Definition NumNodes (s : Stack) : Z := i64 (used s).

(** Modelled from the spec: the lowest taken height, [bits.TrailingZeros64]
    of [used], searched from bit [i] on with [k = 64 - i]. *)
Fixpoint trailingZeros (k : nat) (s : Stack) (i : nat) : nat :=
  match k with
  | O => i
  | S k' => if usedBit s i then i else trailingZeros k' s (S i)
  end.

(** Modelled from the spec: the loop of [Root] over the heights
    [i .. i + k - 1], folding every taken slot into the root. *)
Fixpoint rootLoop (k : nat) (s : Stack) (i : nat) (root : Digest) : Digest :=
  match k with
  | O => root
  | S k' =>
      rootLoop k' s (S i)
        (if usedBit s i then nodeHash (slot s i) root else root)
  end.

(** Modelled from the spec: [Root], the root of the nodes on the stack,
    folded from the lowest height upwards; [nil] for an empty stack. *)
Definition Root (s : Stack) : Digest :=
  let i := trailingZeros 64 s 0 in
  if (i =? 64)%nat then []
  else rootLoop (63 - i) s (S i) (slot s i).

(** *** SubtreeReader *)

(** [io.ReadFull(r, leaf)] on a reader holding the bytes [r]: the bytes
    read, the rest of the stream and the error. *)
Definition readFull (r : list Byte.byte) (leafSize : nat)
  : list Byte.byte * list Byte.byte * option error :=
  let buf := take leafSize r in
  (buf, drop leafSize r,
   if (length buf =? leafSize)%nat then None
   else if (length buf =? 0)%nat then Some ioEOF
   else Some ioErrUnexpectedEOF).

Definition isEOF (e : option error) : bool :=
  bool_decide (e = Some ioEOF) || bool_decide (e = Some ioErrUnexpectedEOF).

(** A [SubtreeReader]: the rest of the stream and the leaf size (the stack
    is reset at every use). *)
Record SubtreeReader := {
  srData : list Byte.byte;
  srLeafSize : nat
}.

(** The loop of [NextSubtreeRoot] with [k] passes left. *)
Fixpoint readSubtree (k : nat) (r : list Byte.byte) (leafSize : nat)
    (s : Stack) : option (Stack * list Byte.byte) :=
  match k with
  | O => Some (s, r)
  | S k' =>
      let '(buf, r', e) := readFull r leafSize in
      s' ← (if (0 <? length buf)%nat then AppendNode s (leafHash buf)
            else Some s);
      if isEOF e then Some (s', r')
      else readSubtree k' r' leafSize s'
  end.

(** [NextSubtreeRoot(n)]: the root or the error, and the reader after the
    call; [None] is a panic of the stack. *)
Definition NextSubtreeRoot (sr : SubtreeReader) (n : Z)
  : option ((error + Digest) * SubtreeReader) :=
  '(s, r') ← readSubtree (Z.to_nat n) (srData sr) (srLeafSize sr) NewStack;
  let sr' := {| srData := r'; srLeafSize := srLeafSize sr |} in
  if NumNodes s =? 0 then Some (inl ioEOF, sr')
  else Some (inr (Root s), sr').

(** [Skip(n)], for a reader that is not a seeker: [io.CopyN] to
    [ioutil.Discard]. *)
Definition Skip (sr : SubtreeReader) (n : Z) : option error * SubtreeReader :=
  let skipSize := Z.to_nat (i64 (Z.of_nat (srLeafSize sr) * n)) in
  (if (length (srData sr) <? skipSize)%nat then Some ioEOF else None,
   {| srData := drop skipSize (srData sr); srLeafSize := srLeafSize sr |}).

Definition NewSubtreeReader (r : list Byte.byte) (leafSize : nat)
  : SubtreeReader :=
  {| srData := r; srLeafSize := leafSize |}.

(** *** BuildRangeProof *)

Definition illegalRange (proofStart proofEnd : Z) : bool :=
  (proofStart <? 0) || (proofEnd <? proofStart) || (proofStart =? proofEnd).

(** The first loop of [BuildRangeProof], over the subtrees left of the
    range; it runs until [leafIndex] reaches [proofStart], and [None] is
    the loop running out of [fuel] or a panic. *)
Fixpoint buildLeft (fuel : nat) (proofStart : Z) (subtreeSize leafIndex : Z)
    (h : SubtreeReader) (proof : list Digest)
  : option (error + list Digest * SubtreeReader) :=
  match fuel with
  | O => None
  | S fuel' =>
      if leafIndex <? u64 proofStart then
        if negb (Z.land (u64 proofStart) subtreeSize =? 0) then
          '(res, h') ← NextSubtreeRoot h (i64 subtreeSize);
          match res with
          | inl e => Some (inl e)
          | inr root =>
              buildLeft fuel' proofStart (Z.shiftr subtreeSize 1)
                (u64 (leafIndex + subtreeSize)) h' (proof ++ [root])
          end
        else
          buildLeft fuel' proofStart (Z.shiftr subtreeSize 1) leafIndex h proof
      else Some (inr (proof, h))
  end.

(** The last loop of [BuildRangeProof], over the subtrees right of the
    range, with [k] values of [subtreeSize] left before [1<<63]. *)
Fixpoint buildRight (k : nat) (endMask : Z) (subtreeSize : Z)
    (h : SubtreeReader) (proof : list Digest)
  : option (error + list Digest) :=
  match k with
  | O => Some (inr proof)
  | S k' =>
      if Z.land endMask (u64 subtreeSize) =? 0 then
        '(res, h') ← NextSubtreeRoot h (i64 subtreeSize);
        match res with
        | inl e =>
            if bool_decide (e = ioEOF) then Some (inr proof)
            else Some (inl e)
        | inr root =>
            buildRight k' endMask (u64 (Z.shiftl subtreeSize 1)) h'
              (proof ++ [root])
        end
      else buildRight k' endMask (u64 (Z.shiftl subtreeSize 1)) h proof
  end.

(** [BuildRangeProof] over a [SubtreeReader]; an illegal range panics. *)
Definition BuildRangeProof (fuel : nat) (proofStart proofEnd : Z)
    (h : SubtreeReader) : option (error + list Digest) :=
  if illegalRange proofStart proofEnd then None
  else
    left ← buildLeft fuel proofStart (shl1_u64 63) 0 h [];
    match left with
    | inl e => Some (inl e)
    | inr (proof, h) =>
        let '(e, h) := Skip h (proofEnd - proofStart) in
        if negb (bool_decide (e = None)) && negb (isEOF e)
        then Some (inl (default ioEOF e))
        else buildRight 63 (u64 (proofEnd - 1)) 1 h proof
    end.

Definition BuildReaderRangeProof (fuel : nat) (r : list Byte.byte)
    (leafSize : nat) (proofStart proofEnd : Z) : option (error + list Digest) :=
  if illegalRange proofStart proofEnd then None
  else BuildRangeProof fuel proofStart proofEnd (NewSubtreeReader r leafSize).

(** *** VerifyReaderRangeProof *)

(** The first loop, [for i := uint64(63); i != ^uint64(0) && len(proof) > 0;
    i--], with [k = i + 1]. *)
Fixpoint verifyLeft (k : nat) (proofStart : Z) (s : Stack)
    (proof : list Digest) : option (Stack * list Digest) :=
  match k with
  | O => Some (s, proof)
  | S i =>
      match proof with
      | [] => Some (s, proof)
      | p0 :: rest =>
          let subtreeSize := shl1_int i in
          if negb (Z.land proofStart subtreeSize =? 0) then
            s' ← appendNodeAtHeight s p0 i;
            verifyLeft i proofStart s' rest
          else verifyLeft i proofStart s proof
      end
  end.

(** The loop over the leaves of the range, with [k] leaves left; [last]
    tells whether [i == proofEnd-1] holds in the current pass. *)
Fixpoint verifyLeaves (k : nat) (r : list Byte.byte) (leafSize : nat)
    (s : Stack) : option (error + Stack) :=
  match k with
  | O => Some (inr s)
  | S k' =>
      let '(buf, r', e) := readFull r leafSize in
      s' ← (if (0 <? length buf)%nat then AppendNode s (leafHash buf)
            else Some s);
      if isEOF e then
        if (k' =? 0)%nat then Some (inr s')
        else Some (inl errInsufficientLeafData)
      else verifyLeaves k' r' leafSize s'
  end.

(** The last loop, [for i := uint64(0); len(proof) > 0; i++]; [None] is the
    loop running out of [fuel] or a panic. *)
Fixpoint verifyRight (fuel : nat) (endMask : Z) (i : nat) (s : Stack)
    (proof : list Digest) : option Stack :=
  match proof with
  | [] => Some s
  | p0 :: rest =>
      match fuel with
      | O => None
      | S fuel' =>
          let subtreeSize := shl1_int i in
          if negb (Z.land endMask (u64 subtreeSize) =? 0) then
            s' ← appendNodeAtHeight s p0 i;
            verifyRight fuel' endMask (S i) s' rest
          else verifyRight fuel' endMask (S i) s proof
      end
  end.

(** [VerifyReaderRangeProof]: the pair [(bool, error)] returned. *)
Definition VerifyReaderRangeProof (fuel : nat) (r : list Byte.byte)
    (leafSize : nat) (proofStart proofEnd : Z) (proof : list Digest)
    (root : Digest) : option (bool * option error) :=
  if illegalRange proofStart proofEnd then None
  else
    '(s, proof) ← verifyLeft 64 proofStart NewStack proof;
    leaves ← verifyLeaves (Z.to_nat (proofEnd - proofStart)) r leafSize s;
    match leaves with
    | inl e => Some (false, Some e)
    | inr s =>
        let endMask := u64 (0 - u64 proofEnd) in
        s ← verifyRight fuel endMask 0 s proof;
        Some (bool_decide (Root s = root), None)
    end.

(** *** The sector *)

(** The number of leaves of a stream. *)
Definition totalLeaves (r : list Byte.byte) (leafSize : nat) : Z :=
  (Z.of_nat (length r) + Z.of_nat leafSize - 1) / Z.of_nat leafSize.

(** The Merkle root of a stream: the root of all its leaves, as
    [NextSubtreeRoot] computes it on a fresh reader. *)
Definition MerkleRoot (r : list Byte.byte) (leafSize : nat) : option Digest :=
  '(res, _) ← NextSubtreeRoot (NewSubtreeReader r leafSize)
                 (totalLeaves r leafSize);
  match res with
  | inr root => Some root
  | inl _ => None
  end.

(** The bytes of the leaves [proofStart .. proofEnd - 1]. *)
Definition leafRange (r : list Byte.byte) (leafSize : nat)
    (proofStart proofEnd : Z) : list Byte.byte :=
  take (Z.to_nat (proofEnd - proofStart) * leafSize)
       (drop (Z.to_nat proofStart * leafSize) r).

(** *** Notions the round trip is stated and proved with *)

(** Whether bit [i] of [p] is set. *)
Definition bitAt (p i : nat) : bool := ((p / 2 ^ i) mod 2 =? 1)%nat.

(** The root of the full subtree of height [i] over the first [2^i]
    entries of a list of leaf hashes. *)
Fixpoint fullRoot (i : nat) (l : list Digest) : Digest :=
  match i with
  | O => default [] (head l)
  | S i' => nodeHash (fullRoot i' l) (fullRoot i' (drop (2 ^ i') l))
  end.

(** Where the block of the node at height [i] starts when [p] leaves have
    been appended. *)
Definition blockStart (p i : nat) : nat := ((p / 2 ^ i - 1) * 2 ^ i)%nat.

(** The stack [s] holds the first [p] leaves of [L]: for every set bit of
    [p], the slot at that height is the root of the full subtree over the
    block of leaves the bit stands for. *)
Definition Repr (L : list Digest) (s : Stack) (p : nat) : Prop :=
  used s = Z.of_nat p /\
  length (stack s) = 64%nat /\
  forall i, (i < 64)%nat -> bitAt p i = true ->
            slot s i = fullRoot i (drop (blockStart p i) L).

(** The fold of [Root] with the root so far as an option: [None] until the
    first taken slot is met. *)
Fixpoint rootOpt (k : nat) (s : Stack) (i : nat) (acc : option Digest)
  : option Digest :=
  match k with
  | O => acc
  | S k' =>
      rootOpt k' s (S i)
        (if usedBit s i
         then Some (match acc with
                    | None => slot s i
                    | Some r => nodeHash (slot s i) r
                    end)
         else acc)
  end.

(** Two stacks that agree on the heights [i .. i + k - 1]. *)
Definition agreeOn (s1 s2 : Stack) (i k : nat) : Prop :=
  forall i', (i <= i' < i + k)%nat ->
    usedBit s1 i' = usedBit s2 i' /\
    (usedBit s1 i' = true -> slot s1 i' = slot s2 i').

(** The stream cut into leaves of [sz] bytes, the last one possibly
    shorter; [fuel] bounds the number of leaves. *)
Fixpoint chunks (fuel sz : nat) (r : list Byte.byte) : list (list Byte.byte) :=
  match fuel with
  | O => []
  | S fuel' =>
      match r with
      | [] => []
      | _ => take sz r :: chunks fuel' sz (drop sz r)
      end
  end.

(** The leaves of a stream. *)
Definition leavesOf (sz : nat) (r : list Byte.byte) : list (list Byte.byte) :=
  chunks (length r) sz r.

(** The leaf hashes of a stream. *)
Definition leafHashes (sz : nat) (r : list Byte.byte) : list Digest :=
  map leafHash (leavesOf sz r).

(** Appending a list of nodes at height 0, one after the other. *)
Fixpoint appendAll (s : Stack) (hs : list Digest) : option Stack :=
  match hs with
  | [] => Some s
  | h :: rest => s' ← AppendNode s h; appendAll s' rest
  end.

(** The subtree size of [BuildRangeProof]'s first loop when [k] bits of
    [proofStart] are left to look at. *)
Definition sizeAt (k : nat) : Z := Z.shiftr (2 ^ 63) (Z.of_nat (64 - k)).

Section Sector.
Variable data : list Byte.byte.
Variable sz : nat.

(** The reader positioned at leaf [pos]. *)
Definition readerAt (pos : nat) : SubtreeReader :=
  {| srData := drop (pos * sz) data; srLeafSize := sz |}.

Section Range.
Variables a b : nat.

(** The hashes left of the range for the lowest [k] bits of [a], from the
    highest of them down. *)
Fixpoint leftProof (k : nat) : list Digest :=
  match k with
  | O => []
  | S i =>
      (if bitAt a i
       then [fullRoot i (drop (a / 2 ^ S i * 2 ^ S i) (leafHashes sz data))]
       else []) ++ leftProof i
  end.

(** The leaf up to which the stack is filled when the last loops reach
    height [i]: the first multiple of [2^i] after leaf [b - 1]. *)
Definition posAt (i : nat) : nat := (((b - 1) / 2 ^ i + 1) * 2 ^ i)%nat.

(** [endMask] of [BuildRangeProof], [uint64(proofEnd - 1)]. *)
Definition buildMask : Z := u64 (Z.of_nat b - 1).

(** [endMask] of [VerifyReaderRangeProof], [0 - uint64(proofEnd)]. *)
Definition verifyMask : Z := u64 (0 - u64 (Z.of_nat b)).

End Range.
End Sector.

End Hashing.

(** A toy digest for running the functions: the low byte of the length and
    the first byte of the message. *)
Definition toySum (msg : list Byte.byte) : Digest :=
  match Byte.of_nat (length msg mod 256) with
  | Some b => b :: take 1 msg
  | None => take 1 msg
  end.

(** A sector of 11 leaves of 2 bytes, the last leaf short by one byte. *)
Definition toySector : list Byte.byte :=
  [Byte.x00; Byte.x01; Byte.x02; Byte.x03; Byte.x04; Byte.x05; Byte.x06;
   Byte.x07; Byte.x08; Byte.x09; Byte.x0a; Byte.x0b; Byte.x0c; Byte.x0d;
   Byte.x0e; Byte.x0f; Byte.x10; Byte.x11; Byte.x12; Byte.x13; Byte.x14].

End MerkleRange.

(** ** Further download states and notions *)

Module OrchestratorNotions.
Import GoInt PieceGeometry Orchestrator.

(** A completed one-piece download of the second segment of the piece:
    the request is for the bytes [64, 128) of the chunk. *)
Definition pdcSecondSegment : projectDownloadChunk :=
  {| chunkLength := 64; chunkOffset := 64; pricePerMS := 1;
     pieceLength := 64; pieceOffset := 64;
     availablePieces := [[pdCompleted wA 150]];
     workersConsidered := ∅;
     dataPieces := [Some (repeat Byte.x2a 64)];
     workerSet := ws_1_1 0 |}.

(** A read response of hostB for the second piece root of [ws_2_2]. *)
Definition jrrPiece1 (e : option error) : jobReadResponse :=
  {| staticData := repeat Byte.x09 64; staticErr := e;
     staticSectorRoot := [Byte.x02]; jrrWorker := wB |}.

(** The download [pdcInProgress] after hostB has delivered piece 1. *)
Definition pdcBothFetched : projectDownloadChunk :=
  set_availablePieces
    (set_dataPieces pdcInProgress
       (<[1%nat := Some (repeat Byte.x09 64)]> (dataPieces pdcInProgress)))
    [ [pdUnlaunched wC; pdCompleted wA 150];
      [pdCompleted wB 150; pdUnlaunched wD] ].

(** What [handleJobReadResponse] may change in one download entry: the
    worker, the launch flag and the expected completion time stay, and the
    flags [completed] and [failed] are only ever raised. *)
Definition pieceDownloadAdvanced (pd pd' : pieceDownload) : Prop :=
  pdWorker pd' = pdWorker pd /\
  launched pd' = launched pd /\
  expectedCompletionTime pd' = expectedCompletionTime pd /\
  (completed pd = true -> completed pd' = true) /\
  (failed pd = true -> failed pd' = true).

(** The selection points into the pieces: a selected worker sits at
    position [bestPieceIndex] of the download list of one of them. *)
Definition selectionInPieces (pieces : list (list pieceDownload))
    (st : selection) : Prop :=
  forall w, bestResolvedWorker st = Some w ->
    exists piece pd,
      In piece pieces /\
      piece !! Z.to_nat (bestPieceIndex st) = Some pd /\
      pdWorker pd = w.

(** A launch that fails on the spot. *)
Definition launchFails (pdc : projectDownloadChunk)
  : projectDownloadChunk * option error :=
  (pdc, Some (ErrNew "unable to launch a new worker")).

(** The download state after [k] calls of [launchWorker] in a row. *)
Fixpoint afterLaunches
    (launchWorker : projectDownloadChunk -> projectDownloadChunk * option error)
    (k : nat) (pdc : projectDownloadChunk) : projectDownloadChunk :=
  match k with
  | O => pdc
  | S k' => afterLaunches launchWorker k' (fst (launchWorker pdc))
  end.

(** The error of the launch that follows [k] earlier ones. *)
Definition launchError
    (launchWorker : projectDownloadChunk -> projectDownloadChunk * option error)
    (pdc : projectDownloadChunk) (k : nat) : option error :=
  snd (launchWorker (afterLaunches launchWorker k pdc)).

(** A one-piece download of which the host delivered 8 bytes only, while
    16 bytes of the chunk are asked for. *)
Definition pdcShortPiece : projectDownloadChunk :=
  {| chunkLength := 16; chunkOffset := 64; pricePerMS := 1;
     pieceLength := 64; pieceOffset := 64;
     availablePieces := [[pdCompleted wA 150]];
     workersConsidered := ∅;
     dataPieces := [Some (repeat Byte.x2a 8)];
     workerSet := ws_1_1 0 |}.

(** Every download entry of every piece has been launched. *)
Definition allLaunched (pieces : list (list pieceDownload)) : Prop :=
  Forall (Forall (fun pd => launched pd = true)) pieces.

(** Both pieces of a two-piece download are being fetched and no other
    worker is known. *)
Definition pdcAllLaunched : projectDownloadChunk :=
  {| chunkLength := 128; chunkOffset := 0; pricePerMS := 1;
     pieceLength := 64; pieceOffset := 0;
     availablePieces := [ [pdLaunched wA 150]; [pdLaunched wB 150] ];
     workersConsidered := ∅;
     dataPieces := [None; None];
     workerSet := ws_2_2 |}.

End OrchestratorNotions.

(** ** Job times and expected bandwidth *)

Module JobTimes.
Import GoInt Orchestrator HasSectorQueue.

(** The loop of [JobTime.AddToJobTime] from index [i] on, with [n] passes
    left: [jtNew[i] = jt[i] + d]. *)
Fixpoint addToJobTimeLoop (n : nat) (i : nat) (jt jtNew : JobTime)
    (d : Duration) : option JobTime :=
  match n with
  | O => Some jtNew
  | S n' =>
      t ← jt !! i;
      if (length jtNew <=? i)%nat then None
      else addToJobTimeLoop n' (S i) jt (<[i := i64 (t + d)]> jtNew) d
  end.

(** [jt.AddToJobTime(d)]: a fresh slice of the same length, filled by the
    loop; [None] is an index out of range. *)
Definition jtAddToJobTime (jt : JobTime) (d : Duration) : option JobTime :=
  let jtNew := replicate (length jt) 0 in
  addToJobTimeLoop (length jtNew) 0 jt jtNew d.

(** The loop [for i, t := range jt { rtNew.times[i] += t }] of
    [ResolveTime.Add] from index [i] on. *)
Fixpoint addLoop (jt : JobTime) (i : nat) (times : JobTime)
  : option JobTime :=
  match jt with
  | [] => Some times
  | t :: rest =>
      x ← times !! i;
      addLoop rest (S i) (<[i := i64 (x + t)]> times)
  end.

(** [rt.Add(jt)]; on a length mismatch [build.Critical] logs and the
    receiver is returned as it is. *)
Definition rtAdd (rt : ResolveTime) (jt : JobTime) : option ResolveTime :=
  if negb (length (times rt) =? length jt)%nat then Some rt
  else
    times' ← addLoop jt 0 ([] ++ times rt);
    Some {| times := times'; start := start rt |}.

(** [ReadTime]: the resolve time of the job waited for and the durations
    of the read job that depends on it. *)
Record ReadTime := {
  rdResolve : ResolveTime;
  rdTimes : JobTime
}.

(** [rt.ReadTime(jt)]. *)
Definition rtReadTime (rt : ResolveTime) (jt : JobTime) : ReadTime :=
  {| rdResolve := rt; rdTimes := jt |}.

(** [ReadTime.Duration()], with the reading of the clock as an argument;
    [rt.times[i]] panics when the index is out of range. *)
Definition readTimeDuration (now : Time) (rd : ReadTime) : option Duration :=
  '(_, i) ← resolveTimeTime now (rdResolve rd);
  rdTimes rd !! i.

(** A list of durations in non-decreasing order. *)
Definition ascending (jt : JobTime) : Prop :=
  forall (i j : nat) x y,
    (i <= j)%nat -> jt !! i = Some x -> jt !! j = Some y -> x <= y.

(** The order test, as a function. *)
Fixpoint ascendingb (jt : JobTime) : bool :=
  match jt with
  | x :: rest =>
      match rest with
      | y :: _ => (x <=? y) && ascendingb rest
      | [] => true
      end
  | [] => true
  end.

(** *** Expected bandwidth *)

(** The helper [closestMultipleOf] of [hasSectorJobExpectedBandwidth], on
    Go [int]s; [%] is the truncated remainder, and the function is only
    called with the divisors 10 and 15. *)
Definition closestMultipleOf (num multipleOf : Z) : Z :=
  let remainder := Z.rem num multipleOf in
  if negb (remainder =? 0) then i64 (num + i64 (multipleOf - remainder))
  else num.

(** [hasSectorJobExpectedBandwidth numRoots]: the pair [(ul, dl)]. *)
Definition hasSectorJobExpectedBandwidth (numRoots : Z) : Z * Z :=
  let downloadMultiplier := Z.quot (closestMultipleOf numRoots 10) 10 in
  let uploadMultiplier := Z.quot (closestMultipleOf numRoots 15) 15 in
  (u64 (i64 (1500 * uploadMultiplier)),
   u64 (i64 (1500 * downloadMultiplier))).

(** [jobHasSector.callExpectedBandwidth]; the sanity check only logs. *)
Definition jobExpectedBandwidth (j : jobHasSector) : Z * Z :=
  hasSectorJobExpectedBandwidth (Z.of_nat (length (staticSectors j))).

(** The loop of [jobHasSectorBatch.callExpectedBandwidth] that adds up
    the numbers of roots. *)
Fixpoint totalSectorsLoop (batch : jobHasSectorBatch) (totalSectors : Z) : Z :=
  match batch with
  | [] => totalSectors
  | hsj :: rest =>
      totalSectorsLoop rest
        (i64 (totalSectors + Z.of_nat (length (staticSectors hsj))))
  end.

(** [jobHasSectorBatch.callExpectedBandwidth]. *)
Definition batchExpectedBandwidth (batch : jobHasSectorBatch) : Z * Z :=
  hasSectorJobExpectedBandwidth (totalSectorsLoop batch 0).

(** The sum of the expected bandwidths of the jobs taken one by one. *)
Definition sumBandwidth (batch : jobHasSectorBatch) : Z * Z :=
  fold_right (fun j acc =>
                (fst (jobExpectedBandwidth j) + fst acc,
                 snd (jobExpectedBandwidth j) + snd acc))
             (0, 0) batch.

(** A read-time estimate that grows with the delay of the job waited
    for. *)
Definition readEstimates : JobTime := [10; 20; 30; 40; 50; 60; 70].

End JobTimes.

(** ** The range-proof wrappers *)

Module MerkleWrappers.
Import GoInt MerkleRange.

(** [VerifyRangeProof]: the leaf data is wrapped in a reader and the
    error of [VerifyReaderRangeProof] is folded into the result; an
    illegal range panics. *)
Definition VerifyRangeProof (sum : list Byte.byte -> Digest) (fuel : nat)
    (leafData : list Byte.byte) (leafSize : nat) (proofStart proofEnd : Z)
    (proof : list Digest) (root : Digest) : option bool :=
  if illegalRange proofStart proofEnd then None
  else
    '(ok, err) ← VerifyReaderRangeProof sum fuel leafData leafSize
                    proofStart proofEnd proof root;
    Some (ok && bool_decide (err = None)).

End MerkleWrappers.

(** ** Worker pool *)

Module WorkerPool.

(** A [modules.RenterContract], reduced to the host's public key (in the
    string form that keys the maps) and the contract's identifier. *)
Record RenterContract := {
  HostPublicKey : string;
  ID : Z
}.

Definition errWorkerNotAvailable : error :=
  ErrNew "worker is not available in the worker pool".

Section Pool.

(** The workers of the pool; [newWorker] builds the worker of a host at a
    block height, or fails. *)
Context {W : Type}.
Variable newWorker : string -> Z -> error + W.

(** The order in which a [range] statement visits the entries of a map,
    which Go leaves unspecified. *)
Variable rangeContracts :
  gmap string RenterContract -> list (string * RenterContract).
Variable rangeWorkers : gmap string W -> list (string * W).

(** [workerPool]: the map from host key to worker. *)
Record workerPool := {
  workers : gmap string W
}.

(** What [callUpdate] does: the pool afterwards, the hosts whose work
    loop was started and the hosts whose kill channel was closed. *)
Record updateResult := {
  urPool : workerPool;
  urStarted : list string;
  urKilled : list string
}.

(** The loop that fills [contractMap] from the contractor's slice. *)
Definition buildContractMap (contractSlice : list RenterContract)
  : gmap string RenterContract :=
  fold_left (fun m contract => <[HostPublicKey contract := contract]> m)
            contractSlice ∅.

(** The loop that adds a worker for every contract without one. *)
Fixpoint addWorkers (bh : Z) (entries : list (string * RenterContract))
    (ws : gmap string W) (started : list string)
  : gmap string W * list string :=
  match entries with
  | [] => (ws, started)
  | (id, contract) :: rest =>
      match ws !! id with
      | Some _ => addWorkers bh rest ws started
      | None =>
          match newWorker (HostPublicKey contract) bh with
          | inl _ => addWorkers bh rest ws started
          | inr w => addWorkers bh rest (<[id := w]> ws) (started ++ [id])
          end
      end
  end.

(** The loop that removes the workers without contract; [stopped i] tells
    whether the renter's stop channel is closed at pass [i], in which
    case the function returns. *)
Fixpoint removeWorkers (stopped : nat -> bool) (i : nat)
    (entries : list (string * W))
    (contractMap : gmap string RenterContract)
    (ws : gmap string W) (killed : list string)
  : gmap string W * list string :=
  match entries with
  | [] => (ws, killed)
  | (id, _) :: rest =>
      if stopped i then (ws, killed)
      else
        match contractMap !! id with
        | Some _ => removeWorkers stopped (S i) rest contractMap ws killed
        | None =>
            removeWorkers stopped (S i) rest contractMap
              (delete id ws) (killed ++ [id])
        end
  end.

(** [callUpdate], given the contracts of the contractor and the block
    height of the renter. *)
Definition callUpdate (wp : workerPool) (contractSlice : list RenterContract)
    (bh : Z) (stopped : nat -> bool) : updateResult :=
  let contractMap := buildContractMap contractSlice in
  let '(ws1, started) :=
    addWorkers bh (rangeContracts contractMap) (workers wp) [] in
  let '(ws2, killed) :=
    removeWorkers stopped 0 (rangeWorkers ws1) contractMap ws1 [] in
  {| urPool := {| workers := ws2 |};
     urStarted := started; urKilled := killed |}.

(** [callWorker]. *)
Definition callWorker (wp : workerPool) (hostPubKey : string) : error + W :=
  match workers wp !! hostPubKey with
  | Some worker => inr worker
  | None => inl errWorkerNotAvailable
  end.

(** [newWorkerPool]: an empty pool, updated once. *)
Definition newWorkerPool (contractSlice : list RenterContract) (bh : Z)
    (stopped : nat -> bool) : updateResult :=
  callUpdate {| workers := ∅ |} contractSlice bh stopped.

(** The worker [callUpdate] leaves for the host [id] when it runs to its
    end: none without a contract, the old worker when there is one, and
    otherwise a new one if it can be built. *)
Definition expectedWorker (wp : workerPool)
    (contractMap : gmap string RenterContract) (bh : Z) (id : string)
  : option W :=
  contract ← contractMap !! id;
  match workers wp !! id with
  | Some w => Some w
  | None =>
      match newWorker (HostPublicKey contract) bh with
      | inl _ => None
      | inr w => Some w
      end
  end.

End Pool.

(** A renter that is never stopped. *)
Definition neverStopped (i : nat) : bool := false.

(** A pool to run: workers are named by host and block height; the host
    "bad" cannot be reached. *)
Definition toyNewWorker (host : string) (bh : Z) : error + (string * Z) :=
  if String.eqb host "bad" then inl (ErrNew "host unreachable")
  else inr (host, bh).

Definition toyContracts : list RenterContract :=
  [ {| HostPublicKey := "hostA"; ID := 1 |};
    {| HostPublicKey := "bad"; ID := 2 |};
    {| HostPublicKey := "hostB"; ID := 3 |} ].

Definition toyPool : workerPool (W := string * Z) :=
  {| workers := {[ "hostA" := ("hostA", 5); "hostC" := ("hostC", 5) ]} |}.

End WorkerPool.

(** * Properties *)

Module GoIntFacts.
Import GoInt.

Lemma u64_small z : 0 <= z < two64 -> u64 z = z.
Proof. intros H. unfold u64. apply Z.mod_small. exact H. Qed.

Lemma u64_range z : 0 <= u64 z < two64.
Proof. unfold u64, two64. apply Z.mod_pos_bound. lia. Qed.

Lemma i64_small z : MinInt64 <= z <= MaxInt64 -> i64 z = z.
Proof.
  unfold i64, MinInt64, MaxInt64, two64. intros H.
  rewrite Z.mod_small; lia.
Qed.

End GoIntFacts.

Module PieceGeometryFacts.
Import GoInt GoIntFacts PieceGeometry.


(** C4 — the pair returned by [getPieceOffsetAndLen] should be segment
    aligned and cover the request.  For the 10-of-30 coder with 64-byte
    segments and the in-chunk request (offset 0, length 1280) the code
    returns the pair (0, 20): the length is the number of *segments times
    data pieces*, because the termination offset is divided by the segment
    size instead of by the number of data pieces.  20 is not a multiple of
    64, and 20 bytes of each of the 10 pieces cover only 200 of the 1280
    requested bytes. *)
Theorem getPieceOffsetAndLen_length_divergence :
  getPieceOffsetAndLen ec_10_30 0 1280 = Some (0, 20) /\
  20 mod pieceSegmentSizeOf ec_10_30 <> 0 /\
  (0 + 20) * MinPieces ec_10_30 < 0 + 1280.
Proof.
  split; [vm_compute; reflexivity|].
  split; [vm_compute; discriminate|].
  vm_compute; reflexivity.
Qed.

End PieceGeometryFacts.

Module OrchestratorFacts.
Import GoInt GoIntFacts PieceGeometry Orchestrator.

(** *** findBestWorker *)

(** C2 — findBestWorker should never hand out a piece that is already
    completed.  In the download [pdcInProgress] piece 0 has a completed
    download (by hostA), yet the call returns worker hostC with piece
    index 0: the flag [pieceCompleted] is never set from the downloads, so
    the skip is never taken. *)
Theorem findBestWorker_returns_completed_piece :
  (exists piece0,
      availablePieces pdcInProgress !! 0%nat = Some piece0 /\
      existsb completed piece0 = true) /\
  findBestWorker 200 pdcInProgress =
    Some {| fbwWorker := Some wC; fbwPieceIndex := 0; fbwSleep := 0;
            fbwWake := false; fbwErr := None |}.
Proof.
  split.
  - eexists. split; [reflexivity|]. reflexivity.
  - vm_compute. reflexivity.
Qed.

(** The first inner loop of the selection never reports a completed piece,
    whatever the downloads of the piece are. *)
Lemma selectionFlags_never_completed now piece a l :
  fst (fst (selectionFlags now piece false a l)) = false.
Proof.
  revert a l. induction piece as [|pd rest IH]; intros a l; simpl.
  - reflexivity.
  - apply IH.
Qed.

(** *** finalize *)

(** C3 — finalize should ask the coder for
    [pieceOffset * dataPieces + pieceLength * dataPieces] decoded bytes
    and deliver the requested range of them.  For the completed
    one-piece download [pdcDone] (piece offset 0, piece length 64, one
    data piece) that count is 64; the code asks for 0 bytes, because the
    chunk download length is computed from the piece offset, and slicing
    the empty buffer to [0, 64) fails instead of delivering the 64
    bytes. *)
Theorem finalize_recover_length_divergence :
  fst (finished pdcDone) = true /\
  pieceOffset pdcDone * MinPieces ec_1_1
    + pieceLength pdcDone * MinPieces ec_1_1 = 64 /\
  finalizeRecoverLen pdcDone = 0 /\
  finalize pdcDone = None.
Proof. repeat split; vm_compute; reflexivity. Qed.

(** In general the count handed to [Recover] is twice the chunk download
    offset. *)
Lemma finalizeRecoverLen_eq pdc :
  finalizeRecoverLen pdc =
    u64 (2 * u64 (pieceOffset pdc
                  * u64 (MinPieces (staticErasureCoder (workerSet pdc))))).
Proof. unfold finalizeRecoverLen. f_equal. lia. Qed.

(** *** finished *)

Lemma finishedPiece_spec piece h :
  finishedPiece piece h =
    (hasCompleted piece || h || hasUnfailed piece, hasCompleted piece).
Proof.
  revert h. induction piece as [|pd rest IH]; intros h; simpl.
  - now rewrite orb_false_r.
  - destruct (completed pd) eqn:Ec; simpl; [reflexivity|].
    rewrite IH. unfold hasCompleted, hasUnfailed.
    destruct (failed pd), h, (existsb completed rest),
      (existsb (fun pd0 => negb (failed pd0)) rest); reflexivity.
Qed.

Lemma finishedCount_spec pieces c h :
  finishedCount pieces c h =
    (c + Z.of_nat (length (List.filter hasCompleted pieces)),
     h + Z.of_nat (length (List.filter
                     (fun p => hasCompleted p || hasUnfailed p) pieces))).
Proof.
  revert c h. induction pieces as [|piece rest IH]; intros c h; simpl.
  - f_equal; lia.
  - rewrite finishedPiece_spec. rewrite orb_false_r. rewrite IH.
    destruct (hasCompleted piece), (hasUnfailed piece); simpl;
      f_equal; lia.
Qed.

Lemma filter_orb_length {A} (p q : A -> bool) (l : list A) :
  (length (List.filter (fun x => p x || q x) l)
   <= length (List.filter p l) + length (List.filter q l))%nat.
Proof.
  induction l as [|x l IH]; simpl; [lia|].
  destruct (p x), (q x); simpl; lia.
Qed.

Lemma filter_split_length {A} (p q : A -> bool) (l : list A) :
  length (List.filter (fun x => p x || q x) l)
  = (length (List.filter p l)
     + length (List.filter (fun x => negb (p x) && q x) l))%nat.
Proof.
  induction l as [|x l IH]; simpl; [reflexivity|].
  destruct (p x), (q x); simpl; lia.
Qed.

(** C5 — progress check: in every chunk-download state, either the pieces
    with a completed download, the pieces without one that still have a
    download that has not failed, and the unresolved workers together
    reach the number of data pieces, or [finished] returns the
    not-enough-pieces error and the collection loop sends that failure
    down the response channel.  The two cases exclude each other: when the
    count reaches the number of data pieces, [finished] returns no
    error. *)
Theorem finished_progress_or_failure (pdc : projectDownloadChunk) :
  (completedCount pdc + pendingCount pdc
     + Z.of_nat (length (unresolvedWorkers (workerSet pdc)))
     >= MinPieces (staticErasureCoder (workerSet pdc))
   \/ (finished pdc = (false, Some errNotEnoughPieces) /\
       collectLoopHead pdc = Emit (fail errNotEnoughPieces)))
  /\
  (completedCount pdc + pendingCount pdc
     + Z.of_nat (length (unresolvedWorkers (workerSet pdc)))
     >= MinPieces (staticErasureCoder (workerSet pdc))
   -> snd (finished pdc) = None).
Proof.
  set (m := MinPieces (staticErasureCoder (workerSet pdc))).
  set (u := Z.of_nat (length (unresolvedWorkers (workerSet pdc)))).
  assert (Hf : finished pdc =
    if completedCount pdc >=? m then (true, None)
    else if completedCount pdc + pendingCount pdc + u <? m
         then (false, Some errNotEnoughPieces) else (false, None)).
  { unfold finished. rewrite finishedCount_spec. fold m. fold u.
    rewrite filter_split_length, Nat2Z.inj_add.
    unfold completedCount, pendingCount, countPieces.
    rewrite !Z.add_0_l. reflexivity. }
  assert (Hp : 0 <= pendingCount pdc)
    by (unfold pendingCount, countPieces; lia).
  assert (Hu : 0 <= u) by (unfold u; lia).
  split.
  - destruct (Z_lt_ge_dec (completedCount pdc + pendingCount pdc + u) m)
      as [Hlt|Hge]; [right|left; exact Hge].
    assert (Hf' : finished pdc = (false, Some errNotEnoughPieces)).
    { rewrite Hf.
      destruct (Z.geb_spec (completedCount pdc) m); [lia|].
      destruct (Z.ltb_spec (completedCount pdc + pendingCount pdc + u) m);
        [reflexivity|lia]. }
    split; [exact Hf'|]. unfold collectLoopHead. rewrite Hf'. reflexivity.
  - intros Hge. rewrite Hf.
    destruct (completedCount pdc >=? m); [reflexivity|].
    destruct (Z.ltb_spec (completedCount pdc + pendingCount pdc + u) m);
      [lia|reflexivity].
Qed.

Lemma finished_progress_or_failure_witness :
  completedCount pdcStuck + pendingCount pdcStuck
    + Z.of_nat (length (unresolvedWorkers (workerSet pdcStuck))) = 1 /\
  MinPieces (staticErasureCoder (workerSet pdcStuck)) = 2 /\
  finished pdcStuck = (false, Some errNotEnoughPieces) /\
  collectLoopHead pdcStuck = Emit (fail errNotEnoughPieces).
Proof.
  split; [reflexivity|]. split; [reflexivity|].
  destruct (finished_progress_or_failure pdcStuck) as [[Hge|Hfail] _].
  - exfalso. apply Hge. vm_compute. reflexivity.
  - exact Hfail.
Defined.

(** The failure branch is taken by the download [pdcStuck]: one piece of the
    two needed is completed, the other has failed for good. *)
Example finished_pdcStuck :
  finished pdcStuck = (false, Some errNotEnoughPieces) /\
  collectLoopHead pdcStuck = Emit (fail errNotEnoughPieces).
Proof. split; vm_compute; reflexivity. Qed.

(** *** needsOverdrive *)

Lemma overdrivePiece_spec piece lwf latest :
  overdrivePiece piece lwf latest =
    (lwf || existsb isLaunchedWithoutFail piece,
     fold_right Z.max latest
       (map expectedCompletionTime (List.filter isOutstanding piece))).
Proof.
  revert lwf latest. induction piece as [|pd rest IH]; intros lwf latest; simpl.
  - now rewrite orb_false_r.
  - unfold isLaunchedWithoutFail at 1, isOutstanding at 1.
    destruct (launched pd && negb (failed pd)) eqn:E; simpl.
    + rewrite IH. rewrite orb_true_r. f_equal.
      unfold timeBefore.
      destruct (completed pd); simpl; [reflexivity|].
      set (l := map expectedCompletionTime (List.filter isOutstanding rest)).
      assert (Hmax : forall a b, fold_right Z.max (Z.max a b) l
                                 = Z.max a (fold_right Z.max b l)).
      { intros a b. induction l as [|x l IHl]; simpl; [reflexivity|].
        rewrite IHl. lia. }
      destruct (latest <? expectedCompletionTime pd) eqn:Elt.
      * apply Z.ltb_lt in Elt.
        replace (expectedCompletionTime pd)
          with (Z.max (expectedCompletionTime pd) latest) at 1 by lia.
        apply Hmax.
      * apply Z.ltb_ge in Elt.
        replace latest
          with (Z.max (expectedCompletionTime pd) latest) at 1 by lia.
        apply Hmax.
    + rewrite IH. reflexivity.
Qed.

Lemma overdriveScan_spec pieces n latest :
  overdriveScan pieces n latest =
    (n + Z.of_nat (length (List.filter (existsb isLaunchedWithoutFail) pieces)),
     fold_right Z.max latest
       (map expectedCompletionTime (List.filter isOutstanding (concat pieces)))).
Proof.
  revert n latest. induction pieces as [|piece rest IH]; intros n latest; simpl.
  - f_equal. lia.
  - rewrite overdrivePiece_spec. simpl. rewrite IH.
    rewrite List.filter_app, map_app, fold_right_app.
    assert (Hcomm : forall (l1 l2 : list Z) a,
               fold_right Z.max (fold_right Z.max a l1) l2
               = fold_right Z.max (fold_right Z.max a l2) l1).
    { intros l1 l2 a. induction l2 as [|x l2 IHl2]; simpl; [reflexivity|].
      rewrite IHl2. clear IHl2.
      induction l1 as [|y l1 IHl1]; simpl; [reflexivity|].
      rewrite <- IHl1. lia. }
    rewrite Hcomm.
    destruct (existsb isLaunchedWithoutFail piece); simpl; f_equal; lia.
Qed.

(** C6 — [needsOverdrive] returns [(0, true)] when fewer than the data
    pieces have a launched download that has not failed, [(0, true)] when
    the latest expected completion time among the launched, not failed,
    not completed downloads is not after the current time, and otherwise
    the time until that latest completion plus 50 ms, with [false]. *)
Theorem needsOverdrive_spec (now : Time) (pdc : projectDownloadChunk) :
  needsOverdrive now pdc =
    if launchedWithoutFailCount pdc
         <? MinPieces (staticErasureCoder (workerSet pdc))
    then (0, true)
    else if latestOutstanding pdc <=? now then (0, true)
    else (i64 (timeUntil now (latestOutstanding pdc) + 50 * Millisecond),
          false).
Proof.
  unfold needsOverdrive. rewrite overdriveScan_spec. simpl.
  fold (latestOutstanding pdc).
  unfold launchedWithoutFailCount, countPieces.
  destruct (_ <? _); [reflexivity|].
  assert (Hsign : (timeUntil now (latestOutstanding pdc) <=? 0)
                  = (latestOutstanding pdc <=? now)).
  { unfold timeUntil, timeSub, MinInt64, MaxInt64.
    destruct (latestOutstanding pdc <=? now) eqn:E.
    - apply Z.leb_le in E. apply Z.leb_le. lia.
    - apply Z.leb_gt in E. apply Z.leb_gt. lia. }
  rewrite Hsign. destruct (_ <=? _); [reflexivity|].
  rewrite (Z.mul_comm Millisecond). reflexivity.
Qed.

(** The latest outstanding completion time is an upper bound of the
    outstanding downloads and, when there is one at or after the zero
    time, it is the completion time of one of them. *)
Lemma latestOutstanding_upper pdc piece pd :
  In piece (availablePieces pdc) -> In pd piece ->
  isOutstanding pd = true ->
  expectedCompletionTime pd <= latestOutstanding pdc.
Proof.
  intros Hp Hpd Ho. unfold latestOutstanding.
  assert (Hin : In (expectedCompletionTime pd)
              (map expectedCompletionTime
                 (List.filter isOutstanding (concat (availablePieces pdc))))).
  { apply in_map. apply filter_In. split; [|exact Ho].
    apply in_concat. exists piece. split; assumption. }
  revert Hin. generalize (map expectedCompletionTime
    (List.filter isOutstanding (concat (availablePieces pdc)))).
  intros l. induction l as [|x l IH]; simpl; [tauto|].
  intros [->|Hin]; [lia|]. specialize (IH Hin). lia.
Qed.

(** Without overflow the wait is the plain sum. *)
Lemma needsOverdrive_wait_plain now pdc :
  MinPieces (staticErasureCoder (workerSet pdc))
    <= launchedWithoutFailCount pdc ->
  now < latestOutstanding pdc ->
  latestOutstanding pdc - now <= MaxInt64 - 50 * Millisecond ->
  needsOverdrive now pdc
    = (latestOutstanding pdc - now + 50 * Millisecond, false).
Proof.
  intros Hn Hlt Hb. rewrite needsOverdrive_spec.
  destruct (_ <? _) eqn:E1; [apply Z.ltb_lt in E1; lia|].
  destruct (_ <=? _) eqn:E2; [apply Z.leb_le in E2; lia|].
  f_equal. unfold timeUntil, timeSub.
  unfold MaxInt64, MinInt64, Millisecond in *.
  rewrite i64_small; unfold MaxInt64, MinInt64; lia.
Qed.


(** *** managedDownload *)

Lemma launchInitial_err launchWorker n pdc calls :
  mdErr (launchInitial launchWorker n pdc calls) <> Some errEncryptionOverhead
  /\ mdBuilt (launchInitial launchWorker n pdc calls) = true.
Proof.
  revert pdc calls. induction n as [|n IH]; intros pdc calls; simpl.
  - split; [discriminate|reflexivity].
  - destruct (launchWorker pdc) as [pdc' [e|]]; simpl.
    + split; [discriminate|reflexivity].
    + apply IH.
Qed.

(** C7 — with a cipher of non-zero overhead, [managedDownload] returns the
    encryption-overhead error, builds no download state and launches no
    worker, unless the request is the whole chunk (offset 0, length
    sector size times data pieces); with zero overhead (or for the whole
    chunk) the call is never rejected with that error and goes on to build
    the download state. *)
Theorem managedDownload_overhead_guard
    (launchWorker : projectDownloadChunk -> projectDownloadChunk * option error)
    (pcws : projectChunkWorkerSet) (price offset length : Z) :
  let wholeChunk :=
    offset = 0 /\
    length = u64 (SectorSize * u64 (MinPieces (staticErasureCoder pcws))) in
  (staticMasterKeyOverhead pcws <> 0 -> ~ wholeChunk ->
   managedDownload launchWorker pcws price offset length =
     Some {| mdChan := None; mdErr := Some errEncryptionOverhead;
             mdBuilt := false; mdLaunchCalls := 0 |})
  /\
  (staticMasterKeyOverhead pcws = 0 \/ wholeChunk ->
   forall r, managedDownload launchWorker pcws price offset length = Some r ->
             mdErr r <> Some errEncryptionOverhead /\ mdBuilt r = true).
Proof.
  intros wholeChunk. unfold managedDownload. split.
  - intros Hov Hnot.
    destruct (staticMasterKeyOverhead pcws =? 0) eqn:E0;
      [apply Z.eqb_eq in E0; contradiction|]. simpl.
    destruct (offset =? 0) eqn:E1; simpl; [|reflexivity].
    destruct (length =? _) eqn:E2; simpl; [|reflexivity].
    exfalso. apply Hnot. split; [apply Z.eqb_eq, E1|apply Z.eqb_eq, E2].
  - intros Hok r.
    assert (Hguard :
      negb (staticMasterKeyOverhead pcws =? 0)
      && (negb (offset =? 0)
          || negb (length =? u64 (SectorSize
                     * u64 (MinPieces (staticErasureCoder pcws))))) = false).
    { destruct Hok as [H0|[H1 H2]].
      - rewrite H0. reflexivity.
      - rewrite H1, <- H2, !Z.eqb_refl. simpl. apply andb_false_r. }
    rewrite Hguard.
    destruct (getPieceOffsetAndLen _ offset length) as [[po pl]|];
      simpl; [|discriminate].
    destruct (NumPieces _ <? 0); [discriminate|].
    intros [= <-]. apply launchInitial_err.
Qed.

Lemma managedDownload_overhead_guard_witness :
  managedDownload launchNoop (ws_1_1 3) 1 5 10 =
    Some {| mdChan := None; mdErr := Some errEncryptionOverhead;
            mdBuilt := false; mdLaunchCalls := 0 |}
  /\ (forall r, managedDownload launchNoop (ws_1_1 0) 1 5 10 = Some r ->
                mdErr r <> Some errEncryptionOverhead /\ mdBuilt r = true).
Proof.
  split.
  - apply (managedDownload_overhead_guard launchNoop (ws_1_1 3) 1 5 10).
    + simpl. lia.
    + simpl. intros [H _]. lia.
  - apply (managedDownload_overhead_guard launchNoop (ws_1_1 0) 1 5 10).
    left. reflexivity.
Defined.

(** *** handleJobReadResponse *)

Lemma findPieceIndex_unmatched roots root i :
  ~ In root roots -> findPieceIndex roots root i = 0%nat.
Proof.
  revert i. induction roots as [|r rest IH]; intros i Hnin; simpl.
  - reflexivity.
  - destruct (decide (root = r)) as [->|Hne].
    + exfalso. apply Hnin. left. reflexivity.
    + apply IH. intros Hin. apply Hnin. right. exact Hin.
Qed.

(** [markWorker] rewrites exactly the entries of the given host. *)
Lemma markWorker_lookup f key (piece : list pieceDownload) (i : nat) pd :
  piece !! i = Some pd ->
  markWorker f key piece !! i =
    Some (if String.eqb (staticHostPubKeyStr (pdWorker pd)) key
          then f pd else pd).
Proof.
  intros H. unfold markWorker. rewrite list_lookup_fmap, H. reflexivity.
Qed.

(** C10 — a read response whose sector root is none of the piece roots is
    attributed to piece 0 and not discarded.  Every download entry of the
    responding worker in piece 0 has its [failed] flag set when the
    response carries an error, and otherwise the data is stored as piece 0
    and every such entry has its [completed] flag set; the other fields of
    these entries, the entries of other workers and every other piece are
    left as they were. *)
Theorem handleJobReadResponse_unmatched_root
    (pdc : projectDownloadChunk) (jrr : jobReadResponse)
    (piece0 : list pieceDownload) (d0 : option (list Byte.byte)) :
  ~ In (staticSectorRoot jrr) (staticPieceRoots (workerSet pdc)) ->
  availablePieces pdc !! 0%nat = Some piece0 ->
  dataPieces pdc !! 0%nat = Some d0 ->
  exists pdc' piece0',
    handleJobReadResponse pdc (Some jrr) = Some pdc' /\
    availablePieces pdc' !! 0%nat = Some piece0' /\
    (forall k, k <> 0%nat ->
               availablePieces pdc' !! k = availablePieces pdc !! k) /\
    length piece0' = length piece0 /\
    (forall (i : nat) pd,
        piece0 !! i = Some pd ->
        (staticHostPubKeyStr (pdWorker pd)
           = staticHostPubKeyStr (jrrWorker jrr) ->
         piece0' !! i =
           Some {| completed := match staticErr jrr with
                                | Some _ => completed pd
                                | None => true
                                end;
                   failed := match staticErr jrr with
                             | Some _ => true
                             | None => failed pd
                             end;
                   launched := launched pd;
                   expectedCompletionTime := expectedCompletionTime pd;
                   pdWorker := pdWorker pd |}) /\
        (staticHostPubKeyStr (pdWorker pd)
           <> staticHostPubKeyStr (jrrWorker jrr) ->
         piece0' !! i = Some pd)) /\
    match staticErr jrr with
    | Some _ => dataPieces pdc' = dataPieces pdc
    | None =>
        dataPieces pdc' !! 0%nat = Some (Some (staticData jrr)) /\
        (forall k, k <> 0%nat -> dataPieces pdc' !! k = dataPieces pdc !! k)
    end.
Proof.
  intros Hnin Hap Hdp. unfold handleJobReadResponse.
  rewrite (findPieceIndex_unmatched _ _ 0 Hnin).
  assert (Hlen : (0 < length (availablePieces pdc))%nat)
    by (apply lookup_lt_Some in Hap; exact Hap).
  assert (Hlen' : (0 < length (dataPieces pdc))%nat)
    by (apply lookup_lt_Some in Hdp; exact Hdp).
  assert (Hentry : forall f (i : nat) pd,
    piece0 !! i = Some pd ->
    (staticHostPubKeyStr (pdWorker pd)
       = staticHostPubKeyStr (jrrWorker jrr) ->
     markWorker f (staticHostPubKeyStr (jrrWorker jrr)) piece0 !! i
       = Some (f pd)) /\
    (staticHostPubKeyStr (pdWorker pd)
       <> staticHostPubKeyStr (jrrWorker jrr) ->
     markWorker f (staticHostPubKeyStr (jrrWorker jrr)) piece0 !! i
       = Some pd)).
  { intros f i pd Hi. rewrite (markWorker_lookup f _ piece0 i pd Hi).
    destruct (String.eqb_spec (staticHostPubKeyStr (pdWorker pd))
                (staticHostPubKeyStr (jrrWorker jrr)));
      split; intros; congruence. }
  destruct (staticErr jrr) as [e|].
  - rewrite Hap. simpl.
    eexists _, _. split; [reflexivity|]. simpl.
    split; [apply list_lookup_insert_eq; exact Hlen|].
    split; [intros k Hk; apply list_lookup_insert_ne; congruence|].
    split; [unfold markWorker; apply length_map|].
    split; [|reflexivity].
    intros i pd Hi. apply (Hentry set_failed i pd Hi).
  - rewrite Hdp. simpl. rewrite Hap. simpl.
    eexists _, _. split; [reflexivity|]. simpl.
    split; [apply list_lookup_insert_eq; exact Hlen|].
    split; [intros k Hk; apply list_lookup_insert_ne; congruence|].
    split; [unfold markWorker; apply length_map|].
    split; [intros i pd Hi; apply (Hentry set_completed i pd Hi)|].
    split; [apply list_lookup_insert_eq; exact Hlen'|].
    intros k Hk. apply list_lookup_insert_ne. congruence.
Qed.

Lemma handleJobReadResponse_unmatched_root_witness :
  exists pdc' piece0',
    handleJobReadResponse pdcInProgress (Some (jrrStray None)) = Some pdc' /\
    availablePieces pdc' !! 0%nat = Some piece0' /\
    availablePieces pdc' !! 1%nat = availablePieces pdcInProgress !! 1%nat /\
    length piece0' = 2%nat /\
    piece0' !! 0%nat =
      Some {| completed := true; failed := false; launched := false;
              expectedCompletionTime := zeroTime; pdWorker := wC |} /\
    piece0' !! 1%nat = Some (pdCompleted wA 150) /\
    dataPieces pdc' !! 0%nat = Some (Some (repeat Byte.x07 64)) /\
    dataPieces pdc' !! 1%nat = dataPieces pdcInProgress !! 1%nat.
Proof.
  destruct (handleJobReadResponse_unmatched_root pdcInProgress
              (jrrStray None) [pdUnlaunched wC; pdCompleted wA 150]
              (Some (repeat Byte.x00 64)))
    as (pdc' & piece0' & Hh & H0 & Hk & Hlen & Hent & Hd0 & Hdk).
  - simpl. intros [H|[H|[]]]; discriminate H.
  - reflexivity.
  - reflexivity.
  - exists pdc', piece0'.
    split; [exact Hh|]. split; [exact H0|].
    split; [apply Hk; discriminate|]. split; [exact Hlen|].
    split; [apply (Hent 0%nat (pdUnlaunched wC) eq_refl); reflexivity|].
    split; [apply (Hent 1%nat (pdCompleted wA 150) eq_refl); discriminate|].
    split; [exact Hd0|]. apply Hdk. discriminate.
Defined.


End OrchestratorFacts.

Module HasSectorQueueFacts.
Import GoInt GoIntFacts Orchestrator HasSectorQueue.

(** *** callAddWithEstimate *)

(** C8 (as stated) — fails on a queue that is on cool-down: the largest
    percentile 7 is within the bound 100, yet the job is not enqueued and
    no distribution is returned; the call reports that the job could not
    be added. *)
Lemma callAddWithEstimate_cooldown_counterexample :
  jtMax (expectedJobTime jqCooling) = Some 7 /\
  7 <= 100 /\
  callAddWithEstimate 10 jqCooling (mkJob 5 []) 100 =
    Some (zeroResolveTime, Some errUnableToAdd, jqCooling) /\
  ~ (exists jq',
       callAddWithEstimate 10 jqCooling (mkJob 5 []) 100 =
         Some (jtResolveTime (expectedJobTime jqCooling) 10, None, jq')).
Proof.
  split; [reflexivity|]. split; [lia|]. split; [reflexivity|].
  intros [jq' H]. vm_compute in H. discriminate H.
Qed.

(** C8 (amended) — when the largest percentile of the queue's expected
    job time exceeds the bound, [callAddWithEstimate] returns
    [errEstimateAboveMax] and leaves the queue unchanged.  Otherwise, if
    the queue is killed or on cool-down, it returns the unable-to-add
    error and leaves the queue unchanged; else it appends the job, stamped
    with the current time, to the queue and returns the distribution
    wrapped with that start time. *)
Theorem callAddWithEstimate_spec
    (now : Time) (jq : jobHasSectorQueue) (j : jobHasSector)
    (maxEstimate m : Duration) :
  jtMax (expectedJobTime jq) = Some m ->
  callAddWithEstimate now jq j maxEstimate =
    Some (if maxEstimate <? m then
            (zeroResolveTime, Some errEstimateAboveMax, jq)
          else if killed (generic jq) || onCooldown now (generic jq) then
            (zeroResolveTime, Some errUnableToAdd, jq)
          else
            ({| start := now; times := expectedJobTime jq |}, None,
             set_generic jq
               {| jobs := jobs (generic jq)
                            ++ [set_externJobStartTime j now];
                  killed := killed (generic jq);
                  cooldownUntil := cooldownUntil (generic jq) |})).
Proof.
  intros Hm. unfold callAddWithEstimate. rewrite Hm. simpl.
  destruct (maxEstimate <? m); [reflexivity|].
  unfold genericAdd.
  destruct (killed (generic jq) || onCooldown now (generic jq));
    reflexivity.
Qed.

Lemma callAddWithEstimate_spec_witness :
  callAddWithEstimate 10 jqReady (mkJob 5 []) 100 =
    Some ({| start := 10; times := estimates |}, None,
          set_generic jqReady
            {| jobs := [mkJob 1 [[Byte.x01]];
                        set_externJobStartTime (mkJob 5 []) 10];
               killed := false; cooldownUntil := zeroTime |}).
Proof.
  apply (callAddWithEstimate_spec 10 jqReady (mkJob 5 []) 100 7).
  reflexivity.
Defined.

(** The index [ResolveTime.time] settles on is the first whose duration
    is still ahead of the time passed. *)
Lemma firstAhead_first passed ds i d k :
  firstAhead passed ds i = Some (d, k) ->
  exists n, k = (i + n)%nat /\ ds !! n = Some d /\ passed < d /\
            forall n' d', (n' < n)%nat -> ds !! n' = Some d' -> d' <= passed.
Proof.
  revert i. induction ds as [|x rest IH]; intros i; simpl; [discriminate|].
  destruct (passed <? x) eqn:E.
  - intros [= <- <-]. exists 0%nat. apply Z.ltb_lt in E.
    repeat split; [lia|exact E|]. intros n' d' Hn'. lia.
  - intros H. apply IH in H. destruct H as (n & -> & Hn & Hlt & Hbefore).
    exists (S n). repeat split; [lia|exact Hn|exact Hlt|].
    intros [|n'] d' Hn'; simpl.
    + intros [= <-]. apply Z.ltb_ge in E. exact E.
    + apply Hbefore. lia.
Qed.

(** *** callNext *)

Lemma popNext_live js :
  match popNext js with
  | (None, rest) => live js = [] /\ rest = []
  | (Some j, rest) => live js = j :: live rest
  end.
Proof.
  unfold live. induction js as [|j rest IH]; simpl; [split; reflexivity|].
  destruct (jobCanceled j); simpl.
  - exact IH.
  - reflexivity.
Qed.



(** *** managedHasSector *)

Lemma isAvailable_cons resp b out :
  respOutput resp = b :: out -> isAvailable resp = bool_decide (b = Byte.x01).
Proof. intros H. unfold isAvailable. rewrite H. reflexivity. Qed.


Lemma parseResponses_good responses acc :
  Forall goodResponse responses ->
  parseResponses responses acc = Some (inr (acc ++ map isAvailable responses)).
Proof.
  intros Hall. revert acc.
  induction Hall as [|r rest [Hr1 Hr2] _ IH]; intros acc; simpl.
  - rewrite app_nil_r. reflexivity.
  - rewrite Hr1.
    destruct (respOutput r) as [|b out] eqn:Eo; [contradiction|].
    rewrite IH, <- app_assoc, (isAvailable_cons r b out Eo). reflexivity.
Qed.












End HasSectorQueueFacts.

Module MerkleRangeFacts.
Import GoInt GoIntFacts MerkleRange.

Ltac Zify.zify_post_hook ::= Z.div_mod_to_equations.

Lemma pow2_pos_nat (i : nat) : (0 < 2 ^ i)%nat.
Proof. lia. Qed.

Lemma pow2_succ_nat (i : nat) : (2 ^ S i = 2 * 2 ^ i)%nat.
Proof. apply Nat.pow_succ_r'. Qed.

Lemma div_pow2_succ (p i : nat) : (p / 2 ^ S i = p / 2 ^ i / 2)%nat.
Proof. rewrite pow2_succ_nat, Nat.mul_comm, Nat.Div0.div_div. reflexivity. Qed.

Lemma pow2_lt_64 (i : nat) : (i < 64)%nat -> 2 ^ Z.of_nat i < 2 ^ 64.
Proof. intros H. apply Z.pow_lt_mono_r; lia. Qed.

Lemma shl1_u64_small (i : nat) : (i < 64)%nat -> shl1_u64 i = 2 ^ Z.of_nat i.
Proof.
  intros H. unfold shl1_u64. rewrite Z.shiftl_1_l.
  apply u64_small. unfold two64. pose proof (pow2_lt_64 i H). lia.
Qed.

Lemma land_pow2 (u : Z) (i : Z) :
  0 <= i -> Z.land u (2 ^ i) = if Z.testbit u i then 2 ^ i else 0.
Proof.
  intros Hi. apply Z.bits_inj'. intros j Hj.
  rewrite Z.land_spec, Z.pow2_bits_eqb by lia.
  destruct (Z.eqb_spec i j) as [->|Hne].
  - rewrite andb_true_r. destruct (Z.testbit u j) eqn:E.
    + rewrite Z.pow2_bits_true by lia. reflexivity.
    + rewrite Z.bits_0. reflexivity.
  - rewrite andb_false_r. destruct (Z.testbit u i).
    + rewrite Z.pow2_bits_false by lia. reflexivity.
    + rewrite Z.bits_0. reflexivity.
Qed.

Lemma testbit_of_nat (p i : nat) :
  Z.testbit (Z.of_nat p) (Z.of_nat i) = bitAt p i.
Proof.
  unfold bitAt. rewrite Z.testbit_eqb by lia.
  assert (H : Z.modulo (Z.of_nat p / 2 ^ Z.of_nat i) 2
              = Z.of_nat ((p / 2 ^ i) mod 2)).
  { rewrite Nat2Z.inj_mod, Nat2Z.inj_div, Nat2Z.inj_pow. reflexivity. }
  rewrite H.
  destruct (Nat.eqb_spec ((p / 2 ^ i) mod 2) 1) as [E|E].
  - rewrite E. reflexivity.
  - apply Z.eqb_neq. lia.
Qed.

Lemma land_pow2_eqb (p i : nat) :
  (Z.land (Z.of_nat p) (2 ^ Z.of_nat i) =? 0) = negb (bitAt p i).
Proof.
  rewrite land_pow2 by lia. rewrite testbit_of_nat.
  destruct (bitAt p i); simpl; [|reflexivity].
  apply Z.eqb_neq. assert (0 < 2 ^ Z.of_nat i) by (apply Z.pow_pos_nonneg; lia).
  lia.
Qed.

Lemma div_pow2_ge (x i i' : nat) :
  (i <= i')%nat -> (x / 2 ^ i' = x / 2 ^ i / 2 ^ (i' - i))%nat.
Proof.
  intros H. replace i' with (i + (i' - i))%nat at 1 by lia.
  rewrite Nat.pow_add_r, Nat.Div0.div_div. reflexivity.
Qed.

Lemma mul_pow2_div (c i j : nat) :
  (i <= j)%nat -> ((c * 2 ^ j) / 2 ^ i = c * 2 ^ (j - i))%nat.
Proof.
  intros H. replace j with ((j - i) + i)%nat at 1 by lia.
  rewrite Nat.pow_add_r, Nat.mul_assoc, Nat.div_mul; [reflexivity|].
  pose proof (pow2_pos_nat i). lia.
Qed.

Lemma bitAt_zero (i : nat) : bitAt 0 i = false.
Proof. unfold bitAt. rewrite Nat.Div0.div_0_l. reflexivity. Qed.

Lemma bitAt_true (p i : nat) : bitAt p i = true <-> ((p / 2 ^ i) mod 2 = 1)%nat.
Proof. unfold bitAt. apply Nat.eqb_eq. Qed.

Lemma bitAt_false (p i : nat) : bitAt p i = false <-> ((p / 2 ^ i) mod 2 = 0)%nat.
Proof.
  unfold bitAt. rewrite Nat.eqb_neq.
  pose proof (Nat.mod_upper_bound (p / 2 ^ i) 2). lia.
Qed.

(** Adding one to an even number does not change its quotients by powers
    of two above the first. *)
Lemma even_succ_div_pow2 (e d : nat) :
  (e mod 2 = 0)%nat -> (0 < d)%nat -> ((e + 1) / 2 ^ d = e / 2 ^ d)%nat.
Proof.
  intros He Hd. destruct d as [|d]; [lia|].
  rewrite !pow2_succ_nat, <- !Nat.Div0.div_div.
  f_equal. lia.
Qed.

(** *** Leaves of a stream *)

Lemma chunks_fuel_irrelevant sz fuel1 : (0 < sz)%nat ->
  forall fuel2 r,
    (length r <= fuel1)%nat -> (length r <= fuel2)%nat ->
    chunks fuel1 sz r = chunks fuel2 sz r.
Proof.
  intros Hsz. induction fuel1 as [|fuel1 IH]; intros fuel2 r H1 H2.
  - destruct r; [|simpl in H1; lia]. destruct fuel2; reflexivity.
  - destruct r as [|b r]; [destruct fuel2; reflexivity|].
    destruct fuel2 as [|fuel2]; [simpl in H2; lia|].
    cbn [chunks]. f_equal.
    apply IH; rewrite length_drop; simpl in *; lia.
Qed.

Lemma chunks_fuel fuel sz r :
  (0 < sz)%nat -> (length r <= fuel)%nat ->
  chunks fuel sz r = chunks (length r) sz r.
Proof.
  intros Hsz Hlen. apply chunks_fuel_irrelevant; [exact Hsz|exact Hlen|lia].
Qed.

Lemma leavesOf_nil sz : leavesOf sz [] = [].
Proof. reflexivity. Qed.

Lemma leavesOf_cons sz r :
  (0 < sz)%nat -> r <> [] ->
  leavesOf sz r = take sz r :: leavesOf sz (drop sz r).
Proof.
  intros Hsz Hr. unfold leavesOf. destruct r as [|b r]; [contradiction|].
  cbn [chunks length]. f_equal. apply chunks_fuel; [exact Hsz|].
  rewrite length_drop. simpl. lia.
Qed.

Lemma leavesOf_drop sz r k :
  (0 < sz)%nat -> leavesOf sz (drop (k * sz) r) = drop k (leavesOf sz r).
Proof.
  intros Hsz. revert r. induction k as [|k IH]; intros r.
  - reflexivity.
  - destruct r as [|b r].
    + rewrite drop_nil, leavesOf_nil. reflexivity.
    + rewrite (leavesOf_cons sz (b :: r)) by (exact Hsz || discriminate).
      cbn [drop]. rewrite <- IH, drop_drop. reflexivity.
Qed.

Lemma length_leavesOf sz r :
  (0 < sz)%nat ->
  length (leavesOf sz r) = ((length r + sz - 1) / sz)%nat.
Proof.
  intros Hsz. unfold leavesOf.
  assert (H : forall fuel r, (length r <= fuel)%nat ->
            length (chunks fuel sz r) = ((length r + sz - 1) / sz)%nat).
  { clear r. induction fuel as [|fuel IH]; intros r Hlen.
    - destruct r; [|simpl in Hlen; lia]. simpl.
      symmetry. apply Nat.div_small. lia.
    - destruct r as [|b r].
      + simpl. symmetry. apply Nat.div_small. lia.
      + cbn [chunks length]. rewrite IH by (rewrite length_drop; simpl in *; lia).
        rewrite length_drop. cbn [length].
        destruct (Nat.le_gt_cases sz (S (length r))) as [Hge|Hlt].
        * replace (S (length r) + sz - 1)%nat
            with ((S (length r) - sz + sz - 1) + 1 * sz)%nat by lia.
          rewrite Nat.div_add by lia. lia.
        * replace (S (length r) - sz)%nat with 0%nat by lia.
          rewrite (Nat.div_small (0 + sz - 1)) by lia.
          replace (S (length r) + sz - 1)%nat
            with (length r + 1 * sz)%nat by lia.
          rewrite Nat.div_add by lia. rewrite Nat.div_small by lia.
          reflexivity. }
  apply H. lia.
Qed.

Lemma totalLeaves_leavesOf sz r :
  (0 < sz)%nat -> totalLeaves r sz = Z.of_nat (length (leavesOf sz r)).
Proof.
  intros Hsz. rewrite length_leavesOf by exact Hsz. unfold totalLeaves.
  rewrite Nat2Z.inj_div. f_equal. lia.
Qed.

Section StackFacts.
Variable sum : list Byte.byte -> Digest.

Local Abbreviation nodeHash := (nodeHash sum).
Local Abbreviation leafHash := (leafHash sum).
Local Abbreviation fullRoot := (fullRoot sum).
Local Abbreviation Repr := (Repr sum).
Local Abbreviation rootOpt := (rootOpt sum).
Local Abbreviation leafHashes := (leafHashes sum).
Local Abbreviation appendAll := (appendAll sum).

Lemma usedBit_Repr L s p i :
  Repr L s p -> (i < 64)%nat -> usedBit s i = bitAt p i.
Proof.
  intros (Hu & _ & _) Hi. unfold usedBit.
  rewrite Hu, shl1_u64_small by exact Hi.
  rewrite land_pow2_eqb. apply negb_involutive.
Qed.

Lemma Repr_NewStack L : Repr L NewStack 0.
Proof.
  split; [reflexivity|]. split; [reflexivity|].
  intros i _ H. rewrite bitAt_zero in H. discriminate.
Qed.

Lemma fullRoot_succ_drop i x L :
  fullRoot (S i) (drop x L) =
    nodeHash (fullRoot i (drop x L)) (fullRoot i (drop (x + 2 ^ i) L)).
Proof. simpl. rewrite drop_drop. reflexivity. Qed.

Lemma mergeUp_spec L s p h :
  Repr L s p -> (p + 2 ^ h < 2 ^ 64)%nat ->
  forall k i node,
    (i + k = 64)%nat ->
    (p + 2 ^ h = (p / 2 ^ i + 1) * 2 ^ i)%nat ->
    node = fullRoot i (drop (p / 2 ^ i * 2 ^ i) L) ->
    exists j node',
      mergeUp sum k s node i = (node', j) /\
      (i <= j < 64)%nat /\
      (p + 2 ^ h = (p / 2 ^ j + 1) * 2 ^ j)%nat /\
      bitAt p j = false /\
      node' = fullRoot j (drop (p / 2 ^ j * 2 ^ j) L).
Proof.
  intros HR Hlt k. induction k as [|k IH]; intros i node Hik Hp Hnode.
  - exfalso. replace i with 64%nat in Hp by lia.
    pose proof (pow2_pos_nat 64). nia.
  - assert (Hi : (i < 64)%nat) by lia. simpl.
    rewrite (usedBit_Repr L s p i HR Hi).
    destruct (bitAt p i) eqn:Eb.
    + destruct HR as (Hu & Hlen & Hslots).
      rewrite (Hslots i Hi Eb). apply bitAt_true in Eb.
      pose proof (div_pow2_succ p i) as Hdiv.
      assert (Hq : (p / 2 ^ S i * 2 ^ S i = (p / 2 ^ i - 1) * 2 ^ i)%nat).
      { rewrite Hdiv, pow2_succ_nat.
        set (q := (p / 2 ^ i)%nat) in *. set (P := (2 ^ i)%nat). nia. }
      destruct (IH (S i)
                  (nodeHash (fullRoot i (drop (blockStart p i) L)) node))
        as (j & node' & Hm & Hj & Hpj & Hbj & Hnj).
      * lia.
      * rewrite Hp, Hdiv, pow2_succ_nat.
        set (q := (p / 2 ^ i)%nat) in *. set (P := (2 ^ i)%nat). nia.
      * rewrite Hq. unfold blockStart. rewrite fullRoot_succ_drop.
        rewrite Hnode. do 2 f_equal. f_equal.
        set (q := (p / 2 ^ i)%nat) in *. set (P := (2 ^ i)%nat). nia.
      * exists j, node'. repeat split; try assumption; lia.
    + exists i, node. repeat split; try assumption; lia.
Qed.

Lemma slot_insert_eq (s : Stack) j node u :
  (j < length (stack s))%nat ->
  slot {| stack := <[j := node]> (stack s); used := u |} j = node.
Proof.
  intros H. unfold slot. simpl. rewrite list_lookup_insert_eq by exact H.
  reflexivity.
Qed.

Lemma slot_insert_ne (s : Stack) j i node u :
  j <> i ->
  slot {| stack := <[j := node]> (stack s); used := u |} i = slot s i.
Proof.
  intros H. unfold slot. simpl. rewrite list_lookup_insert_ne by exact H.
  reflexivity.
Qed.

(** What appending at height [h] does to the number of leaves held, in
    terms of the height [j] the carry stops at. *)
Lemma carry_bits (p h j : nat) :
  (p + 2 ^ h = (p / 2 ^ j + 1) * 2 ^ j)%nat ->
  bitAt p j = false ->
  forall i,
    ((i < j)%nat -> bitAt (p + 2 ^ h) i = false) /\
    (i = j -> bitAt (p + 2 ^ h) i = true /\
              blockStart (p + 2 ^ h) i = (p / 2 ^ j * 2 ^ j)%nat) /\
    ((j < i)%nat -> bitAt (p + 2 ^ h) i = bitAt p i /\
                    blockStart (p + 2 ^ h) i = blockStart p i).
Proof.
  intros Hp Hb i. apply bitAt_false in Hb. rewrite Hp.
  split; [|split].
  - intros Hi. apply bitAt_false. rewrite mul_pow2_div by lia.
    replace (j - i)%nat with (S (j - i - 1)) by lia.
    rewrite pow2_succ_nat.
    replace ((p / 2 ^ j + 1) * (2 * 2 ^ (j - i - 1)))%nat
      with ((p / 2 ^ j + 1) * 2 ^ (j - i - 1) * 2)%nat by lia.
    apply Nat.Div0.mod_mul.
  - intros ->. pose proof (pow2_pos_nat j).
    assert (Hd : ((p / 2 ^ j + 1) * 2 ^ j / 2 ^ j = p / 2 ^ j + 1)%nat)
      by (apply Nat.div_mul; lia).
    split.
    + apply bitAt_true. rewrite Hd. lia.
    + unfold blockStart. rewrite Hd. f_equal. lia.
  - intros Hi.
    assert (Hd : ((p / 2 ^ j + 1) * 2 ^ j / 2 ^ i = p / 2 ^ i)%nat).
    { rewrite (div_pow2_ge _ j i) by lia.
      pose proof (pow2_pos_nat j).
      rewrite Nat.div_mul by lia.
      rewrite even_succ_div_pow2 by lia.
      symmetry. apply div_pow2_ge. lia. }
    unfold bitAt, blockStart. rewrite Hd. split; reflexivity.
Qed.

Lemma append_full L s p h :
  Repr L s p -> (h < 64)%nat -> (p mod 2 ^ h = 0)%nat ->
  (p + 2 ^ h < 2 ^ 64)%nat ->
  exists s',
    appendNodeAtHeight sum s (fullRoot h (drop p L)) h = Some s' /\
    Repr L s' (p + 2 ^ h).
Proof.
  intros HR Hh Hal Hlt.
  assert (Hp0 : (p / 2 ^ h * 2 ^ h = p)%nat).
  { pose proof (Nat.Div0.div_mod p (2 ^ h)). lia. }
  destruct (mergeUp_spec L s p h HR Hlt (64 - h) h (fullRoot h (drop p L)))
    as (j & node' & Hm & Hj & Hpj & Hbj & Hnj).
  - lia.
  - lia.
  - rewrite Hp0. reflexivity.
  - unfold appendNodeAtHeight.
    destruct (Nat.leb_spec 64 h) as [?|_]; [lia|].
    rewrite Hm.
    destruct (Nat.leb_spec 64 j) as [?|_]; [lia|].
    eexists. split; [reflexivity|].
    destruct HR as (Hu & Hlen & Hslots).
    split; [|split].
    + simpl. rewrite Hu, shl1_u64_small by exact Hh.
      rewrite Nat2Z.inj_add, Nat2Z.inj_pow. apply u64_small.
      unfold two64. split; [lia|].
      apply (Nat2Z.inj_lt _ (2 ^ 64)) in Hlt.
      rewrite Nat2Z.inj_add, !Nat2Z.inj_pow in Hlt. exact Hlt.
    + simpl. rewrite length_insert. exact Hlen.
    + intros i Hi Hbit.
      destruct (carry_bits p h j Hpj Hbj i) as (Hlow & Heq & Hhigh).
      destruct (Nat.lt_trichotomy i j) as [Hij|[Hij|Hij]].
      * rewrite (Hlow Hij) in Hbit. discriminate.
      * subst i. destruct (Heq eq_refl) as [_ Hbs].
        rewrite slot_insert_eq by lia. rewrite Hbs. exact Hnj.
      * destruct (Hhigh Hij) as [Hb' Hbs].
        rewrite slot_insert_ne by lia. rewrite Hbs.
        apply Hslots; [exact Hi|]. rewrite <- Hb'. exact Hbit.
Qed.

Lemma rootOpt_Some k s i r :
  rootOpt k s i (Some r) = Some (rootLoop sum k s i r).
Proof.
  revert i r. induction k as [|k IH]; intros i r; simpl; [reflexivity|].
  destruct (usedBit s i); apply IH.
Qed.

Lemma rootOpt_app k1 k2 s i acc :
  rootOpt (k1 + k2) s i acc = rootOpt k2 s (i + k1) (rootOpt k1 s i acc).
Proof.
  revert i acc. induction k1 as [|k1 IH]; intros i acc; simpl.
  - rewrite Nat.add_0_r. reflexivity.
  - rewrite IH. f_equal. lia.
Qed.

Lemma Root_rootOpt s : Root sum s = default [] (rootOpt 64 s 0 None).
Proof.
  unfold Root.
  assert (H : forall k i, (i + k = 64)%nat ->
            (if (trailingZeros k s i =? 64)%nat then []
             else rootLoop sum (63 - trailingZeros k s i) s
                    (S (trailingZeros k s i)) (slot s (trailingZeros k s i)))
            = default [] (rootOpt k s i None)).
  { induction k as [|k IH]; intros i Hik.
    - simpl. replace i with 64%nat by lia. reflexivity.
    - simpl. destruct (usedBit s i) eqn:E.
      + destruct (Nat.eqb_spec i 64) as [?|_]; [lia|].
        rewrite rootOpt_Some. simpl. f_equal. lia.
      + apply IH. lia. }
  apply (H 64%nat 0%nat). reflexivity.
Qed.

Lemma rootOpt_ext k s1 s2 i acc :
  agreeOn s1 s2 i k -> rootOpt k s1 i acc = rootOpt k s2 i acc.
Proof.
  revert i acc. induction k as [|k IH]; intros i acc H; simpl; [reflexivity|].
  destruct (H i) as [Hb Hs]; [lia|]. rewrite <- Hb.
  destruct (usedBit s1 i) eqn:E.
  - rewrite <- (Hs eq_refl). apply IH. intros i' Hi'. apply H. lia.
  - apply IH. intros i' Hi'. apply H. lia.
Qed.

Lemma rootOpt_clear k s i acc :
  (forall i', (i <= i' < i + k)%nat -> usedBit s i' = false) ->
  rootOpt k s i acc = acc.
Proof.
  revert i acc. induction k as [|k IH]; intros i acc H; simpl; [reflexivity|].
  rewrite (H i) by lia. apply IH. intros i' Hi'. apply H. lia.
Qed.

Lemma rootOpt_None_clear k s i :
  rootOpt k s i None = None ->
  forall i', (i <= i' < i + k)%nat -> usedBit s i' = false.
Proof.
  revert i. induction k as [|k IH]; intros i H i' Hi'; [lia|].
  simpl in H. destruct (usedBit s i) eqn:E.
  - rewrite rootOpt_Some in H. discriminate.
  - destruct (Nat.eq_dec i' i) as [->|Hne]; [exact E|].
    apply (IH (S i) H). lia.
Qed.

Lemma usedBit_used s p i :
  used s = Z.of_nat p -> (i < 64)%nat -> usedBit s i = bitAt p i.
Proof.
  intros Hu Hi. unfold usedBit.
  rewrite Hu, shl1_u64_small by exact Hi.
  rewrite land_pow2_eqb. apply negb_involutive.
Qed.

Lemma Repr_agree L s1 s2 p i k :
  Repr L s1 p -> Repr L s2 p -> (i + k <= 64)%nat -> agreeOn s1 s2 i k.
Proof.
  intros (Hu1 & _ & Hs1) (Hu2 & _ & Hs2) Hk i' Hi'.
  rewrite (usedBit_used s1 p i' Hu1), (usedBit_used s2 p i' Hu2) by lia.
  split; [reflexivity|]. intros Hb.
  rewrite Hs1, Hs2 by (assumption || lia). reflexivity.
Qed.

(** The root only depends on the leaves the stack holds. *)
Lemma Root_Repr_unique L s1 s2 p :
  Repr L s1 p -> Repr L s2 p -> Root sum s1 = Root sum s2.
Proof.
  intros H1 H2. rewrite !Root_rootOpt. f_equal.
  apply rootOpt_ext. apply (Repr_agree L s1 s2 p); [assumption..|lia].
Qed.

Lemma low_bits_clear (m h : nat) :
  (forall i, (i < h)%nat -> bitAt m i = false) -> (m mod 2 ^ h = 0)%nat.
Proof.
  induction h as [|h IH]; intros H.
  - simpl. apply (Nat.mod_1_r m).
  - rewrite pow2_succ_nat, Nat.mul_comm, Nat.Div0.mod_mul_r.
    rewrite IH by (intros i Hi; apply H; lia).
    assert (Hb : bitAt m h = false) by (apply H; lia).
    apply bitAt_false in Hb. rewrite Hb. lia.
Qed.

Lemma high_bits_clear (m h i : nat) :
  (m < 2 ^ h)%nat -> (h <= i)%nat -> bitAt m i = false.
Proof.
  intros Hm Hi. apply bitAt_false.
  rewrite Nat.div_small; [reflexivity|].
  assert (2 ^ h <= 2 ^ i)%nat by (apply Nat.pow_le_mono_r; lia). lia.
Qed.

Lemma mergeUp_any s p h :
  used s = Z.of_nat p -> (p + 2 ^ h < 2 ^ 64)%nat ->
  forall k i node,
    (i + k = 64)%nat ->
    (p + 2 ^ h = (p / 2 ^ i + 1) * 2 ^ i)%nat ->
    exists j node',
      mergeUp sum k s node i = (node', j) /\
      (i <= j < 64)%nat /\
      (p + 2 ^ h = (p / 2 ^ j + 1) * 2 ^ j)%nat /\
      bitAt p j = false /\
      rootLoop sum k s i node = rootLoop sum (64 - j) s j node'.
Proof.
  intros Hu Hlt k. induction k as [|k IH]; intros i node Hik Hp.
  - exfalso. replace i with 64%nat in Hp by lia.
    pose proof (pow2_pos_nat 64). nia.
  - assert (Hi : (i < 64)%nat) by lia. simpl.
    rewrite (usedBit_used s p i Hu Hi).
    destruct (bitAt p i) eqn:Eb.
    + apply bitAt_true in Eb.
      pose proof (div_pow2_succ p i) as Hdiv.
      destruct (IH (S i) (nodeHash (slot s i) node))
        as (j & node' & Hm & Hj & Hpj & Hbj & Hr).
      * lia.
      * rewrite Hp, Hdiv, pow2_succ_nat.
        set (q := (p / 2 ^ i)%nat) in *. set (P := (2 ^ i)%nat). nia.
      * exists j, node'. repeat split; try assumption; lia.
    + exists i, node. repeat split; try assumption; try lia.
      replace (64 - i)%nat with (S k) by lia. simpl.
      rewrite (usedBit_used s p i Hu Hi), Eb. reflexivity.
Qed.

(** Appending any node at an aligned height: the new root folds the node
    into the slots from that height upwards. *)
Lemma append_root s p h node :
  used s = Z.of_nat p -> length (stack s) = 64%nat ->
  (h < 64)%nat -> (p mod 2 ^ h = 0)%nat -> (p + 2 ^ h < 2 ^ 64)%nat ->
  exists s',
    appendNodeAtHeight sum s node h = Some s' /\
    Root sum s' = rootLoop sum (64 - h) s h node.
Proof.
  intros Hu Hlen Hh Hal Hlt.
  assert (Hp0 : (p / 2 ^ h * 2 ^ h = p)%nat).
  { pose proof (Nat.Div0.div_mod p (2 ^ h)). lia. }
  destruct (mergeUp_any s p h Hu Hlt (64 - h) h node)
    as (j & node' & Hm & Hj & Hpj & Hbj & Hr); [lia|lia|].
  unfold appendNodeAtHeight.
  destruct (Nat.leb_spec 64 h) as [?|_]; [lia|]. rewrite Hm.
  destruct (Nat.leb_spec 64 j) as [?|_]; [lia|].
  eexists. split; [reflexivity|].
  set (s' := {| stack := <[j:=node']> (stack s);
                used := u64 (used s + shl1_u64 h) |}).
  assert (Hu' : used s' = Z.of_nat (p + 2 ^ h)).
  { simpl. rewrite Hu, shl1_u64_small by exact Hh.
    rewrite Nat2Z.inj_add, Nat2Z.inj_pow. apply u64_small.
    unfold two64. split; [lia|].
    apply (Nat2Z.inj_lt _ (2 ^ 64)) in Hlt.
    rewrite Nat2Z.inj_add, !Nat2Z.inj_pow in Hlt. exact Hlt. }
  rewrite Hr, Root_rootOpt.
  replace 64%nat with (j + (1 + (63 - j)))%nat at 1 by lia.
  rewrite !rootOpt_app.
  rewrite (rootOpt_clear j s' 0).
  2:{ intros i' Hi'. rewrite (usedBit_used s' _ i' Hu') by lia.
      apply (carry_bits p h j Hpj Hbj i'). lia. }
  cbn [rootOpt Nat.add].
  assert (Hbj' : usedBit s' j = true).
  { rewrite (usedBit_used s' _ j Hu') by lia.
    apply (carry_bits p h j Hpj Hbj j). reflexivity. }
  assert (Hslot : slot s' j = node')
    by (unfold s'; apply slot_insert_eq; lia).
  rewrite Hbj', Hslot.
  rewrite rootOpt_Some. cbn [default].
  replace (64 - j)%nat with (S (63 - j)) by lia. cbn [rootLoop].
  rewrite (usedBit_used s p j Hu) by lia. rewrite Hbj.
  assert (Hag : agreeOn s' s (S j) (63 - j)).
  { intros i' Hi'.
    rewrite (usedBit_used s' _ i' Hu'), (usedBit_used s p i' Hu) by lia.
    destruct (carry_bits p h j Hpj Hbj i') as (_ & _ & Hhigh).
    destruct Hhigh as [Hb _]; [lia|]. split; [exact Hb|].
    intros _. unfold s'. apply slot_insert_ne. lia. }
  pose proof (rootOpt_ext (63 - j) s' s (S j) (Some node') Hag) as He.
  rewrite !rootOpt_Some in He. injection He as He.
  replace (j + 1)%nat with (S j) by lia. exact He.
Qed.

(** The root of a single full block. *)
Lemma Root_full L s h :
  Repr L s (2 ^ h) -> (h < 64)%nat -> Root sum s = fullRoot h L.
Proof.
  intros HR Hh. pose proof HR as (Hu & Hlen & Hslots).
  assert (Hdiv : (2 ^ h / 2 ^ h = 1)%nat)
    by (apply Nat.div_same; pose proof (pow2_pos_nat h); lia).
  assert (Hb : bitAt (2 ^ h) h = true).
  { apply bitAt_true. rewrite Hdiv. reflexivity. }
  rewrite Root_rootOpt.
  replace 64%nat with (h + (1 + (63 - h)))%nat at 1 by lia.
  rewrite !rootOpt_app.
  rewrite (rootOpt_clear h s 0).
  2:{ intros i' Hi'. rewrite (usedBit_used s _ i' Hu) by lia.
      apply bitAt_false.
      replace (2 ^ h)%nat with (1 * 2 ^ h)%nat by lia.
      rewrite mul_pow2_div by lia.
      replace (h - i')%nat with (S (h - i' - 1)) by lia.
      rewrite pow2_succ_nat.
      replace (1 * (2 * 2 ^ (h - i' - 1)))%nat
        with (2 ^ (h - i' - 1) * 2)%nat by lia.
      apply Nat.Div0.mod_mul. }
  cbn [rootOpt Nat.add]. rewrite (usedBit_used s _ h Hu) by lia. rewrite Hb.
  rewrite rootOpt_clear.
  2:{ intros i' Hi'.
      rewrite (usedBit_used s _ i' Hu) by lia.
      apply bitAt_false. rewrite Nat.div_small; [reflexivity|].
      apply Nat.pow_lt_mono_r; lia. }
  cbn [default].
  rewrite (Hslots h Hh Hb). unfold blockStart. rewrite Hdiv. reflexivity.
Qed.

(** The root over [p + m] leaves, where [p] is a multiple of [2^h] and
    [0 < m < 2^h], is the root of the last [m] leaves folded into the slots
    of the first [p] from height [h] upwards. *)
Lemma Root_partial L sRef sP sBlk p m h :
  Repr L sRef (p + m) -> Repr L sP p -> Repr (drop p L) sBlk m ->
  (h < 64)%nat -> (p mod 2 ^ h = 0)%nat -> (0 < m < 2 ^ h)%nat ->
  Root sum sRef = rootLoop sum (64 - h) sP h (Root sum sBlk).
Proof.
  intros HRef HP HBlk Hh Hal Hm.
  pose proof HRef as (HuR & _ & HsR).
  pose proof HP as (HuP & _ & HsP).
  pose proof HBlk as (HuB & _ & HsB).
  assert (Hp0 : exists c, (p = c * 2 ^ h)%nat).
  { exists (p / 2 ^ h)%nat. pose proof (Nat.Div0.div_mod p (2 ^ h)). lia. }
  destruct Hp0 as [c Hp0].
  (* quotients of p + m below and above h *)
  assert (Hlowdiv : forall i, (i < h)%nat ->
            ((p + m) / 2 ^ i = c * 2 ^ (h - i) + m / 2 ^ i)%nat).
  { intros i Hi.
    replace (p + m)%nat with (m + c * 2 ^ (h - i) * 2 ^ i)%nat.
    - rewrite Nat.div_add by (pose proof (pow2_pos_nat i); lia). lia.
    - rewrite <- Nat.mul_assoc, <- Nat.pow_add_r.
      replace (h - i + i)%nat with h by lia. lia. }
  assert (Hhighdiv : forall i, (h <= i)%nat ->
            ((p + m) / 2 ^ i = p / 2 ^ i)%nat).
  { intros i Hi. rewrite (div_pow2_ge (p + m) h i), (div_pow2_ge p h i) by lia.
    f_equal. rewrite Hp0.
    rewrite Nat.div_mul by (pose proof (pow2_pos_nat h); lia).
    rewrite Nat.add_comm.
    rewrite Nat.div_add by (pose proof (pow2_pos_nat h); lia).
    rewrite Nat.div_small by lia. reflexivity. }
  assert (Heven : forall i, (i < h)%nat ->
            ((c * 2 ^ (h - i)) mod 2 = 0)%nat).
  { intros i Hi. replace (h - i)%nat with (S (h - i - 1)) by lia.
    rewrite pow2_succ_nat.
    replace (c * (2 * 2 ^ (h - i - 1)))%nat
      with (c * 2 ^ (h - i - 1) * 2)%nat by lia.
    apply Nat.Div0.mod_mul. }
  assert (Hlowbit : forall i, (i < h)%nat -> bitAt (p + m) i = bitAt m i).
  { intros i Hi. unfold bitAt. rewrite (Hlowdiv i Hi).
    pose proof (Heven i Hi) as He. f_equal.
    rewrite Nat.Div0.add_mod, He, Nat.add_0_l. apply Nat.Div0.mod_mod. }
  assert (Hhighbit : forall i, (h <= i)%nat -> bitAt (p + m) i = bitAt p i).
  { intros i Hi. unfold bitAt. rewrite (Hhighdiv i Hi). reflexivity. }
  assert (Hsplit : forall s acc,
            rootOpt 64 s 0 acc = rootOpt (64 - h) s h (rootOpt h s 0 acc)).
  { intros s acc. replace 64%nat with (h + (64 - h))%nat at 1 by lia.
    rewrite rootOpt_app. reflexivity. }
  rewrite !Root_rootOpt, !Hsplit.
  (* the part of the block above h is empty *)
  rewrite (rootOpt_clear (64 - h) sBlk h).
  2:{ intros i' Hi'. rewrite (usedBit_used sBlk m i' HuB) by lia.
      apply (high_bits_clear m h); lia. }
  (* below h the reference stack is the stack of the block *)
  assert (Hag : agreeOn sRef sBlk 0 h).
  { intros i' Hi'.
    rewrite (usedBit_used sRef _ i' HuR), (usedBit_used sBlk _ i' HuB) by lia.
    rewrite Hlowbit by lia. split; [reflexivity|]. intros Hb.
    rewrite HsR by (try lia; rewrite Hlowbit by lia; exact Hb).
    rewrite HsB by (try lia; exact Hb).
    rewrite drop_drop. do 2 f_equal.
    unfold blockStart. rewrite Hlowdiv by lia.
    apply bitAt_true in Hb.
    assert (0 < m / 2 ^ i')%nat by lia.
    assert (Hpi : (p = c * 2 ^ (h - i') * 2 ^ i')%nat).
    { rewrite <- Nat.mul_assoc, <- Nat.pow_add_r.
      replace (h - i' + i')%nat with h by lia. exact Hp0. }
    rewrite Hpi.
    set (A := (2 ^ (h - i'))%nat).
    set (B := (2 ^ i')%nat) in *. set (q := (m / B)%nat) in *.
    replace (c * A + q - 1)%nat with (c * A + (q - 1))%nat by lia.
    apply Nat.mul_add_distr_r. }
  rewrite (rootOpt_ext h sRef sBlk 0 None Hag).
  destruct (rootOpt h sBlk 0 None) as [r|] eqn:Er.
  - rewrite rootOpt_Some. cbn [default].
    assert (Hag2 : agreeOn sRef sP h (64 - h)).
    { intros i' Hi'.
      rewrite (usedBit_used sRef _ i' HuR), (usedBit_used sP _ i' HuP) by lia.
      rewrite Hhighbit by lia. split; [reflexivity|]. intros Hb.
      rewrite HsR by (try lia; rewrite Hhighbit by lia; exact Hb).
      rewrite HsP by (try lia; exact Hb).
      unfold blockStart. rewrite Hhighdiv by lia. reflexivity. }
    pose proof (rootOpt_ext (64 - h) sRef sP h (Some r) Hag2) as He.
    rewrite !rootOpt_Some in He. injection He as He. exact He.
  - exfalso.
    assert (Hz : (m mod 2 ^ h = 0)%nat).
    { apply low_bits_clear. intros i Hi.
      rewrite <- (usedBit_used sBlk m i HuB) by lia.
      apply (rootOpt_None_clear h sBlk 0 Er). lia. }
    rewrite Nat.mod_small in Hz by lia. lia.
Qed.

Lemma length_leafHashes sz r : length (leafHashes sz r) = length (leavesOf sz r).
Proof. unfold leafHashes. apply length_map. Qed.

(** *** Reading subtrees *)

Lemma isEOF_None : isEOF None = false.
Proof. reflexivity. Qed.

Lemma isEOF_EOF : isEOF (Some ioEOF) = true.
Proof. unfold isEOF. rewrite bool_decide_eq_true_2; reflexivity. Qed.

Lemma isEOF_Unexpected : isEOF (Some ioErrUnexpectedEOF) = true.
Proof.
  unfold isEOF. rewrite (bool_decide_eq_true_2 (_ = Some ioErrUnexpectedEOF));
    [apply orb_true_r|reflexivity].
Qed.

Lemma readSubtree_spec k sz : (0 < sz)%nat ->
  forall r s,
    readSubtree sum k r sz s =
      (s' ← appendAll s (map leafHash (take k (leavesOf sz r)));
       Some (s', drop (k * sz) r)).
Proof.
  intros Hsz. induction k as [|k IH]; intros r s.
  - reflexivity.
  - cbn [readSubtree]. unfold readFull.
    destruct r as [|b r0] eqn:Er.
    + rewrite take_nil. cbn [length].
      destruct (Nat.eqb_spec 0 sz) as [?|_]; [lia|].
      cbn [Nat.eqb Nat.ltb Nat.leb mbind option_bind].
      rewrite isEOF_EOF, !drop_nil, leavesOf_nil, take_nil. reflexivity.
    + rewrite <- Er. assert (Hne : r <> []) by (rewrite Er; discriminate).
      rewrite (leavesOf_cons sz r Hsz Hne). cbn [take map appendAll].
      assert (Hpos : (0 <? length (take sz r))%nat = true).
      { apply Nat.ltb_lt. rewrite length_take, Er. simpl. lia. }
      rewrite Hpos.
      destruct (AppendNode sum s (leafHash (take sz r))) as [s'|];
        [|reflexivity].
      cbn [mbind option_bind].
      destruct (Nat.eqb_spec (length (take sz r)) sz) as [Hfull|Hshort].
      * rewrite isEOF_None, IH. rewrite drop_drop.
        replace (sz + k * sz)%nat with (S k * sz)%nat by lia. reflexivity.
      * assert (Hlen : (length r < sz)%nat)
          by (rewrite length_take in Hshort; lia).
        assert (Hd : drop sz r = []) by (apply drop_ge; lia).
        assert (Hd' : drop (S k * sz) r = []) by (apply drop_ge; lia).
        rewrite Hd, Hd', leavesOf_nil, take_nil. cbn [map appendAll].
        destruct (length (take sz r) =? 0)%nat;
          [rewrite isEOF_EOF|rewrite isEOF_Unexpected]; reflexivity.
Qed.

Lemma fullRoot_0_lookup (L : list Digest) p x :
  L !! p = Some x -> fullRoot 0 (drop p L) = x.
Proof.
  intros H. cbn [fullRoot].
  rewrite head_lookup, lookup_drop, Nat.add_0_r, H. reflexivity.
Qed.

Lemma appendAll_Repr L k : forall s p,
  Repr L s p -> (p + k <= length L)%nat -> (p + k < 2 ^ 64)%nat ->
  exists s', appendAll s (take k (drop p L)) = Some s' /\ Repr L s' (p + k).
Proof.
  induction k as [|k IH]; intros s p HR Hlen Hlt.
  - exists s. rewrite Nat.add_0_r. split; [reflexivity|exact HR].
  - destruct (lookup_lt_is_Some_2 L p) as [x Hx]; [lia|].
    assert (Hdrop : drop p L = x :: drop (S p) L).
    { apply drop_S. exact Hx. }
    rewrite Hdrop. cbn [take appendAll].
    destruct (append_full L s p 0 HR) as (s1 & Hs1 & HR1).
    + lia.
    + apply (Nat.mod_1_r p).
    + change (2 ^ 0)%nat with 1%nat. lia.
    + rewrite (fullRoot_0_lookup L p x Hx) in Hs1.
      unfold AppendNode. rewrite Hs1. cbn [mbind option_bind].
      change (2 ^ 0)%nat with 1%nat in HR1.
      replace (p + 1)%nat with (S p) in HR1 by lia.
      destruct (IH s1 (S p) HR1) as (s' & Hs' & HR'); [lia|lia|].
      exists s'. split; [exact Hs'|].
      replace (p + S k)%nat with (S p + k)%nat by lia. exact HR'.
Qed.

(** *** A reader over a sector *)

Section Sector.
Variable data : list Byte.byte.
Variable sz : nat.
Hypothesis Hsz : (0 < sz)%nat.

Local Abbreviation L := (leafHashes sz data).
Local Abbreviation readerAt := (readerAt data sz).

Hypothesis HN : (length L < 2 ^ 63)%nat.
Hypothesis Hbytes : Z.of_nat sz * Z.of_nat (length L) <= MaxInt64.

Lemma leafHashes_drop pos :
  leafHashes sz (drop (pos * sz) data) = drop pos L.
Proof.
  unfold leafHashes. rewrite leavesOf_drop by exact Hsz.
  symmetry. apply skipn_map.
Qed.

Lemma take_min {A} (k : nat) (l : list A) :
  take k l = take (k `min` length l) l.
Proof.
  destruct (Nat.le_gt_cases k (length l)).
  - rewrite Nat.min_l by lia. reflexivity.
  - rewrite Nat.min_r by lia. rewrite !take_ge by lia. reflexivity.
Qed.

Lemma pow2_63_nat_Z : Z.of_nat (2 ^ 63) = 2 ^ 63.
Proof. rewrite Nat2Z.inj_pow. reflexivity. Qed.

Lemma NextSubtreeRoot_spec pos (n : nat) :
  let k := (n `min` (length L - pos))%nat in
  exists res,
    NextSubtreeRoot sum (readerAt pos) (Z.of_nat n)
      = Some (res, readerAt (pos + n)) /\
    (k = 0%nat -> res = inl ioEOF) /\
    ((0 < k)%nat ->
     exists s, Repr (drop pos L) s k /\ res = inr (Root sum s)).
Proof.
  intros k. unfold NextSubtreeRoot, readerAt. cbn [srData srLeafSize].
  rewrite Nat2Z.id, (readSubtree_spec n sz Hsz).
  rewrite leavesOf_drop by exact Hsz.
  rewrite <- firstn_map, <- skipn_map.
  change (map leafHash (leavesOf sz data)) with L.
  rewrite (take_min n (drop pos L)), length_drop. fold k.
  destruct (appendAll_Repr (drop pos L) k NewStack 0 (Repr_NewStack _))
    as (s & Hs & HR).
  - rewrite length_drop. lia.
  - assert (k <= length L)%nat by lia.
    assert (2 ^ 63 < 2 ^ 64)%nat by (apply Nat.pow_lt_mono_r; lia). lia.
  - rewrite drop_0 in Hs.
    rewrite Hs. cbn [mbind option_bind].
    rewrite drop_drop.
    replace (pos * sz + n * sz)%nat with ((pos + n) * sz)%nat by lia.
    destruct HR as (Hu & Hlen & Hslots). unfold NumNodes. rewrite Hu.
    cbn [Nat.add].
    assert (Hk : (k < 2 ^ 63)%nat) by lia.
    apply Nat2Z.inj_lt in Hk. rewrite pow2_63_nat_Z in Hk.
    rewrite i64_small by (unfold MinInt64, MaxInt64; lia).
    destruct (Z.eqb_spec (Z.of_nat k) 0) as [E|E].
    + eexists. split; [reflexivity|]. split; [reflexivity|]. lia.
    + eexists. split; [reflexivity|]. split; [lia|].
      intros _. exists s. split; [|reflexivity].
      split; [exact Hu|]. split; [exact Hlen|exact Hslots].
Qed.

Lemma Skip_readerAt pos (n : nat) :
  (pos + n <= length L)%nat ->
  exists e, Skip (readerAt pos) (Z.of_nat n) = (e, readerAt (pos + n)) /\
            (e = None \/ e = Some ioEOF).
Proof.
  intros Hle. unfold Skip, readerAt. cbn [srData srLeafSize].
  assert (Hfit : i64 (Z.of_nat sz * Z.of_nat n) = Z.of_nat (sz * n)).
  { rewrite Nat2Z.inj_mul. apply i64_small.
    unfold MinInt64. split; [lia|].
    assert (Z.of_nat sz * Z.of_nat n <= Z.of_nat sz * Z.of_nat (length L))
      by (apply Z.mul_le_mono_nonneg_l; lia).
    lia. }
  rewrite Hfit, Nat2Z.id, drop_drop.
  replace (pos * sz + sz * n)%nat with ((pos + n) * sz)%nat by lia.
  eexists. split; [reflexivity|].
  destruct (_ <? _)%nat; [right|left]; reflexivity.
Qed.

(** *** The left half of the proof *)

Variables a b : nat.
Hypothesis Hab : (a < b)%nat.
Hypothesis HbN : (b <= length L)%nat.

Local Abbreviation leftProof := (leftProof sum data sz a).
Local Abbreviation posAt := (posAt b).
Local Abbreviation buildMask := (buildMask b).
Local Abbreviation verifyMask := (verifyMask b).

Lemma sizeAt_S i : (i <= 63)%nat -> sizeAt (S i) = 2 ^ Z.of_nat i.
Proof.
  intros Hi. unfold sizeAt. rewrite Z.shiftr_div_pow2 by lia.
  replace (Z.of_nat (64 - S i)) with (63 - Z.of_nat i) by lia.
  rewrite <- Z.pow_sub_r by lia. f_equal. lia.
Qed.

Lemma sizeAt_shiftr i : (i <= 63)%nat -> Z.shiftr (sizeAt (S i)) 1 = sizeAt i.
Proof.
  intros Hi. unfold sizeAt. rewrite Z.shiftr_shiftr by lia. f_equal. lia.
Qed.

Lemma mod_pow2_succ (x i : nat) :
  (x mod 2 ^ S i = x mod 2 ^ i + 2 ^ i * ((x / 2 ^ i) mod 2))%nat.
Proof. rewrite pow2_succ_nat, Nat.mul_comm. apply Nat.Div0.mod_mul_r. Qed.

Lemma trunc_le (x k : nat) : (x / 2 ^ k * 2 ^ k <= x)%nat.
Proof. rewrite Nat.mul_comm. apply Nat.Div0.mul_div_le. Qed.

Lemma trunc_step_set (x i : nat) :
  bitAt x i = true ->
  (x / 2 ^ S i * 2 ^ S i + 2 ^ i = x / 2 ^ i * 2 ^ i)%nat.
Proof.
  intros Hb. apply bitAt_true in Hb.
  rewrite div_pow2_succ, pow2_succ_nat.
  set (q := (x / 2 ^ i)%nat) in *. set (P := (2 ^ i)%nat). nia.
Qed.

Lemma trunc_step_clear (x i : nat) :
  bitAt x i = false -> (x / 2 ^ S i * 2 ^ S i = x / 2 ^ i * 2 ^ i)%nat.
Proof.
  intros Hb. apply bitAt_false in Hb.
  rewrite div_pow2_succ, pow2_succ_nat.
  set (q := (x / 2 ^ i)%nat) in *. set (P := (2 ^ i)%nat). nia.
Qed.

Lemma trunc_mod (x k : nat) : ((x / 2 ^ k * 2 ^ k) mod 2 ^ k = 0)%nat.
Proof. apply Nat.Div0.mod_mul. Qed.

Lemma Ha63 : (a < 2 ^ 63)%nat.
Proof. lia. Qed.

Lemma leftProof_nil k : (a mod 2 ^ k = 0)%nat -> leftProof k = [].
Proof.
  induction k as [|i IH]; intros Hm; [reflexivity|].
  rewrite mod_pow2_succ in Hm. pose proof (pow2_pos_nat i) as HP.
  assert (Hlow : (a mod 2 ^ i = 0)%nat) by lia.
  assert (Hbit : ((a / 2 ^ i) mod 2 = 0)%nat) by nia.
  apply bitAt_false in Hbit. cbn [leftProof]. rewrite Hbit, IH by exact Hlow.
  reflexivity.
Qed.

Lemma i64_pow2 (i : nat) : (i <= 62)%nat -> i64 (2 ^ Z.of_nat i) = 2 ^ Z.of_nat i.
Proof.
  intros Hi. apply i64_small. unfold MinInt64, MaxInt64.
  assert (0 < 2 ^ Z.of_nat i) by (apply Z.pow_pos_nonneg; lia).
  assert (2 ^ Z.of_nat i < 2 ^ 63) by (apply Z.pow_lt_mono_r; lia). lia.
Qed.

Lemma u64_of_nat (x : nat) : (x < 2 ^ 64)%nat -> u64 (Z.of_nat x) = Z.of_nat x.
Proof.
  intros H. apply u64_small. unfold two64. split; [lia|].
  apply Nat2Z.inj_lt in H. rewrite Nat2Z.inj_pow in H. exact H.
Qed.

Lemma pow2_63_64 : (2 ^ 63 < 2 ^ 64)%nat.
Proof. apply Nat.pow_lt_mono_r; lia. Qed.

Lemma pow2_Z_nat (i : nat) : 2 ^ Z.of_nat i = Z.of_nat (2 ^ i).
Proof. rewrite Nat2Z.inj_pow. reflexivity. Qed.

Lemma buildLeft_spec k :
  (k <= 64)%nat ->
  forall fuel acc,
    (k < fuel)%nat ->
    buildLeft sum fuel (Z.of_nat a) (sizeAt k)
      (Z.of_nat (a / 2 ^ k * 2 ^ k)) (readerAt (a / 2 ^ k * 2 ^ k)) acc
    = Some (inr (acc ++ leftProof k, readerAt a)).
Proof.
  pose proof Ha63 as Ha. pose proof pow2_63_64 as H6364.
  induction k as [|i IH]; intros Hk fuel acc Hfuel.
  - destruct fuel as [|fuel]; [lia|]. cbn [buildLeft leftProof].
    change (2 ^ 0)%nat with 1%nat. rewrite Nat.div_1_r, Nat.mul_1_r.
    rewrite u64_of_nat by lia. rewrite Z.ltb_irrefl, app_nil_r. reflexivity.
  - destruct fuel as [|fuel]; [lia|]. cbn [buildLeft].
    set (p := (a / 2 ^ S i * 2 ^ S i)%nat).
    pose proof (trunc_le a (S i)) as Hple. fold p in Hple.
    rewrite u64_of_nat by lia.
    rewrite !sizeAt_shiftr by lia. rewrite !sizeAt_S by lia.
    destruct (Z.ltb_spec (Z.of_nat p) (Z.of_nat a)) as [Hlt|Hge].
    + rewrite land_pow2_eqb, negb_involutive.
      destruct (bitAt a i) eqn:Eb.
      * assert (Hi : (i <= 62)%nat).
        { destruct (Nat.le_gt_cases i 62) as [?|Hgt]; [assumption|].
          rewrite (high_bits_clear a 63 i) in Eb by lia. discriminate. }
        pose proof (trunc_step_set a i Eb) as Hstep. fold p in Hstep.
        pose proof (trunc_le a i) as Hpi.
        rewrite i64_pow2 by exact Hi.
        rewrite pow2_Z_nat.
        destruct (NextSubtreeRoot_spec p (2 ^ i)) as (res & HNext & _ & Hres).
        rewrite HNext. cbn [mbind option_bind].
        destruct Hres as (s & HR & ->).
        { pose proof (pow2_pos_nat i). lia. }
        rewrite Nat.min_l in HR by lia.
        rewrite (Root_full _ s i HR) by lia.
        rewrite <- Nat2Z.inj_add, u64_of_nat by lia.
        rewrite Hstep.
        rewrite IH by lia. rewrite <- app_assoc.
        cbn [leftProof]. rewrite Eb. reflexivity.
      * cbn [negb]. pose proof (trunc_step_clear a i Eb) as Hstep.
        fold p in Hstep. rewrite Hstep.
        rewrite IH by lia. cbn [leftProof]. rewrite Eb. reflexivity.
    + assert (Hpa : p = a) by lia.
      rewrite leftProof_nil, app_nil_r.
      * rewrite Hpa. reflexivity.
      * rewrite <- Hpa. apply trunc_mod.
Qed.

Lemma land_int_min (x : Z) : 0 <= x < 2 ^ 63 -> Z.land x (- 2 ^ 63) = 0.
Proof.
  intros Hx. apply Z.bits_inj'. intros j Hj.
  rewrite Z.land_spec, Z.bits_0.
  destruct (Z.lt_ge_cases j 63) as [Hlt|Hge].
  - replace (- 2 ^ 63) with (- 1 * 2 ^ 63) by lia.
    rewrite Z.mul_pow2_bits_low by lia. apply andb_false_r.
  - assert (Hb : Z.testbit x j = false).
    { destruct (Z.eq_dec x 0) as [->|Hne]; [apply Z.bits_0|].
      apply Z.bits_above_log2; [lia|].
      assert (Z.log2 x < 63) by (apply Z.log2_lt_pow2; lia). lia. }
    rewrite Hb. reflexivity.
Qed.

Lemma shl1_int_small (i : nat) : (i <= 62)%nat -> shl1_int i = 2 ^ Z.of_nat i.
Proof.
  intros Hi. unfold shl1_int. rewrite Z.shiftl_1_l. apply i64_pow2. exact Hi.
Qed.

Lemma shl1_int_63 : shl1_int 63 = - 2 ^ 63.
Proof. reflexivity. Qed.

(** The test of [verifyLeft] at height [i]. *)
Lemma verifyLeft_test (i : nat) :
  (i < 64)%nat ->
  negb (Z.land (Z.of_nat a) (shl1_int i) =? 0) = bitAt a i.
Proof.
  intros Hi. pose proof Ha63 as Ha.
  destruct (Nat.le_gt_cases i 62) as [Hle|Hgt].
  - rewrite shl1_int_small by exact Hle.
    rewrite land_pow2_eqb. apply negb_involutive.
  - replace i with 63%nat by lia. rewrite shl1_int_63.
    rewrite land_int_min.
    + rewrite (high_bits_clear a 63 63) by lia. reflexivity.
    + split; [lia|]. apply Nat2Z.inj_lt in Ha.
      rewrite pow2_63_nat_Z in Ha. exact Ha.
Qed.

Lemma verifyLeft_nil k s : verifyLeft sum k (Z.of_nat a) s [] = Some (s, []).
Proof. destruct k; reflexivity. Qed.

Lemma verifyLeft_spec k :
  (k <= 64)%nat ->
  forall s rest,
    Repr L s (a / 2 ^ k * 2 ^ k) ->
    exists s',
      verifyLeft sum k (Z.of_nat a) s (leftProof k ++ rest) = Some (s', rest) /\
      Repr L s' a.
Proof.
  pose proof Ha63 as Ha. pose proof pow2_63_64 as H6364.
  induction k as [|i IH]; intros Hk s rest HR.
  - exists s. split; [reflexivity|].
    change (2 ^ 0)%nat with 1%nat in HR.
    rewrite Nat.div_1_r, Nat.mul_1_r in HR. exact HR.
  - cbn [leftProof]. destruct (bitAt a i) eqn:Eb.
    + cbn [app verifyLeft]. rewrite verifyLeft_test by lia. rewrite Eb.
      cbn [negb].
      pose proof (trunc_step_set a i Eb) as Hstep.
      pose proof (trunc_le a i) as Hpi.
      assert (Hi : (i <= 62)%nat).
      { destruct (Nat.le_gt_cases i 62) as [?|Hgt]; [assumption|].
        rewrite (high_bits_clear a 63 i) in Eb by lia. discriminate. }
      assert (H2i : (2 ^ i <= 2 ^ 62)%nat) by (apply Nat.pow_le_mono_r; lia).
      assert (H62 : (2 ^ 62 < 2 ^ 63)%nat) by (apply Nat.pow_lt_mono_r; lia).
      destruct (append_full L s _ i HR) as (s1 & Hs1 & HR1).
      * lia.
      * rewrite pow2_succ_nat.
        replace (a / (2 * 2 ^ i) * (2 * 2 ^ i))%nat
          with (a / (2 * 2 ^ i) * 2 * 2 ^ i)%nat by lia.
        apply Nat.Div0.mod_mul.
      * lia.
      * rewrite Hs1. cbn [mbind option_bind].
        rewrite Hstep in HR1. apply IH; [lia|exact HR1].
    + pose proof (trunc_step_clear a i Eb) as Hstep.
      rewrite Hstep in HR. cbn [app].
      destruct (IH ltac:(lia) s rest HR) as (s' & Hs' & HR').
      exists s'. split; [|exact HR'].
      destruct (leftProof i ++ rest) as [|p0 tl] eqn:El.
      * rewrite verifyLeft_nil in Hs'. rewrite verifyLeft_nil. exact Hs'.
      * cbn [verifyLeft]. rewrite verifyLeft_test by lia. rewrite Eb.
        exact Hs'.
Qed.

(** *** The leaves of the range *)

Lemma leavesOf_take (r : list Byte.byte) k :
  leavesOf sz (take (k * sz) r) = take k (leavesOf sz r).
Proof.
  revert r. induction k as [|k IH]; intros r.
  - reflexivity.
  - destruct r as [|x r].
    + rewrite take_nil, leavesOf_nil. reflexivity.
    + assert (Hne : take (S k * sz) (x :: r) <> []).
      { destruct sz; [lia|]. discriminate. }
      rewrite (leavesOf_cons sz _ Hsz Hne).
      rewrite (leavesOf_cons sz (x :: r)) by (exact Hsz || discriminate).
      cbn [take]. f_equal.
      * rewrite take_take. f_equal. lia.
      * rewrite <- IH. f_equal.
        rewrite skipn_firstn_comm. f_equal. lia.
Qed.

Lemma verifyLeaves_spec k : forall r s,
  length (leavesOf sz r) = k ->
  verifyLeaves sum k r sz s =
    (s' ← appendAll s (map leafHash (leavesOf sz r)); Some (inr s')).
Proof.
  induction k as [|k IH]; intros r s Hlen.
  - destruct (leavesOf sz r); [reflexivity|discriminate].
  - destruct r as [|x r0] eqn:Er; [discriminate|]. rewrite <- Er in *.
    assert (Hne : r <> []) by (rewrite Er; discriminate).
    rewrite (leavesOf_cons sz r Hsz Hne) in *. cbn [length] in Hlen.
    cbn [verifyLeaves map appendAll]. unfold readFull.
    assert (Hpos : (0 <? length (take sz r))%nat = true).
    { apply Nat.ltb_lt. rewrite length_take, Er. simpl. lia. }
    rewrite Hpos.
    destruct (AppendNode sum s (leafHash (take sz r))) as [s'|];
      [|reflexivity].
    cbn [mbind option_bind].
    destruct (Nat.eqb_spec (length (take sz r)) sz) as [Hfull|Hshort].
    + rewrite isEOF_None. apply IH. lia.
    + assert (Hl : (length r < sz)%nat)
        by (rewrite length_take in Hshort; lia).
      assert (Hd : drop sz r = []) by (apply drop_ge; lia).
      rewrite Hd, leavesOf_nil in *. cbn [length] in Hlen.
      replace k with 0%nat by lia. cbn [map appendAll Nat.eqb].
      destruct (length (take sz r) =? 0)%nat;
        [rewrite isEOF_EOF|rewrite isEOF_Unexpected]; reflexivity.
Qed.

Lemma leafHashes_leafRange :
  leafHashes sz (leafRange data sz (Z.of_nat a) (Z.of_nat b))
    = take (b - a) (drop a L).
Proof.
  unfold leafRange, leafHashes.
  replace (Z.to_nat (Z.of_nat b - Z.of_nat a)) with (b - a)%nat by lia.
  rewrite Nat2Z.id, leavesOf_take, leavesOf_drop by exact Hsz.
  rewrite skipn_map, firstn_map. reflexivity.
Qed.

Lemma verifyLeaves_range s :
  Repr L s a ->
  exists s',
    verifyLeaves sum (b - a)
      (leafRange data sz (Z.of_nat a) (Z.of_nat b)) sz s = Some (inr s') /\
    Repr L s' b.
Proof.
  intros HR. pose proof pow2_63_64.
  destruct (appendAll_Repr L (b - a) s a HR) as (s' & Hs' & HR');
    [lia|lia|].
  exists s'. replace (a + (b - a))%nat with b in HR' by lia.
  split; [|exact HR'].
  rewrite verifyLeaves_spec.
  - change (map leafHash (leavesOf sz ?r)) with (leafHashes sz r).
    rewrite leafHashes_leafRange, Hs'. reflexivity.
  - rewrite <- length_leafHashes, leafHashes_leafRange.
    rewrite length_take, length_drop. lia.
Qed.

(** *** The right half of the proof *)

Lemma posAt_0 : posAt 0 = b.
Proof.
  unfold posAt. change (2 ^ 0)%nat with 1%nat.
  rewrite Nat.div_1_r. lia.
Qed.

Lemma posAt_step_clear i :
  bitAt (b - 1) i = false -> posAt (S i) = (posAt i + 2 ^ i)%nat.
Proof.
  intros Hb. apply bitAt_false in Hb. unfold posAt.
  rewrite div_pow2_succ, pow2_succ_nat.
  set (q := ((b - 1) / 2 ^ i)%nat) in *. set (P := (2 ^ i)%nat). nia.
Qed.

Lemma posAt_step_set i : bitAt (b - 1) i = true -> posAt (S i) = posAt i.
Proof.
  intros Hb. apply bitAt_true in Hb. unfold posAt.
  rewrite div_pow2_succ, pow2_succ_nat.
  set (q := ((b - 1) / 2 ^ i)%nat) in *. set (P := (2 ^ i)%nat). nia.
Qed.

Lemma posAt_mod i : (posAt i mod 2 ^ i = 0)%nat.
Proof. apply Nat.Div0.mod_mul. Qed.

Lemma posAt_ge i : (2 ^ i <= posAt i)%nat.
Proof. unfold posAt. nia. Qed.

Lemma buildRight_test (i : nat) :
  (i <= 62)%nat ->
  (Z.land buildMask (u64 (2 ^ Z.of_nat i)) =? 0) = negb (bitAt (b - 1) i).
Proof.
  intros Hi. pose proof pow2_63_64. unfold buildMask.
  replace (Z.of_nat b - 1) with (Z.of_nat (b - 1)) by lia.
  rewrite u64_of_nat by lia.
  rewrite <- (shl1_u64_small i) by lia.
  assert (Hu : u64 (shl1_u64 i) = shl1_u64 i).
  { apply u64_small. apply u64_range. }
  rewrite Hu, shl1_u64_small by lia. apply land_pow2_eqb.
Qed.

Lemma verifyRight_test (i : nat) :
  (i <= 62)%nat ->
  negb (Z.land verifyMask (u64 (shl1_int i)) =? 0) = negb (bitAt (b - 1) i).
Proof.
  intros Hi. pose proof pow2_63_64. unfold verifyMask.
  rewrite shl1_int_small by exact Hi.
  rewrite u64_of_nat by lia.
  assert (Hp : u64 (2 ^ Z.of_nat i) = 2 ^ Z.of_nat i).
  { rewrite <- (shl1_u64_small i) by lia. apply u64_small, u64_range. }
  rewrite Hp, land_pow2 by lia. f_equal.
  assert (Hbit : Z.testbit (u64 (0 - Z.of_nat b)) (Z.of_nat i)
                 = negb (bitAt (b - 1) i)).
  { unfold u64, two64. rewrite Z.mod_pow2_bits_low by lia.
    rewrite Z.sub_0_l, Z.bits_opp by lia.
    replace (Z.pred (Z.of_nat b)) with (Z.of_nat (b - 1)) by lia.
    rewrite testbit_of_nat. reflexivity. }
  rewrite Hbit. assert (0 < 2 ^ Z.of_nat i) by (apply Z.pow_pos_nonneg; lia).
  destruct (bitAt (b - 1) i); cbn [negb].
  - reflexivity.
  - apply Z.eqb_neq. lia.
Qed.

Lemma shiftl_pow2 (i : nat) :
  (i <= 62)%nat -> u64 (Z.shiftl (2 ^ Z.of_nat i) 1) = 2 ^ Z.of_nat (S i).
Proof.
  intros Hi. rewrite Z.shiftl_mul_pow2 by lia.
  replace (2 ^ Z.of_nat i * 2 ^ 1) with (2 ^ Z.of_nat (S i)).
  - rewrite <- (shl1_u64_small (S i)) by lia. apply u64_small, u64_range.
  - rewrite Nat2Z.inj_succ, Z.pow_succ_r by lia. lia.
Qed.

Lemma buildRight_eof k : forall i acc pos,
  (i + k = 63)%nat -> (length L <= pos)%nat ->
  buildRight sum k buildMask (2 ^ Z.of_nat i) (readerAt pos) acc
    = Some (inr acc).
Proof.
  induction k as [|k IH]; intros i acc pos Hik Hpos; [reflexivity|].
  cbn [buildRight]. rewrite buildRight_test by lia.
  rewrite shiftl_pow2 by lia.
  destruct (bitAt (b - 1) i); cbn [negb].
  - apply IH; lia.
  - rewrite i64_pow2 by lia. rewrite (pow2_Z_nat i).
    destruct (NextSubtreeRoot_spec pos (2 ^ i)) as (res & HNext & Hz & _).
    rewrite HNext. cbn [mbind option_bind].
    rewrite Hz by lia.
    rewrite bool_decide_eq_true_2 by reflexivity. reflexivity.
Qed.

Variable sRef : Stack.
Hypothesis HRef : Repr L sRef (length L).

Lemma verifyRight_nil fuel i s :
  verifyRight sum fuel verifyMask i s [] = Some s.
Proof. destruct fuel; reflexivity. Qed.

Lemma right_spec k : forall i s acc,
  (i + k = 63)%nat -> (posAt i <= length L)%nat -> Repr L s (posAt i) ->
  exists proofR,
    buildRight sum k buildMask (2 ^ Z.of_nat i) (readerAt (posAt i)) acc
      = Some (inr (acc ++ proofR)) /\
    forall fuel, (k <= fuel)%nat ->
      exists sF,
        verifyRight sum fuel verifyMask i s proofR = Some sF /\
        Root sum sF = Root sum sRef.
Proof.
  pose proof pow2_63_64 as H6364.
  induction k as [|k IH]; intros i s acc Hik Hpos HR.
  - exfalso. replace i with 63%nat in Hpos by lia.
    pose proof (posAt_ge 63). lia.
  - assert (Hi : (i <= 62)%nat) by lia.
    assert (H2i : (2 ^ i <= 2 ^ 62)%nat) by (apply Nat.pow_le_mono_r; lia).
    assert (H62 : (2 ^ 62 < 2 ^ 63)%nat) by (apply Nat.pow_lt_mono_r; lia).
    cbn [buildRight]. rewrite buildRight_test by exact Hi.
    rewrite shiftl_pow2 by exact Hi.
    destruct (bitAt (b - 1) i) eqn:Eb; cbn [negb].
    + (* bit set in b - 1: nothing at this height *)
      rewrite <- (posAt_step_set i Eb) in *.
      destruct (IH (S i) s acc) as (proofR & Hbuild & Hverify);
        [lia|exact Hpos|exact HR|].
      exists proofR. split; [exact Hbuild|].
      intros fuel Hfuel. destruct fuel as [|fuel]; [lia|].
      destruct (Hverify fuel) as (sF & HsF & Hroot); [lia|].
      exists sF. split; [|exact Hroot].
      destruct proofR as [|p0 rest].
      * rewrite verifyRight_nil in *. exact HsF.
      * cbn [verifyRight]. rewrite verifyRight_test by exact Hi.
        rewrite Eb. exact HsF.
    + (* bit clear in b - 1: a subtree of up to 2^i leaves *)
      rewrite i64_pow2 by exact Hi. rewrite (pow2_Z_nat i).
      destruct (NextSubtreeRoot_spec (posAt i) (2 ^ i))
        as (res & HNext & Hz & Hnz).
      rewrite HNext. cbn [mbind option_bind].
      set (m := (2 ^ i `min` (length L - posAt i))%nat) in *.
      destruct (Nat.eq_dec m 0%nat) as [Hm0|Hm0].
      * (* end of the tree *)
        rewrite (Hz Hm0). rewrite bool_decide_eq_true_2 by reflexivity.
        exists []. rewrite app_nil_r. split; [reflexivity|].
        intros fuel _. exists s. rewrite verifyRight_nil.
        split; [reflexivity|].
        assert (Hend : posAt i = length L).
        { pose proof (pow2_pos_nat i). lia. }
        rewrite Hend in HR. apply (Root_Repr_unique L s sRef _ HR HRef).
      * destruct Hnz as (sBlk & HBlk & ->); [lia|].
        destruct (Nat.le_gt_cases (posAt i + 2 ^ i) (length L)) as [Hfull|Hpart].
        -- (* a full subtree *)
           assert (Hm : m = (2 ^ i)%nat) by lia. rewrite Hm in HBlk.
           rewrite (Root_full _ sBlk i HBlk) by lia.
           destruct (append_full L s (posAt i) i HR) as (s1 & Hs1 & HR1);
             [lia|apply posAt_mod|lia|].
           rewrite <- (posAt_step_clear i Eb) in *.
           destruct (IH (S i) s1 (acc ++ [fullRoot i (drop (posAt i) L)]))
             as (proofR & Hbuild & Hverify); [lia|exact Hfull|exact HR1|].
           exists (fullRoot i (drop (posAt i) L) :: proofR).
           split.
           ++ rewrite Hbuild, <- app_assoc. reflexivity.
           ++ intros fuel Hfuel. destruct fuel as [|fuel]; [lia|].
              cbn [verifyRight]. rewrite verifyRight_test by exact Hi.
              rewrite Eb. cbn [negb]. rewrite Hs1. cbn [mbind option_bind].
              apply Hverify. lia.
        -- (* the last, short subtree *)
           assert (Hm : (m = length L - posAt i)%nat) by lia.
           rewrite buildRight_eof by lia.
           exists [Root sum sBlk]. split; [reflexivity|].
           intros fuel Hfuel. destruct fuel as [|fuel]; [lia|].
           cbn [verifyRight]. rewrite verifyRight_test by exact Hi.
           rewrite Eb. cbn [negb].
           destruct HR as (Hu & Hlen & Hslots).
           destruct (append_root s (posAt i) i (Root sum sBlk) Hu Hlen)
             as (s1 & Hs1 & Hroot); [lia|apply posAt_mod|lia|].
           rewrite Hs1. cbn [mbind option_bind]. rewrite verifyRight_nil.
           exists s1. split; [reflexivity|]. rewrite Hroot.
           symmetry.
           apply (Root_partial L sRef s sBlk (posAt i) m i).
           ++ replace (posAt i + m)%nat with (length L) by lia. exact HRef.
           ++ split; [exact Hu|]. split; [exact Hlen|exact Hslots].
           ++ exact HBlk.
           ++ lia.
           ++ apply posAt_mod.
           ++ lia.
Qed.

(** *** Round trip *)

Lemma illegalRange_ok : illegalRange (Z.of_nat a) (Z.of_nat b) = false.
Proof.
  unfold illegalRange.
  destruct (Z.ltb_spec (Z.of_nat a) 0) as [?|_]; [lia|].
  destruct (Z.ltb_spec (Z.of_nat b) (Z.of_nat a)) as [?|_]; [lia|].
  destruct (Z.eqb_spec (Z.of_nat a) (Z.of_nat b)) as [?|_]; [lia|].
  reflexivity.
Qed.

Lemma round_trip_nat fuel fuelV :
  (64 < fuel)%nat -> (63 <= fuelV)%nat ->
  exists proof,
    BuildRangeProof sum fuel (Z.of_nat a) (Z.of_nat b)
      (NewSubtreeReader data sz) = Some (inr proof) /\
    VerifyReaderRangeProof sum fuelV
      (leafRange data sz (Z.of_nat a) (Z.of_nat b)) sz
      (Z.of_nat a) (Z.of_nat b) proof (Root sum sRef) = Some (true, None).
Proof.
  intros Hfuel HfuelV. pose proof Ha63 as Ha. pose proof pow2_63_64 as H6364.
  assert (Ha0 : (a / 2 ^ 64 * 2 ^ 64 = 0)%nat).
  { rewrite Nat.div_small by lia. reflexivity. }
  (* the stacks the verifier goes through *)
  destruct (verifyLeft_spec 64 ltac:(lia) NewStack) with (rest := @nil Digest)
    as (sA0 & _ & HRA).
  { rewrite Ha0. apply Repr_NewStack. }
  clear sA0 HRA.
  assert (HR0 : Repr L NewStack (a / 2 ^ 64 * 2 ^ 64))
    by (rewrite Ha0; apply Repr_NewStack).
  (* the builder *)
  pose proof (buildLeft_spec 64 ltac:(lia) fuel [] Hfuel) as HbuildL.
  rewrite Ha0 in HbuildL.
  destruct (Skip_readerAt a (b - a)) as (e & HSkip & He); [lia|].
  replace (a + (b - a))%nat with b in HSkip by lia.
  replace (Z.of_nat (b - a)) with (Z.of_nat b - Z.of_nat a) in HSkip by lia.
  assert (Hskiperr : negb (bool_decide (e = None)) && negb (isEOF e) = false).
  { destruct He as [->| ->].
    - rewrite bool_decide_eq_true_2 by reflexivity. reflexivity.
    - rewrite isEOF_EOF. apply andb_false_r. }
  (* the verifier up to the end of the range *)
  assert (Hverify : forall rest, exists sB,
            (exists sA,
                verifyLeft sum 64 (Z.of_nat a) NewStack (leftProof 64 ++ rest)
                  = Some (sA, rest) /\
                verifyLeaves sum (b - a)
                  (leafRange data sz (Z.of_nat a) (Z.of_nat b)) sz sA
                  = Some (inr sB)) /\
            Repr L sB b).
  { intros rest.
    destruct (verifyLeft_spec 64 ltac:(lia) NewStack rest HR0)
      as (sA & HsA & HRA).
    destruct (verifyLeaves_range sA HRA) as (sB & HsB & HRB).
    exists sB. split; [|exact HRB]. exists sA. split; assumption. }
  destruct (Hverify []) as (sB0 & _ & HRB0).
  destruct (right_spec 63 0 sB0 (leftProof 64)) as (proofR & HbuildR & _).
  { reflexivity. }
  { rewrite posAt_0. exact HbN. }
  { rewrite posAt_0. exact HRB0. }
  rewrite posAt_0 in HbuildR.
  exists (leftProof 64 ++ proofR). split.
  - unfold BuildRangeProof. rewrite illegalRange_ok.
    change (shl1_u64 63) with (sizeAt 64).
    change (NewSubtreeReader data sz) with (readerAt 0).
    change 0 with (Z.of_nat 0) at 1.
    rewrite HbuildL. cbn [mbind option_bind app].
    rewrite HSkip, Hskiperr. exact HbuildR.
  - unfold VerifyReaderRangeProof. rewrite illegalRange_ok.
    destruct (Hverify proofR) as (sB & (sA & HsA & HsB) & HRB).
    rewrite HsA. cbn [mbind option_bind].
    replace (Z.to_nat (Z.of_nat b - Z.of_nat a)) with (b - a)%nat by lia.
    rewrite HsB. cbn [mbind option_bind].
    destruct (right_spec 63 0 sB (leftProof 64)) as (proofR' & HbuildR' & Hv).
    { reflexivity. }
    { rewrite posAt_0. exact HbN. }
    { rewrite posAt_0. exact HRB. }
    rewrite posAt_0 in HbuildR'. rewrite HbuildR in HbuildR'.
    assert (HeqR : proofR' = proofR).
    { apply (inj Some) in HbuildR'. apply (inj inr) in HbuildR'.
      apply app_inv_head in HbuildR'. symmetry. exact HbuildR'. }
    subst proofR'.
    destruct (Hv fuelV HfuelV) as (sF & HsF & Hroot).
    change (u64 (0 - u64 (Z.of_nat b))) with verifyMask.
    rewrite HsF. cbn [mbind option_bind].
    rewrite bool_decide_eq_true_2 by exact Hroot. reflexivity.
Qed.

End Sector.
End StackFacts.

(** C1 — Merkle range-proof round trip: for a sector of [totalLeaves]
    leaves and a leaf range [a, b) with [0 <= a < b <= totalLeaves],
    [BuildRangeProof] over a reader of the sector returns a proof, and
    [VerifyReaderRangeProof] accepts that proof against the bytes of the
    leaves [a, b) and the Merkle root of the sector.  The leaf size is
    positive and the sector, padded to whole leaves, has a size that fits
    an [int64]. *)
Theorem range_proof_round_trip
    (sum : list Byte.byte -> Digest) (data : list Byte.byte) (sz : nat)
    (a b : Z) (fuel fuelV : nat) :
  (0 < sz)%nat ->
  Z.of_nat sz * totalLeaves data sz <= MaxInt64 ->
  0 <= a < b -> b <= totalLeaves data sz ->
  (64 < fuel)%nat -> (63 <= fuelV)%nat ->
  exists proof root,
    BuildRangeProof sum fuel a b (NewSubtreeReader data sz)
      = Some (inr proof) /\
    MerkleRoot sum data sz = Some root /\
    VerifyReaderRangeProof sum fuelV (leafRange data sz a b) sz a b proof root
      = Some (true, None).
Proof.
  intros Hsz Hbytes Hab HbN Hfuel HfuelV.
  rewrite (totalLeaves_leavesOf sz data Hsz) in *.
  rewrite <- (length_leafHashes sum) in *.
  set (L := leafHashes sum sz data) in *.
  assert (HN : (length L < 2 ^ 63)%nat).
  { apply Nat2Z.inj_lt. rewrite pow2_63_nat_Z. unfold MaxInt64 in Hbytes. nia. }
  (* the reference stack: all leaves appended *)
  destruct (NextSubtreeRoot_spec sum data sz Hsz HN 0 (length L))
    as (res & HNext & _ & Hres).
  destruct Hres as (sRef & HRef & ->).
  { fold L. lia. }
  fold L in HRef. rewrite Nat.sub_0_r, Nat.min_id, drop_0 in HRef.
  destruct (round_trip_nat sum data sz Hsz HN Hbytes (Z.to_nat a) (Z.to_nat b)
              ltac:(lia) ltac:(fold L; lia) sRef HRef fuel fuelV Hfuel HfuelV)
    as (proof & Hbuild & Hverify).
  rewrite !Z2Nat.id in Hbuild, Hverify by lia.
  exists proof, (Root sum sRef). split; [exact Hbuild|]. split; [|exact Hverify].
  unfold MerkleRoot. rewrite (totalLeaves_leavesOf sz data Hsz).
  rewrite <- (length_leafHashes sum). fold L.
  change (NewSubtreeReader data sz) with (readerAt data sz 0).
  rewrite HNext. reflexivity.
Qed.

Lemma range_proof_round_trip_witness :
  exists proof root,
    BuildRangeProof toySum 65 3 5 (NewSubtreeReader toySector 2)
      = Some (inr proof) /\
    MerkleRoot toySum toySector 2 = Some root /\
    VerifyReaderRangeProof toySum 63 (leafRange toySector 2 3 5) 2 3 5
      proof root = Some (true, None).
Proof.
  apply (range_proof_round_trip toySum toySector 2 3 5 65 63).
  - lia.
  - vm_compute. discriminate.
  - lia.
  - vm_compute. discriminate.
  - lia.
  - lia.
Defined.

(** The proof for the leaves [3, 5) of the 11-leaf toy sector has five
    hashes: two left of the range and three right of it. *)
Example toy_proof_3_5 :
  (fun r => match r with
            | Some (inr proof) => Some (length proof)
            | _ => None
            end)
    (BuildRangeProof toySum 65 3 5 (NewSubtreeReader toySector 2))
  = Some 5%nat.
Proof. vm_compute. reflexivity. Qed.

End MerkleRangeFacts.

(** ** The download orchestrator, further *)

Module OrchestratorProps.
Import GoInt GoIntFacts PieceGeometry PieceGeometryFacts.
Import Orchestrator OrchestratorFacts OrchestratorNotions.

(** *** getPieceOffsetAndLen *)



(** *** finished *)

(** X2 — [finished] reports completion exactly when the number of pieces
    that have a completed download reaches the number of data pieces, and
    it never reports completion together with an error. *)
Theorem finished_true_iff_completed (pdc : projectDownloadChunk) :
  (fst (finished pdc) = true <->
   MinPieces (staticErasureCoder (workerSet pdc)) <= completedCount pdc) /\
  (fst (finished pdc) = true -> finished pdc = (true, None)).
Proof.
  unfold finished. rewrite finishedCount_spec.
  unfold completedCount, countPieces. rewrite Z.add_0_l.
  destruct (_ >=? _) eqn:E.
  - apply Z.geb_le in E. split; [|reflexivity].
    split; [intros _; exact E|reflexivity].
  - assert (Hlt : Z.of_nat (length (List.filter hasCompleted
                                      (availablePieces pdc)))
                  < MinPieces (staticErasureCoder (workerSet pdc))).
    { destruct (Z.geb_spec (Z.of_nat (length (List.filter hasCompleted
                                      (availablePieces pdc))))
                  (MinPieces (staticErasureCoder (workerSet pdc))));
        [discriminate|lia]. }
    destruct (_ <? _); cbn [fst]; split;
      try (intros H; discriminate H);
      split; try (intros H; discriminate H); intros H; lia.
Qed.

(** *** handleJobReadResponse *)

Lemma markWorker_advanced f key piece :
  (forall pd, pieceDownloadAdvanced pd (f pd)) ->
  Forall2 pieceDownloadAdvanced piece (markWorker f key piece).
Proof.
  intros Hf. unfold markWorker. induction piece as [|pd rest IH]; simpl.
  - constructor.
  - constructor; [|exact IH].
    destruct (String.eqb _ _); [apply Hf|].
    repeat split; intros H; exact H.
Qed.

Lemma set_failed_advanced pd : pieceDownloadAdvanced pd (set_failed pd).
Proof. repeat split. intros H; exact H. Qed.

Lemma set_completed_advanced pd : pieceDownloadAdvanced pd (set_completed pd).
Proof. repeat split. intros H; exact H. Qed.

Lemma pieceDownloadAdvanced_refl piece :
  Forall2 pieceDownloadAdvanced piece piece.
Proof.
  induction piece as [|pd rest IH]; constructor; [|exact IH].
  repeat split; intros H; exact H.
Qed.

Lemma insert_advanced (pieces : list (list pieceDownload)) (i : nat)
    piece piece' :
  pieces !! i = Some piece ->
  Forall2 pieceDownloadAdvanced piece piece' ->
  Forall2 (Forall2 pieceDownloadAdvanced) pieces (<[i := piece']> pieces).
Proof.
  revert i. induction pieces as [|p rest IH]; intros [|i]; simpl;
    try discriminate.
  - intros [= ->] H. constructor; [exact H|].
    clear. induction rest; constructor;
      [apply pieceDownloadAdvanced_refl|assumption].
  - intros Hi H. constructor; [apply pieceDownloadAdvanced_refl|].
    apply IH; assumption.
Qed.

(** X3 — [handleJobReadResponse] never adds, removes or reorders pieces
    or downloads and never touches the request: the worker set, the
    requested range and the number of data slots stay, every download
    entry keeps its worker, its launch flag and its expected completion
    time, and the flags [completed] and [failed] are only ever raised,
    never cleared. *)
Theorem handleJobReadResponse_only_raises_flags
    (pdc pdc' : projectDownloadChunk) (jrr : option jobReadResponse) :
  handleJobReadResponse pdc jrr = Some pdc' ->
  workerSet pdc' = workerSet pdc /\
  (chunkOffset pdc', chunkLength pdc', pieceOffset pdc', pieceLength pdc')
    = (chunkOffset pdc, chunkLength pdc, pieceOffset pdc, pieceLength pdc) /\
  length (dataPieces pdc') = length (dataPieces pdc) /\
  Forall2 (Forall2 pieceDownloadAdvanced)
          (availablePieces pdc) (availablePieces pdc').
Proof.
  unfold handleJobReadResponse. destruct jrr as [jrr|].
  - destruct (staticErr jrr) as [e|].
    + destruct (availablePieces pdc !! _) as [piece|] eqn:Ep;
        [|discriminate]. cbn [mbind option_bind]. intros [= <-].
      cbn [workerSet chunkOffset chunkLength pieceOffset pieceLength
           dataPieces availablePieces set_availablePieces].
      repeat split.
      apply (insert_advanced _ _ piece); [exact Ep|].
      apply markWorker_advanced, set_failed_advanced.
    + destruct (dataPieces pdc !! _) as [d|] eqn:Ed; [|discriminate].
      cbn [mbind option_bind set_dataPieces availablePieces].
      destruct (availablePieces pdc !! _) as [piece|] eqn:Ep;
        [|discriminate]. cbn [mbind option_bind]. intros [= <-].
      cbn [workerSet chunkOffset chunkLength pieceOffset pieceLength
           dataPieces availablePieces set_availablePieces set_dataPieces].
      repeat split.
      * apply length_insert.
      * apply (insert_advanced _ _ piece); [exact Ep|].
        apply markWorker_advanced, set_completed_advanced.
  - intros [= <-]. repeat split.
    clear. induction (availablePieces pdc); constructor;
      [apply pieceDownloadAdvanced_refl|assumption].
Qed.

Lemma handleJobReadResponse_only_raises_flags_witness :
  workerSet pdcBothFetched = workerSet pdcInProgress /\
  length (dataPieces pdcBothFetched) = length (dataPieces pdcInProgress) /\
  Forall2 (Forall2 pieceDownloadAdvanced)
    (availablePieces pdcInProgress) (availablePieces pdcBothFetched).
Proof.
  destruct (handleJobReadResponse_only_raises_flags pdcInProgress
              pdcBothFetched (Some (jrrPiece1 None)))
    as (H1 & _ & H3 & H4).
  - reflexivity.
  - split; [exact H1|]. split; [exact H3|exact H4].
Defined.

(** *** Responses and the progress check *)

Lemma hasCompleted_markWorker_failed key piece :
  hasCompleted (markWorker set_failed key piece) = hasCompleted piece.
Proof.
  unfold hasCompleted, markWorker. induction piece as [|pd rest IH]; simpl.
  - reflexivity.
  - rewrite IH. destruct (String.eqb _ _); reflexivity.
Qed.

Lemma hasCompleted_markWorker_completed key piece :
  hasCompleted piece = true ->
  hasCompleted (markWorker set_completed key piece) = true.
Proof.
  unfold hasCompleted, markWorker. induction piece as [|pd rest IH]; simpl.
  - intros H; exact H.
  - intros H. apply orb_true_iff in H. apply orb_true_iff.
    destruct H as [H|H]; [left|right; apply IH; exact H].
    destruct (String.eqb _ _); [reflexivity|exact H].
Qed.

Lemma filter_insert_le {A} (p : A -> bool) (l : list A) (i : nat) x y :
  l !! i = Some x -> (p x = true -> p y = true) ->
  (length (List.filter p l) <= length (List.filter p (<[i := y]> l)))%nat.
Proof.
  revert i. induction l as [|z l IH]; intros [|i]; simpl; try discriminate.
  - intros [= ->] Hxy. destruct (p x).
    + rewrite Hxy by reflexivity. simpl. lia.
    + destruct (p y); simpl; lia.
  - intros Hi Hxy. specialize (IH i Hi Hxy).
    destruct (p z); simpl; lia.
Qed.

(** X4 — a worker response never takes progress away: after
    [handleJobReadResponse] the number of pieces with a completed
    download is at least what it was, so a download that [finished]
    reported complete is still reported complete, with no error. *)
Theorem finished_stable_under_response
    (pdc pdc' : projectDownloadChunk) (jrr : option jobReadResponse) :
  handleJobReadResponse pdc jrr = Some pdc' ->
  completedCount pdc <= completedCount pdc' /\
  (fst (finished pdc) = true -> finished pdc' = (true, None)).
Proof.
  intros H.
  assert (Hws : workerSet pdc' = workerSet pdc /\
                completedCount pdc <= completedCount pdc').
  { revert H. unfold handleJobReadResponse, completedCount, countPieces.
    destruct jrr as [jrr|]; [|intros [= <-]; split; [reflexivity|lia]].
    destruct (staticErr jrr) as [e|].
    - destruct (availablePieces pdc !! _) as [piece|] eqn:Ep;
        [|discriminate]. cbn [mbind option_bind]. intros [= <-].
      cbn [workerSet availablePieces set_availablePieces].
      split; [reflexivity|]. apply inj_le.
      apply (filter_insert_le _ _ _ piece); [exact Ep|].
      rewrite hasCompleted_markWorker_failed. intros Hc; exact Hc.
    - destruct (dataPieces pdc !! _) as [d|]; [|discriminate].
      cbn [mbind option_bind set_dataPieces availablePieces].
      destruct (availablePieces pdc !! _) as [piece|] eqn:Ep;
        [|discriminate]. cbn [mbind option_bind]. intros [= <-].
      cbn [workerSet availablePieces set_availablePieces set_dataPieces].
      split; [reflexivity|]. apply inj_le.
      apply (filter_insert_le _ _ _ piece); [exact Ep|].
      apply hasCompleted_markWorker_completed. }
  destruct Hws as [Hws Hle]. split; [exact Hle|].
  unfold finished. rewrite !finishedCount_spec, Hws.
  unfold completedCount, countPieces in Hle. rewrite !Z.add_0_l.
  destruct (_ >=? _) eqn:E1.
  - intros _. apply Z.geb_le in E1.
    destruct (Z.geb_spec
      (Z.of_nat (length (List.filter hasCompleted (availablePieces pdc'))))
      (MinPieces (staticErasureCoder (workerSet pdc)))); [reflexivity|lia].
  - destruct (_ <? _); intros Hd; discriminate Hd.
Qed.

Lemma finished_stable_under_response_witness :
  completedCount pdcInProgress <= completedCount pdcBothFetched /\
  (fst (finished pdcInProgress) = true ->
   finished pdcBothFetched = (true, None)).
Proof.
  apply (finished_stable_under_response pdcInProgress pdcBothFetched
           (Some (jrrPiece1 None))).
  reflexivity.
Defined.





(** *** The cost-adjusted read time *)

(** X6 — the read time with its price penalty is a saturating sum: for a
    positive price per millisecond and a non-negative job cost, the
    computation does not fail and gives the expected job time, clamped at
    zero from below, plus the cost divided by the price, capped at
    [math.MaxInt64]; in particular it never wraps around to a negative
    duration. *)
Theorem costAdjustedReadTime_saturating_sum
    (w : worker) (pieceLength pricePerMSPerWorker : Z) :
  0 < pricePerMSPerWorker ->
  0 <= callExpectedJobCost w pieceLength ->
  callExpectedJobTime w pieceLength <= MaxInt64 ->
  costAdjustedReadTime w pieceLength pricePerMSPerWorker =
    Some (Z.min MaxInt64
            (Z.max 0 (callExpectedJobTime w pieceLength)
             + callExpectedJobCost w pieceLength / pricePerMSPerWorker)).
Proof.
  intros Hp Hc Ht. unfold costAdjustedReadTime.
  destruct (Z.eqb_spec pricePerMSPerWorker 0) as [?|_]; [lia|].
  set (t := callExpectedJobTime w pieceLength) in *.
  set (q := callExpectedJobCost w pieceLength / pricePerMSPerWorker).
  assert (Hq : 0 <= q) by (apply Z.div_pos; lia).
  assert (Hclamp : (if t <? 0 then 0 else t) = Z.max 0 t).
  { destruct (Z.ltb_spec t 0); lia. }
  rewrite Hclamp. unfold MaxUint64, MaxInt64 in *.
  destruct (Z.ltb_spec (2 ^ 64 - 1) q) as [Hbig|Hfit]; cbn [orb].
  - f_equal. lia.
  - destruct (Z.ltb_spec (2 ^ 63 - 1) q) as [Hbig|Hfit2].
    + f_equal. lia.
    + destruct (Z.ltb_spec (2 ^ 63 - 1 - q) (Z.max 0 t)) as [Hov|Hok].
      * f_equal. lia.
      * f_equal. rewrite i64_small; unfold MinInt64, MaxInt64; lia.
Qed.

Lemma costAdjustedReadTime_saturating_sum_witness :
  costAdjustedReadTime wD 64 2 = Some (Z.min MaxInt64 (Z.max 0 100 + 0 / 2)).
Proof.
  apply (costAdjustedReadTime_saturating_sum wD 64 2).
  - lia.
  - simpl. lia.
  - simpl. unfold MaxInt64. lia.
Defined.

(** *** finalize *)

(** X7 — when [finalize] delivers data it delivers exactly the requested
    number of bytes: a response without error carries [chunkLength]
    bytes.  This includes the deliveries that reach past the bytes
    [Recover] wrote into the spare capacity of the buffer. *)
Theorem finalize_data_length (pdc : projectDownloadChunk)
    (r : downloadResponse) :
  0 <= chunkLength pdc < two64 ->
  finalize pdc = Some r -> err r = None ->
  exists d, data r = Some d /\ Z.of_nat (length d) = chunkLength pdc.
Proof.
  intros Hlen. unfold finalize.
  destruct (Recover _ _ _) as [e|buf].
  - intros [= <-]. discriminate.
  - set (lo := u64 (chunkOffset pdc - _)).
    unfold slice.
    destruct (Z.leb_spec lo (u64 (chunkLength pdc + lo))) as [Hle|];
      [|discriminate].
    destruct (Z.leb_spec (u64 (chunkLength pdc + lo))
                (Z.of_nat (length (backing buf)))) as [Hhi|]; [|discriminate].
    cbn [andb mbind option_bind]. intros [= <-] _.
    eexists. split; [reflexivity|].
    pose proof (u64_range (chunkOffset pdc
      - u64 (pieceOffset pdc
             * u64 (MinPieces (staticErasureCoder (workerSet pdc))))))
      as Hlo.
    fold lo in Hlo.
    assert (Hsum : u64 (chunkLength pdc + lo) = chunkLength pdc + lo).
    { unfold u64, two64 in *.
      destruct (Z.lt_ge_cases (chunkLength pdc + lo) (2 ^ 64)) as [Hs|Hs].
      - apply Z.mod_small. lia.
      - exfalso.
        assert (Hm : (chunkLength pdc + lo) mod 2 ^ 64
                     = chunkLength pdc + lo - 2 ^ 64).
        { symmetry. apply (Z.mod_unique_pos _ _ 1); lia. }
        lia. }
    rewrite Hsum in *.
    rewrite length_take, length_drop. lia.
Qed.

Lemma finalize_data_length_witness :
  (finalize pdcSecondSegment
     = Some {| data := Some (repeat Byte.x2a 64); err := None |} /\
   exists d,
     data {| data := Some (repeat Byte.x2a 64); err := None |} = Some d /\
     Z.of_nat (length d) = chunkLength pdcSecondSegment) /\
  (finalize pdcShortPiece
     = Some {| data := Some (repeat Byte.x2a 8 ++ repeat Byte.x00 8);
               err := None |} /\
   exists d,
     data {| data := Some (repeat Byte.x2a 8 ++ repeat Byte.x00 8);
             err := None |} = Some d /\
     Z.of_nat (length d) = chunkLength pdcShortPiece).
Proof.
  split.
  - split; [reflexivity|].
    apply (finalize_data_length pdcSecondSegment).
    + split; [simpl; lia|reflexivity].
    + reflexivity.
    + reflexivity.
  - split; [reflexivity|].
    apply (finalize_data_length pdcShortPiece).
    + split; [simpl; lia|reflexivity].
    + reflexivity.
    + reflexivity.
Defined.

(** *** findBestWorker *)

Lemma selectWorkers_inPieces pieces pl price late pa plch :
  forall rest pre st st',
    In (pre ++ rest) pieces ->
    Z.of_nat (length (pre ++ rest)) <= two64 ->
    selectionInPieces pieces st ->
    selectWorkers pl price late pa plch rest (length pre) st = Some st' ->
    selectionInPieces pieces st'.
Proof.
  induction rest as [|pd rest IH]; intros pre st st' Hin Hlen Hinv.
  - simpl. intros [= <-]. exact Hinv.
  - assert (Hpre : pre ++ pd :: rest = (pre ++ [pd]) ++ rest)
      by (rewrite <- app_assoc; reflexivity).
    assert (HS : S (length pre) = length (pre ++ [pd]))
      by (rewrite length_app; simpl; lia).
    cbn [selectWorkers]. rewrite HS.
    rewrite Hpre in Hin, Hlen.
    destruct ((bestKnownRank st <? workerRankLate)
              && bool_decide (staticHostPubKeyStr (pdWorker pd) ∈ late)).
    { apply IH; assumption. }
    destruct (costAdjustedReadTime (pdWorker pd) pl price) as [rt|];
      [|discriminate]. cbn [mbind option_bind].
    destruct (bestKnownDuration st <? rt).
    { apply IH; assumption. }
    apply IH; try assumption.
    intros w. cbn [bestResolvedWorker bestPieceIndex]. intros [= <-].
    exists ((pre ++ [pd]) ++ rest), pd. split; [exact Hin|].
    split; [|reflexivity].
    rewrite length_app in Hlen. rewrite length_app in Hlen.
    cbn [length] in Hlen.
    rewrite u64_small by (unfold two64 in *; lia).
    rewrite Nat2Z.id, <- app_assoc.
    rewrite lookup_app_r by lia. rewrite Nat.sub_diag. reflexivity.
Qed.

Lemma selectPieces_inPieces pieces now pl price late :
  forall piecesCopy st st',
    (forall piece, In piece piecesCopy ->
       In piece pieces /\ Z.of_nat (length piece) <= two64) ->
    selectionInPieces pieces st ->
    selectPieces now pl price late piecesCopy st = Some st' ->
    selectionInPieces pieces st'.
Proof.
  induction piecesCopy as [|piece rest IH]; intros st st' Hall Hinv.
  - simpl. intros [= <-]. exact Hinv.
  - assert (Hrest : forall p, In p rest ->
              In p pieces /\ Z.of_nat (length p) <= two64).
    { intros p Hp. apply Hall. right. exact Hp. }
    destruct (Hall piece ltac:(left; reflexivity)) as [Hin Hlen].
    cbn [selectPieces].
    destruct (selectionFlags now piece false false false) as [[pc pa] plch].
    destruct pc; [apply IH; assumption|].
    destruct ((bestKnownRank st <? workerRankLaunchedPiece) && plch);
      [apply IH; assumption|].
    destruct ((bestKnownRank st <? workerRankActivePiece) && pa);
      [apply IH; assumption|].
    destruct (selectWorkers pl price late pa plch piece 0 st) as [st1|] eqn:E;
      [|discriminate]. cbn [mbind option_bind].
    apply IH; [exact Hrest|].
    apply (selectWorkers_inPieces pieces pl price late pa plch piece [] st st1);
      assumption.
Qed.

(** X8 — when [findBestWorker] returns a worker it returns neither an
    error nor a sleep time nor a wake channel, and the index it returns
    with the worker is the position of that worker in the download list
    of one of the available pieces (the loop variable of the loop over
    the workers of the piece). *)
Theorem findBestWorker_worker_position
    (now : Time) (pdc : projectDownloadChunk) (r : fbwResult) (w : worker) :
  Forall (fun piece => Z.of_nat (length piece) <= two64)
         (availablePieces pdc) ->
  findBestWorker now pdc = Some r ->
  fbwWorker r = Some w ->
  fbwErr r = None /\ fbwSleep r = 0 /\ fbwWake r = false /\
  exists piece pd,
    In piece (availablePieces pdc) /\
    piece !! Z.to_nat (fbwPieceIndex r) = Some pd /\
    pdWorker pd = w.
Proof.
  intros Hlens. unfold findBestWorker.
  destruct (unresolvedLoop _ _ _ _ _) as [ub|]; [|discriminate].
  cbn [mbind option_bind].
  destruct (_ <? MinPieces _); [intros [= <-]; discriminate|].
  destruct (negb _ && _); [intros [= <-]; discriminate|].
  match goal with
  | |- context [selectPieces _ _ _ _ _ ?i] => set (init := i)
  end.
  assert (Hinit : selectionInPieces (availablePieces pdc) init).
  { intros w0. unfold init. destruct (0 <? _)%nat; discriminate. }
  destruct (selectPieces _ _ _ _ _ init) as [sel|] eqn:Esel; [|discriminate].
  cbn [mbind option_bind].
  assert (Hall : forall piece, In piece (availablePieces pdc) ->
            In piece (availablePieces pdc)
            /\ Z.of_nat (length piece) <= two64).
  { intros piece Hp. split; [exact Hp|].
    rewrite Forall_forall in Hlens. apply Hlens.
    apply list_elem_of_In. exact Hp. }
  assert (Hsel : selectionInPieces (availablePieces pdc) sel).
  { apply (selectPieces_inPieces _ _ _ _ _ _ _ _ Hall Hinit Esel). }
  destruct (negb (bestWorkerResolved sel)); [intros [= <-]; discriminate|].
  intros [= <-]. cbn [fbwWorker fbwErr fbwSleep fbwWake fbwPieceIndex].
  intros Hw. repeat split. apply Hsel. exact Hw.
Qed.

Lemma findBestWorker_worker_position_witness :
  exists piece pd,
    In piece (availablePieces pdcInProgress) /\
    piece !! Z.to_nat 0 = Some pd /\ pdWorker pd = wC.
Proof.
  apply (findBestWorker_worker_position 200 pdcInProgress
           {| fbwWorker := Some wC; fbwPieceIndex := 0; fbwSleep := 0;
              fbwWake := false; fbwErr := None |} wC).
  - repeat constructor; simpl; unfold two64; lia.
  - vm_compute. reflexivity.
  - reflexivity.
Defined.

(** *** managedDownload *)

Lemma launchInitial_count launchWorker n : forall pdc calls,
  let r := launchInitial launchWorker n pdc calls in
  (calls <= mdLaunchCalls r <= calls + n)%nat /\
  (mdErr r = None <-> is_Some (mdChan r)).
Proof.
  induction n as [|n IH]; intros pdc calls; cbn [launchInitial].
  - cbn [mdLaunchCalls mdErr mdChan]. split; [lia|].
    split; [intros _; eexists; reflexivity|reflexivity].
  - destruct (launchWorker pdc) as [pdc' [e0|]] eqn:El.
    + cbn [mdLaunchCalls mdErr mdChan]. split; [lia|].
      split; [intros H; discriminate H|intros [x H]; discriminate H].
    + destruct (IH pdc' (S calls)) as (H1 & H2).
      split; [lia|exact H2].
Qed.

(** The run of the launch loop, told by the launches themselves: it goes
    through all [n] of them when none fails, and ends with the first one
    that does. *)
Lemma launchInitial_run launchWorker n : forall pdc calls,
  ((forall k, (k < n)%nat -> launchError launchWorker pdc k = None) ->
   launchInitial launchWorker n pdc calls =
     {| mdChan := Some (afterLaunches launchWorker n pdc); mdErr := None;
        mdBuilt := true; mdLaunchCalls := (calls + n)%nat |}) /\
  (forall k e,
     (k < n)%nat ->
     (forall j, (j < k)%nat -> launchError launchWorker pdc j = None) ->
     launchError launchWorker pdc k = Some e ->
     launchInitial launchWorker n pdc calls =
       {| mdChan := None;
          mdErr := Some (ErrAddContext e
                     "not enough workers to kick off the download");
          mdBuilt := true; mdLaunchCalls := (calls + S k)%nat |}).
Proof.
  unfold launchError.
  induction n as [|n IH]; intros pdc calls; cbn [launchInitial].
  - split; [intros _; rewrite Nat.add_0_r; reflexivity|].
    intros k e Hk. lia.
  - destruct (launchWorker pdc) as [pdc' [e0|]] eqn:El.
    + split.
      * intros Hall. specialize (Hall 0%nat ltac:(lia)).
        cbn [afterLaunches] in Hall. rewrite El in Hall. discriminate Hall.
      * intros [|k] e Hk Hbefore Hfail.
        -- cbn [afterLaunches] in Hfail. rewrite El in Hfail.
           injection Hfail as <-. rewrite Nat.add_1_r. reflexivity.
        -- specialize (Hbefore 0%nat ltac:(lia)).
           cbn [afterLaunches] in Hbefore. rewrite El in Hbefore.
           discriminate Hbefore.
    + destruct (IH pdc' (S calls)) as [IHok IHfail]. split.
      * intros Hall. cbn [afterLaunches]. rewrite El. cbn [fst].
        rewrite IHok; [rewrite Nat.add_succ_r; reflexivity|].
        intros k Hk. specialize (Hall (S k) ltac:(lia)).
        cbn [afterLaunches] in Hall. rewrite El in Hall. exact Hall.
      * intros [|k] e Hk Hbefore Hfail.
        -- cbn [afterLaunches] in Hfail. rewrite El in Hfail.
           discriminate Hfail.
        -- cbn [afterLaunches] in Hfail. rewrite El in Hfail.
           cbn [fst] in Hfail.
           rewrite (IHfail k e); [rewrite !Nat.add_succ_r; reflexivity
                                 |lia| |exact Hfail].
           intros j Hj. specialize (Hbefore (S j) ltac:(lia)).
           cbn [afterLaunches] in Hbefore. rewrite El in Hbefore.
           exact Hbefore.
Qed.

(** X9 — [managedDownload], for a key without encryption overhead and a
    request whose piece geometry can be computed, builds the download
    state and calls [launchWorker] up to [MinPieces] times.  When none of these
    launches fails it makes all [MinPieces] calls and returns the response
    channel of the state they leave, with no error.  When the launch after
    [k] successful ones is the first to fail, it makes no further call
    ([k + 1] in all) and returns that launch's error, with context added,
    and no channel. *)
Theorem managedDownload_launch_count
    (launchWorker : projectDownloadChunk -> projectDownloadChunk * option error)
    (pcws : projectChunkWorkerSet) (price offset length po pl : Z) :
  staticMasterKeyOverhead pcws = 0 ->
  getPieceOffsetAndLen (staticErasureCoder pcws) offset length
    = Some (po, pl) ->
  0 <= NumPieces (staticErasureCoder pcws) ->
  let n := Z.to_nat (MinPieces (staticErasureCoder pcws)) in
  let pdc0 :=
    {| chunkOffset := offset; chunkLength := length; pricePerMS := price;
       pieceOffset := po; pieceLength := pl;
       availablePieces :=
         replicate (Z.to_nat (NumPieces (staticErasureCoder pcws))) [];
       workersConsidered := ∅;
       dataPieces :=
         replicate (Z.to_nat (NumPieces (staticErasureCoder pcws))) None;
       workerSet := pcws |} in
  exists r,
    managedDownload launchWorker pcws price offset length = Some r /\
    (mdLaunchCalls r <= n)%nat /\
    (mdErr r = None <-> is_Some (mdChan r)) /\
    ((forall k, (k < n)%nat -> launchError launchWorker pdc0 k = None) ->
     r = {| mdChan := Some (afterLaunches launchWorker n pdc0);
            mdErr := None; mdBuilt := true; mdLaunchCalls := n |}) /\
    (forall k e,
       (k < n)%nat ->
       (forall j, (j < k)%nat -> launchError launchWorker pdc0 j = None) ->
       launchError launchWorker pdc0 k = Some e ->
       r = {| mdChan := None;
              mdErr := Some (ErrAddContext e
                         "not enough workers to kick off the download");
              mdBuilt := true; mdLaunchCalls := S k |}).
Proof.
  intros Hov Hgeo Hnum n pdc0. unfold managedDownload.
  rewrite Hov, Hgeo. cbn [Z.eqb negb andb mbind option_bind].
  destruct (Z.ltb_spec (NumPieces (staticErasureCoder pcws)) 0); [lia|].
  fold n. fold pdc0. eexists. split; [reflexivity|].
  destruct (launchInitial_count launchWorker n pdc0 0%nat) as (H1 & H2).
  destruct (launchInitial_run launchWorker n pdc0 0%nat) as (H3 & H4).
  split; [lia|]. split; [exact H2|]. split; [exact H3|exact H4].
Qed.

Lemma managedDownload_launch_count_witness :
  managedDownload launchFails ws_2_2 1 0 128 =
    Some {| mdChan := None;
            mdErr := Some (ErrAddContext
                             (ErrNew "unable to launch a new worker")
                             "not enough workers to kick off the download");
            mdBuilt := true; mdLaunchCalls := 1 |} /\
  exists pdc,
    managedDownload launchNoop ws_2_2 1 0 128 =
      Some {| mdChan := Some pdc; mdErr := None;
              mdBuilt := true; mdLaunchCalls := 2 |}.
Proof.
  split.
  - edestruct (managedDownload_launch_count launchFails ws_2_2 1 0 128)
      as (r & Hr & _ & _ & _ & Hfail);
      [reflexivity|reflexivity|simpl; lia|].
    rewrite Hr. f_equal.
    apply (Hfail 0%nat); [simpl; lia|intros j Hj; lia|reflexivity].
  - edestruct (managedDownload_launch_count launchNoop ws_2_2 1 0 128)
      as (r & Hr & _ & _ & Hok & _);
      [reflexivity|reflexivity|simpl; lia|].
    eexists. rewrite Hr. f_equal. apply Hok. intros k Hk. reflexivity.
Defined.

Lemma pieceScan_all_launched now piece : forall st,
  Forall (fun pd => launched pd = true) piece ->
  unlaunchedWorkerAvailable (fold_left (pieceScanStep now) piece st)
    = unlaunchedWorkerAvailable st.
Proof.
  induction piece as [|pd rest IH]; intros st Hall; [reflexivity|].
  apply Forall_cons in Hall. destruct Hall as [Hpd Hrest].
  cbn [fold_left]. rewrite IH by exact Hrest.
  unfold pieceScanStep. cbn [unlaunchedWorkerAvailable].
  rewrite Hpd. reflexivity.
Qed.

Lemma piecesScan_all_launched now pieces : forall st,
  allLaunched pieces ->
  unlaunchedWorkersAvailable (fold_left (piecesScanStep now) pieces st)
    = unlaunchedWorkersAvailable st.
Proof.
  induction pieces as [|piece rest IH]; intros st Hall; [reflexivity|].
  apply Forall_cons in Hall. destruct Hall as [Hp Hrest].
  cbn [fold_left]. rewrite (IH _ Hrest).
  unfold piecesScanStep. cbn [unlaunchedWorkersAvailable].
  rewrite pieceScan_all_launched by exact Hp.
  cbn [unlaunchedWorkerAvailable]. apply orb_false_r.
Qed.

(** X26 — [findBestWorker] hands out no worker when there is none left
    to launch: if every download entry of every piece has been launched
    and no worker is unresolved, the call returns either the
    not-enough-workers error or all-nil values — never a worker, a sleep
    time or a wake channel. *)
Theorem findBestWorker_nothing_left_to_launch
    (now : Time) (pdc : projectDownloadChunk) :
  allLaunched (availablePieces pdc) ->
  unresolvedWorkers (workerSet pdc) = [] ->
  exists e,
    findBestWorker now pdc =
      Some {| fbwWorker := None; fbwPieceIndex := 0; fbwSleep := 0;
              fbwWake := false; fbwErr := e |} /\
    (e = None \/ e = Some errNotEnoughWorkers).
Proof.
  intros Hall Hun. unfold findBestWorker. rewrite Hun.
  cbn [unresolvedLoop mbind option_bind length].
  destruct (_ <? MinPieces _).
  - eexists. split; [reflexivity|]. right. reflexivity.
  - rewrite (piecesScan_all_launched now _ _ Hall).
    cbn [unlaunchedWorkersAvailable negb andb Nat.eqb].
    eexists. split; [reflexivity|]. left. reflexivity.
Qed.

Lemma findBestWorker_nothing_left_to_launch_witness :
  exists e,
    findBestWorker 100 pdcAllLaunched =
      Some {| fbwWorker := None; fbwPieceIndex := 0; fbwSleep := 0;
              fbwWake := false; fbwErr := e |} /\
    (e = None \/ e = Some errNotEnoughWorkers).
Proof.
  apply (findBestWorker_nothing_left_to_launch 100 pdcAllLaunched).
  - repeat constructor.
  - reflexivity.
Defined.

End OrchestratorProps.

(** ** Job times and expected bandwidth *)

Module JobTimesFacts.
Import GoInt GoIntFacts Orchestrator HasSectorQueue HasSectorQueueFacts.
Import JobTimes.

(** *** ResolveTime.time *)

Lemma firstAhead_None passed ds i :
  firstAhead passed ds i = None ->
  forall (n : nat) d, ds !! n = Some d -> d <= passed.
Proof.
  revert i. induction ds as [|x rest IH]; intros i; simpl.
  - intros _ n d H. destruct n; discriminate.
  - destruct (Z.ltb_spec passed x); [discriminate|].
    intros Hn [|n] d; simpl.
    + intros [= <-]. assumption.
    + apply (IH _ Hn).
Qed.

(** X10 — [ResolveTime.time] on a non-empty list of durations never
    fails: it returns the start time plus the first duration that is
    still ahead of the time passed since the start, with that duration's
    index, and when every duration has passed it falls back to the last
    one. *)
Theorem resolveTimeTime_first_ahead (now : Time) (rt : ResolveTime) :
  times rt <> [] ->
  let passed := timeSub now (start rt) in
  exists (i : nat) d,
    resolveTimeTime now rt = Some (start rt + d, i) /\
    times rt !! i = Some d /\
    (forall (j : nat) dj,
        (j < i)%nat -> times rt !! j = Some dj -> dj <= passed) /\
    (passed < d \/ (i = length (times rt) - 1)%nat /\ d <= passed).
Proof.
  intros Hne passed. unfold resolveTimeTime.
  destruct (times rt) as [|t0 ts] eqn:Et; [contradiction|].
  rewrite <- Et. fold passed.
  destruct (firstAhead passed (times rt) 0) as [[d i]|] eqn:Ef.
  - apply firstAhead_first in Ef.
    destruct Ef as (n & -> & Hn & Hlt & Hbefore). cbn [Nat.add].
    exists n, d. split; [reflexivity|]. split; [exact Hn|].
    split; [exact Hbefore|]. left. exact Hlt.
  - pose proof (firstAhead_None _ _ _ Ef) as Hall.
    unfold jtMax.
    destruct (last (times rt)) as [m|] eqn:El.
    + cbn [mbind option_bind]. exists (length (times rt) - 1)%nat, m.
      rewrite last_lookup in El.
      replace (Nat.pred (length (times rt)))
        with (length (times rt) - 1)%nat in El by lia.
      split; [reflexivity|]. split; [exact El|].
      split; [intros j dj _ Hj; apply (Hall j dj Hj)|].
      right. split; [reflexivity|apply (Hall _ _ El)].
    + rewrite last_None in El. rewrite El in Et. discriminate.
Qed.

Lemma resolveTimeTime_first_ahead_witness :
  exists (i : nat) d,
    resolveTimeTime 13 {| start := 10; times := estimates |}
      = Some (10 + d, i) /\
    estimates !! i = Some d /\
    (forall (j : nat) dj,
        (j < i)%nat -> estimates !! j = Some dj -> dj <= timeSub 13 10) /\
    (timeSub 13 10 < d \/ (i = length estimates - 1)%nat /\ d <= timeSub 13 10).
Proof.
  apply (resolveTimeTime_first_ahead 13 {| start := 10; times := estimates |}).
  discriminate.
Defined.

(** *** ReadTime.Duration *)

Lemma resolveTimeTime_index_mono now1 now2 rt t1 i1 t2 i2 :
  now1 <= now2 -> times rt <> [] ->
  resolveTimeTime now1 rt = Some (t1, i1) ->
  resolveTimeTime now2 rt = Some (t2, i2) ->
  (i1 <= i2 < length (times rt))%nat.
Proof.
  intros Hnow Hne H1 H2.
  assert (Hp : timeSub now1 (start rt) <= timeSub now2 (start rt)).
  { unfold timeSub. lia. }
  destruct (resolveTimeTime_first_ahead now1 rt Hne)
    as (j1 & d1 & E1 & L1 & B1 & A1).
  destruct (resolveTimeTime_first_ahead now2 rt Hne)
    as (j2 & d2 & E2 & L2 & B2 & A2).
  rewrite H1 in E1. rewrite H2 in E2.
  injection E1 as _ ->. injection E2 as _ ->.
  pose proof (lookup_lt_Some _ _ _ L1) as Hl1.
  pose proof (lookup_lt_Some _ _ _ L2) as Hl2.
  split; [|exact Hl2].
  destruct (Nat.le_gt_cases j1 j2) as [Hle|Hgt]; [exact Hle|].
  exfalso. specialize (B1 j2 d2 Hgt L2).
  unfold timeSub, JobTime, Duration in *. destruct A2 as [A2|[A2 _]]; lia.
Qed.

Lemma ascendingb_ok jt : ascendingb jt = true -> ascending jt.
Proof.
  induction jt as [|x rest IH]; intros Hb i j a b Hij Hi Hj.
  - destruct i; discriminate.
  - destruct rest as [|y rest'].
    + destruct i as [|i]; [|destruct i; discriminate].
      destruct j as [|j]; [|destruct j; discriminate].
      simpl in Hi, Hj. injection Hi as <-. injection Hj as <-. lia.
    + cbn [ascendingb] in Hb. apply andb_true_iff in Hb.
      destruct Hb as [Hxy Hrest]. apply Z.leb_le in Hxy.
      specialize (IH Hrest).
      destruct i as [|i], j as [|j]; simpl in Hi, Hj.
      * injection Hi as <-. injection Hj as <-. lia.
      * injection Hi as <-.
        assert (y <= b) by (apply (IH 0%nat j y b); [lia|reflexivity|exact Hj]).
        lia.
      * lia.
      * apply (IH i j a b); [lia|exact Hi|exact Hj].
Qed.

(** X11 — the duration of a read job that waits for an unresolved job
    grows with the delay of that job: when the resolve time and the read
    time have equally many entries (at least one) and the read durations
    are in non-decreasing order, [ReadTime.Duration] returns a duration
    at both of two readings of the clock, and the later reading never
    gives the shorter one. *)
Theorem readTimeDuration_monotone (now1 now2 : Time) (rd : ReadTime) :
  times (rdResolve rd) <> [] ->
  length (rdTimes rd) = length (times (rdResolve rd)) ->
  ascending (rdTimes rd) ->
  now1 <= now2 ->
  exists d1 d2,
    readTimeDuration now1 rd = Some d1 /\
    readTimeDuration now2 rd = Some d2 /\
    d1 <= d2.
Proof.
  intros Hne Hlen Hasc Hnow. unfold readTimeDuration.
  destruct (resolveTimeTime_first_ahead now1 _ Hne)
    as (i1 & x1 & E1 & L1 & _).
  destruct (resolveTimeTime_first_ahead now2 _ Hne)
    as (i2 & x2 & E2 & L2 & _).
  destruct (resolveTimeTime_index_mono now1 now2 _ _ _ _ _ Hnow Hne E1 E2)
    as [Hle Hlt].
  rewrite E1, E2. cbn [mbind option_bind].
  destruct (lookup_lt_is_Some_2 (rdTimes rd) i1) as [d1 Hd1]; [lia|].
  destruct (lookup_lt_is_Some_2 (rdTimes rd) i2) as [d2 Hd2]; [lia|].
  exists d1, d2. split; [exact Hd1|]. split; [exact Hd2|].
  apply (Hasc i1 i2 d1 d2 Hle Hd1 Hd2).
Qed.

Lemma readTimeDuration_monotone_witness :
  exists d1 d2,
    readTimeDuration 11
      (rtReadTime {| start := 10; times := estimates |} readEstimates)
      = Some d1 /\
    readTimeDuration 14
      (rtReadTime {| start := 10; times := estimates |} readEstimates)
      = Some d2 /\
    d1 <= d2.
Proof.
  apply (readTimeDuration_monotone 11 14
           (rtReadTime {| start := 10; times := estimates |} readEstimates)).
  - discriminate.
  - reflexivity.
  - apply ascendingb_ok. reflexivity.
  - lia.
Defined.

(** *** AddToJobTime and Add *)

Lemma i64_add_i64_l x y : i64 (i64 x + y) = i64 (x + y).
Proof.
  unfold i64, two64.
  replace ((x + 2 ^ 63) mod 2 ^ 64 - 2 ^ 63 + y + 2 ^ 63)
    with ((x + 2 ^ 63) mod 2 ^ 64 + y) by lia.
  rewrite Z.add_mod_idemp_l by lia. f_equal. f_equal. lia.
Qed.

Lemma addToJobTimeLoop_spec d jt : forall n (i : nat) jtNew,
  (i + n = length jt)%nat -> length jtNew = length jt ->
  addToJobTimeLoop n i jt jtNew d =
    Some (take i jtNew ++ map (fun t => i64 (t + d)) (drop i jt)).
Proof.
  induction n as [|n IH]; intros i jtNew Hin Hlen; cbn [addToJobTimeLoop].
  - rewrite drop_ge by lia. rewrite take_ge by lia.
    rewrite app_nil_r. reflexivity.
  - unfold JobTime, Duration in *.
    destruct (lookup_lt_is_Some_2 jt i) as [t Ht]; [lia|].
    rewrite Ht. cbn [mbind option_bind].
    destruct (Nat.leb_spec (length jtNew) i) as [?|_]; [lia|].
    rewrite IH by (rewrite ?length_insert; lia).
    f_equal. rewrite (drop_S jt t i Ht). cbn [map].
    rewrite take_S_r with (x := i64 (t + d))
      by (apply list_lookup_insert_eq; lia).
    rewrite take_insert_ge by lia. rewrite <- app_assoc. reflexivity.
Qed.

(** X12 — [JobTime.AddToJobTime] never indexes out of range: it returns
    a list of the same length in which every duration is the old one
    plus [d] (in [int64] arithmetic), and adding [d1] and then [d2] gives
    what adding [d1 + d2] gives. *)
Theorem jtAddToJobTime_pointwise_and_compose (jt : JobTime) (d1 d2 : Duration) :
  jtAddToJobTime jt d1 = Some (map (fun t => i64 (t + d1)) jt) /\
  (jt1 ← jtAddToJobTime jt d1; jtAddToJobTime jt1 d2)
    = jtAddToJobTime jt (i64 (d1 + d2)).
Proof.
  assert (Hspec : forall l d,
            jtAddToJobTime l d = Some (map (fun t => i64 (t + d)) l)).
  { intros l d. unfold jtAddToJobTime.
    rewrite addToJobTimeLoop_spec
      by (rewrite ?length_replicate; reflexivity || lia).
    rewrite take_0, drop_0. reflexivity. }
  split; [apply Hspec|].
  rewrite !Hspec. cbn [mbind option_bind]. rewrite Hspec.
  f_equal. rewrite map_map. apply map_ext. intros t.
  rewrite i64_add_i64_l.
  rewrite (Z.add_comm t (i64 (d1 + d2))), i64_add_i64_l.
  f_equal. lia.
Qed.

Lemma addLoop_spec : forall jt (i : nat) ts,
  (i + length jt = length ts)%nat ->
  addLoop jt i ts =
    Some (take i ts ++ zip_with (fun a b => i64 (a + b)) (drop i ts) jt).
Proof.
  induction jt as [|t rest IH]; intros i ts Hlen; cbn [addLoop].
  - cbn [length] in Hlen. rewrite drop_ge by lia. rewrite take_ge by lia.
    rewrite app_nil_r. reflexivity.
  - cbn [length] in Hlen. unfold JobTime, Duration in *.
    destruct (lookup_lt_is_Some_2 ts i) as [x Hx]; [lia|].
    rewrite Hx. cbn [mbind option_bind].
    rewrite IH by (rewrite length_insert; lia). f_equal.
    rewrite (drop_S ts x i Hx). cbn [zip_with].
    rewrite take_S_r with (x := i64 (x + t))
      by (apply list_lookup_insert_eq; lia).
    rewrite take_insert_ge by lia. rewrite <- app_assoc.
    rewrite drop_insert_lt by lia. reflexivity.
Qed.

(** X13 — [ResolveTime.Add] never indexes out of range.  When the two
    lists of durations differ in length it returns the receiver
    unchanged; otherwise it keeps the start time and adds the durations
    entry by entry (in [int64] arithmetic). *)
Theorem rtAdd_spec (rt : ResolveTime) (jt : JobTime) :
  rtAdd rt jt =
    Some (if (length (times rt) =? length jt)%nat
          then {| start := start rt;
                  times := zip_with (fun a b => i64 (a + b)) (times rt) jt |}
          else rt).
Proof.
  unfold rtAdd.
  destruct (Nat.eqb_spec (length (times rt)) (length jt)) as [Hlen|Hne];
    cbn [negb]; [|reflexivity].
  cbn [app]. rewrite addLoop_spec by (simpl; lia).
  rewrite take_0, drop_0. reflexivity.
Qed.

(** *** Expected bandwidth *)

Lemma closestMultipleOf_ceil n m :
  0 < m -> 0 <= n -> n + m <= MaxInt64 ->
  closestMultipleOf n m = (n + m - 1) / m * m.
Proof.
  intros Hm Hn Hb. unfold closestMultipleOf.
  rewrite Z.rem_mod_nonneg by lia.
  pose proof (Z.mod_pos_bound n m Hm) as Hmod.
  pose proof (Z.div_mod n m ltac:(lia)) as Hdm.
  destruct (Z.eqb_spec (n mod m) 0) as [E|E]; cbn [negb].
  - assert (Hq : (n + m - 1) / m = n / m).
    { symmetry. apply (Z.div_unique _ _ _ (m - 1)); lia. }
    rewrite Hq. lia.
  - assert (Hq : (n + m - 1) / m = n / m + 1).
    { symmetry. apply (Z.div_unique _ _ _ (n mod m - 1)); lia. }
    rewrite Hq.
    unfold MaxInt64 in Hb.
    rewrite (i64_small (m - n mod m)) by (unfold MinInt64, MaxInt64; lia).
    rewrite i64_small by (unfold MinInt64, MaxInt64; lia). lia.
Qed.

Lemma hasSectorJobExpectedBandwidth_eq n :
  0 <= n -> 1500 * (n + 15) <= MaxInt64 ->
  hasSectorJobExpectedBandwidth n
    = (1500 * ((n + 14) / 15), 1500 * ((n + 9) / 10)).
Proof.
  intros Hn Hb. unfold hasSectorJobExpectedBandwidth.
  rewrite !closestMultipleOf_ceil by lia.
  replace (n + 10 - 1) with (n + 9) by lia.
  replace (n + 15 - 1) with (n + 14) by lia.
  assert (H10 : 0 <= (n + 9) / 10 <= n + 9).
  { split; [apply Z.div_pos; lia|]. apply Z.div_le_upper_bound; lia. }
  assert (H15 : 0 <= (n + 14) / 15 <= n + 14).
  { split; [apply Z.div_pos; lia|]. apply Z.div_le_upper_bound; lia. }
  rewrite !Z.quot_div_nonneg by lia.
  rewrite !Z.div_mul by lia.
  unfold MaxInt64 in Hb.
  rewrite !i64_small by (unfold MinInt64, MaxInt64; lia).
  rewrite !u64_small by (unfold two64; lia). reflexivity.
Qed.

(** X14 — the expected bandwidth of a HasSector job is one 1500-byte
    packet per started group of 15 roots on upload and per started group
    of 10 roots on download: for [n] roots, [(1500 * ceil(n/15),
    1500 * ceil(n/10))]. *)
Theorem hasSectorJobExpectedBandwidth_packets (n : Z) :
  0 <= n -> 1500 * (n + 15) <= MaxInt64 ->
  hasSectorJobExpectedBandwidth n
    = (1500 * ((n + 14) / 15), 1500 * ((n + 9) / 10)) /\
  (n = 0 -> hasSectorJobExpectedBandwidth n = (0, 0)) /\
  (1 <= n <= 10 -> hasSectorJobExpectedBandwidth n = (1500, 1500)).
Proof.
  intros Hn Hb. rewrite hasSectorJobExpectedBandwidth_eq by assumption.
  split; [reflexivity|]. split.
  - intros ->. reflexivity.
  - intros Hr.
    assert (H15 : (n + 14) / 15 = 1).
    { symmetry. apply (Z.div_unique _ _ _ (n - 1)); lia. }
    assert (H10 : (n + 9) / 10 = 1).
    { symmetry. apply (Z.div_unique _ _ _ (n - 1)); lia. }
    rewrite H15, H10. reflexivity.
Qed.

Lemma hasSectorJobExpectedBandwidth_packets_witness :
  hasSectorJobExpectedBandwidth 13 = (1500 * ((13 + 14) / 15),
                                      1500 * ((13 + 9) / 10)).
Proof.
  apply (hasSectorJobExpectedBandwidth_packets 13).
  - lia.
  - unfold MaxInt64. lia.
Defined.

Lemma totalSectorsLoop_sum batch : forall acc,
  0 <= acc ->
  acc + Z.of_nat (length (batchProgram batch)) <= MaxInt64 ->
  totalSectorsLoop batch acc = acc + Z.of_nat (length (batchProgram batch)).
Proof.
  induction batch as [|j rest IH]; intros acc Hacc Hb; cbn [totalSectorsLoop].
  - unfold batchProgram. simpl. lia.
  - unfold batchProgram in *. cbn [flat_map] in *.
    rewrite length_app in *.
    rewrite i64_small by (unfold MinInt64, MaxInt64 in *; lia).
    rewrite IH by lia. lia.
Qed.

Lemma ceil_div_subadditive a b m :
  0 < m -> 0 <= a -> 0 <= b ->
  (a + b + (m - 1)) / m <= (a + (m - 1)) / m + (b + (m - 1)) / m.
Proof.
  intros Hm Ha Hb.
  pose proof (Z.div_mod (a + (m - 1)) m ltac:(lia)) as Ea.
  pose proof (Z.mod_pos_bound (a + (m - 1)) m Hm) as Ma.
  pose proof (Z.div_mod (b + (m - 1)) m ltac:(lia)) as Eb.
  pose proof (Z.mod_pos_bound (b + (m - 1)) m Hm) as Mb.
  apply Z.lt_succ_r. apply Z.div_lt_upper_bound; [lia|]. nia.
Qed.

Lemma sumBandwidth_ge batch :
  1500 * (Z.of_nat (length (batchProgram batch)) + 15) <= MaxInt64 ->
  1500 * ((Z.of_nat (length (batchProgram batch)) + 14) / 15)
    <= fst (sumBandwidth batch) /\
  1500 * ((Z.of_nat (length (batchProgram batch)) + 9) / 10)
    <= snd (sumBandwidth batch).
Proof.
  induction batch as [|j rest IH]; intros Hb.
  - unfold batchProgram. simpl. split; reflexivity.
  - unfold batchProgram in *. cbn [flat_map] in *.
    rewrite length_app in *. rewrite Nat2Z.inj_add in *.
    cbn [sumBandwidth fold_right]. fold (sumBandwidth rest).
    cbn [fst snd]. unfold jobExpectedBandwidth.
    rewrite hasSectorJobExpectedBandwidth_eq by lia. cbn [fst snd].
    destruct IH as [IH1 IH2]; [lia|].
    set (a := Z.of_nat (length (staticSectors j))) in *.
    set (b := Z.of_nat (length (flat_map staticSectors rest))) in *.
    pose proof (ceil_div_subadditive a b 15 ltac:(lia) ltac:(lia) ltac:(lia)).
    pose proof (ceil_div_subadditive a b 10 ltac:(lia) ltac:(lia) ltac:(lia)).
    replace (a + b + 14) with (a + b + (15 - 1)) by lia.
    replace (a + b + 9) with (a + b + (10 - 1)) by lia.
    replace (a + 14) with (a + (15 - 1)) by lia.
    replace (a + 9) with (a + (10 - 1)) by lia.
    replace (b + 14) with (b + (15 - 1)) in IH1 by lia.
    replace (b + 9) with (b + (10 - 1)) in IH2 by lia.
    lia.
Qed.

(** X15 — batching never costs bandwidth: the expected upload and
    download bandwidth of a batch of HasSector jobs, computed from the
    total number of roots, is at most the sum of the expected bandwidths
    of its jobs taken one by one. *)
Theorem batchExpectedBandwidth_le_sum (batch : jobHasSectorBatch) :
  1500 * (Z.of_nat (length (batchProgram batch)) + 15) <= MaxInt64 ->
  fst (batchExpectedBandwidth batch) <= fst (sumBandwidth batch) /\
  snd (batchExpectedBandwidth batch) <= snd (sumBandwidth batch).
Proof.
  intros Hb. unfold batchExpectedBandwidth.
  rewrite totalSectorsLoop_sum by lia. rewrite Z.add_0_l.
  rewrite hasSectorJobExpectedBandwidth_eq by lia. cbn [fst snd].
  apply sumBandwidth_ge. exact Hb.
Qed.

Lemma batchExpectedBandwidth_le_sum_witness :
  fst (batchExpectedBandwidth batch2) <= fst (sumBandwidth batch2) /\
  snd (batchExpectedBandwidth batch2) <= snd (sumBandwidth batch2).
Proof.
  apply (batchExpectedBandwidth_le_sum batch2).
  vm_compute. discriminate.
Defined.

End JobTimesFacts.

(** ** The HasSector queue, further *)

Module HasSectorQueueProps.
Import GoInt GoIntFacts Orchestrator HasSectorQueue HasSectorQueueFacts.

(** *** callNext *)

Lemma callNextLoop_rest fuel : forall q batch,
  (length batch <= hasSectorBatchSize)%nat ->
  (hasSectorBatchSize - length batch < fuel)%nat ->
  exists q',
    callNextLoop fuel q batch =
      Some (batch ++ take (hasSectorBatchSize - length batch) (live (jobs q)),
            q') /\
    live (jobs q') = drop (hasSectorBatchSize - length batch) (live (jobs q)) /\
    killed q' = killed q /\ cooldownUntil q' = cooldownUntil q.
Proof.
  induction fuel as [|fuel IH]; intros q batch Hle Hfuel; [lia|].
  cbn [callNextLoop].
  destruct (hasSectorBatchSize <=? length batch)%nat eqn:E.
  - apply Nat.leb_le in E.
    replace (hasSectorBatchSize - length batch)%nat with 0%nat by lia.
    rewrite take_0, app_nil_r, drop_0. exists q. repeat split.
  - apply Nat.leb_gt in E. unfold genericCallNext.
    pose proof (popNext_live (jobs q)) as Hpop.
    destruct (popNext (jobs q)) as [[j|] rest].
    + destruct (IH {| jobs := rest; killed := killed q;
                      cooldownUntil := cooldownUntil q |} (batch ++ [j]))
        as (q' & Hq' & Hlive & Hk & Hc).
      * rewrite length_app. simpl. lia.
      * rewrite length_app. simpl. lia.
      * exists q'. rewrite Hq'. cbn [jobs killed cooldownUntil] in *.
        rewrite Hpop. rewrite length_app in *. cbn [length] in *.
        replace (hasSectorBatchSize - length batch)%nat
          with (S (hasSectorBatchSize - (length batch + 1)))%nat by lia.
        cbn [take drop]. rewrite <- app_assoc.
        split; [reflexivity|]. split; [exact Hlive|].
        split; assumption.
    + destruct Hpop as [Hlive ->]. rewrite Hlive, take_nil, app_nil_r.
      eexists. split; [reflexivity|]. cbn [jobs killed cooldownUntil].
      rewrite drop_nil. repeat split.
Qed.

(** X16 — [callNext] loses no job and keeps the queue order: the batch
    it returns, followed by the jobs that are still in the queue and not
    cancelled, is the list of the jobs that were in the queue and not
    cancelled.  It returns [nil] exactly when no such job was queued, and
    it leaves the estimates, the kill flag and the cool-down of the queue
    as they were. *)
Theorem callNext_partitions_queue (fuel : nat) (jq : jobHasSectorQueue) :
  (hasSectorBatchSize < fuel)%nat ->
  exists r jq',
    callNext fuel jq = Some (r, jq') /\
    default [] r ++ live (jobs (generic jq')) = live (jobs (generic jq)) /\
    (r = None <-> live (jobs (generic jq)) = []) /\
    staticDT jq' = staticDT jq /\
    killed (generic jq') = killed (generic jq) /\
    cooldownUntil (generic jq') = cooldownUntil (generic jq).
Proof.
  intros Hfuel. unfold callNext.
  destruct (callNextLoop_rest fuel (generic jq) [])
    as (q' & Hq' & Hlive & Hk & Hc);
    [simpl; unfold hasSectorBatchSize; lia
    |unfold hasSectorBatchSize in *; simpl; lia|].
  rewrite Hq'. cbn [length app mbind option_bind] in *.
  rewrite Nat.sub_0_r in *.
  eexists _, _. split; [reflexivity|].
  cbn [generic set_generic staticDT].
  set (l := live (jobs (generic jq))) in *.
  split; [|split; [|split; [reflexivity|split; assumption]]].
  - rewrite Hlive.
    destruct (take hasSectorBatchSize l) as [|j rest] eqn:Et.
    + cbn [default app].
      destruct l as [|x l']; [rewrite drop_nil; reflexivity|].
      unfold hasSectorBatchSize in Et. discriminate.
    + cbn [default]. rewrite <- Et. apply take_drop.
  - destruct l as [|x l'].
    + rewrite take_nil. split; reflexivity.
    + unfold hasSectorBatchSize. cbn [take]. split; discriminate.
Qed.

Lemma callNext_partitions_queue_witness :
  exists r jq',
    callNext 14 jqReady = Some (r, jq') /\
    default [] r ++ live (jobs (generic jq')) = live (jobs (generic jqReady)) /\
    (r = None <-> live (jobs (generic jqReady)) = []) /\
    staticDT jq' = staticDT jqReady /\
    killed (generic jq') = killed (generic jqReady) /\
    cooldownUntil (generic jq') = cooldownUntil (generic jqReady).
Proof.
  apply (callNext_partitions_queue 14 jqReady).
  unfold hasSectorBatchSize. lia.
Defined.

Lemma live_app js1 js2 : live (js1 ++ js2) = live js1 ++ live js2.
Proof. unfold live. apply List.filter_app. Qed.

(** X17 — a job accepted by [callAddWithEstimate] is handed out by the
    next [callNext]: when fewer than 13 jobs are waiting, the batch is the
    waiting jobs in their order followed by the new job, stamped with the
    time it was added, and the queue is drained. *)
Theorem callAddWithEstimate_then_callNext
    (now : Time) (jq : jobHasSectorQueue) (j : jobHasSector)
    (maxEstimate m : Duration) (fuel : nat) :
  jtMax (expectedJobTime jq) = Some m -> m <= maxEstimate ->
  killed (generic jq) = false -> onCooldown now (generic jq) = false ->
  jobCanceled j = false ->
  (length (live (jobs (generic jq))) < hasSectorBatchSize)%nat ->
  (hasSectorBatchSize < fuel)%nat ->
  exists rt jq1 jq2,
    callAddWithEstimate now jq j maxEstimate = Some (rt, None, jq1) /\
    callNext fuel jq1 =
      Some (Some (live (jobs (generic jq))
                  ++ [set_externJobStartTime j now]), jq2) /\
    live (jobs (generic jq2)) = [].
Proof.
  intros Hm Hle Hk Hc Hj Hlen Hfuel.
  set (q1 := {| jobs := jobs (generic jq) ++ [set_externJobStartTime j now];
                killed := killed (generic jq);
                cooldownUntil := cooldownUntil (generic jq) |}).
  assert (Hadd : callAddWithEstimate now jq j maxEstimate
                 = Some (jtResolveTime (expectedJobTime jq) now, None,
                         set_generic jq q1)).
  { unfold callAddWithEstimate. rewrite Hm. cbn [mbind option_bind].
    destruct (Z.ltb_spec maxEstimate m) as [?|_]; [lia|].
    unfold genericAdd.
    destruct (killed (generic jq) || onCooldown now (generic jq)) eqn:E;
      [rewrite Hk, Hc in E; discriminate|].
    reflexivity. }
  assert (Hjobs : live (jobs q1)
                  = live (jobs (generic jq)) ++ [set_externJobStartTime j now]).
  { unfold q1. cbn [jobs]. rewrite live_app. f_equal.
    unfold live. cbn [List.filter set_externJobStartTime jobCanceled].
    rewrite Hj. reflexivity. }
  assert (Hl : (length (live (jobs q1)) <= hasSectorBatchSize)%nat).
  { rewrite Hjobs, length_app. simpl. lia. }
  destruct (callNextLoop_rest fuel q1 []) as (q' & Hq' & Hlive & _);
    [simpl; unfold hasSectorBatchSize; lia
    |unfold hasSectorBatchSize in *; simpl; lia|].
  cbn [length app] in Hq', Hlive. rewrite Nat.sub_0_r in Hq', Hlive.
  rewrite take_ge in Hq' by exact Hl.
  rewrite drop_ge in Hlive by exact Hl.
  exists (jtResolveTime (expectedJobTime jq) now), (set_generic jq q1),
         (set_generic (set_generic jq q1) q').
  split; [exact Hadd|]. split; [|exact Hlive].
  unfold callNext. cbn [generic set_generic]. rewrite Hq'.
  cbn [mbind option_bind]. rewrite Hjobs.
  destruct (live (jobs (generic jq)) ++ [set_externJobStartTime j now])
    as [|x l] eqn:E; [|reflexivity].
  destruct (live (jobs (generic jq))); discriminate.
Qed.

Lemma callAddWithEstimate_then_callNext_witness :
  exists rt jq1 jq2,
    callAddWithEstimate 10 jqReady (mkJob 5 []) 100 = Some (rt, None, jq1) /\
    callNext 14 jq1 =
      Some (Some (live (jobs (generic jqReady))
                  ++ [set_externJobStartTime (mkJob 5 []) 10]), jq2) /\
    live (jobs (generic jq2)) = [].
Proof.
  apply (callAddWithEstimate_then_callNext 10 jqReady (mkJob 5 []) 100 7 14).
  - reflexivity.
  - lia.
  - reflexivity.
  - reflexivity.
  - reflexivity.
  - vm_compute. lia.
  - unfold hasSectorBatchSize. lia.
Defined.

(** *** managedHasSector *)

Lemma sliceResults_total batch : forall hs acc,
  length hs = length (batchProgram batch) ->
  sliceResults batch hs acc = Some (acc ++ cut batch hs).
Proof.
  induction batch as [|j rest IH]; intros hs acc Hlen; cbn [sliceResults cut].
  - rewrite app_nil_r. reflexivity.
  - unfold batchProgram in *. cbn [flat_map] in Hlen.
    rewrite length_app in Hlen.
    destruct (Nat.ltb_spec (length hs) (length (staticSectors j)));
      [lia|].
    rewrite IH by (rewrite length_drop; lia).
    rewrite <- app_assoc. reflexivity.
Qed.

(** X18 — [managedHasSector] never slices out of range.  When the host
    answers a non-empty batch with responses that each carry an output
    and no error, the call returns: with one slice of the bit-vector per
    job, taken in order and as long as the job's list of roots, when
    there are as many responses as roots asked for, and with the
    invalid-number-of-responses error otherwise. *)
Theorem managedHasSector_total
    (exec : list Hash -> error + list programResponse)
    (batch : jobHasSectorBatch) (responses : list programResponse) :
  batch <> [] ->
  exec (batchProgram batch) = inr responses ->
  Forall goodResponse responses ->
  managedHasSector exec batch =
    Some (if (length responses =? length (batchProgram batch))%nat
          then inr (cut batch (map isAvailable responses))
          else inl (ErrNew
                 "received invalid number of responses but no error")).
Proof.
  intros Hne Hexec Hall. unfold managedHasSector.
  destruct batch as [|j0 rest0] eqn:Eb; [contradiction|].
  rewrite <- Eb in *.
  rewrite Hexec, (parseResponses_good responses [] Hall).
  cbn [mbind option_bind app].
  destruct (Nat.eqb_spec (length responses) (length (batchProgram batch)))
    as [Hlen|Hlen]; cbn [negb]; [|reflexivity].
  rewrite sliceResults_total by (rewrite length_map; exact Hlen).
  reflexivity.
Qed.

Lemma managedHasSector_total_witness :
  managedHasSector hostAnswers batch2 =
    Some (inr [[true; false]; [false; true; true]]).
Proof.
  apply (managedHasSector_total hostAnswers batch2
           (map (fun root =>
                   {| respError := None;
                      respOutput := match root with
                                    | b :: _ => [b]
                                    | [] => [Byte.x00]
                                    end |}) (batchProgram batch2))).
  - discriminate.
  - reflexivity.
  - repeat constructor; discriminate.
Defined.

End HasSectorQueueProps.

(** ** Subtree readers and range proofs, further *)

Module MerkleReaderFacts.
Import GoInt GoIntFacts MerkleRange MerkleRangeFacts MerkleWrappers.

Ltac Zify.zify_post_hook ::= Z.div_mod_to_equations.

(** The bounds the sector lemmas are stated with. *)
Lemma sector_bounds sum data sz :
  (0 < sz)%nat -> Z.of_nat sz * totalLeaves data sz <= MaxInt64 ->
  totalLeaves data sz = Z.of_nat (length (leafHashes sum sz data)) /\
  (length (leafHashes sum sz data) < 2 ^ 63)%nat /\
  Z.of_nat sz * Z.of_nat (length (leafHashes sum sz data)) <= MaxInt64.
Proof.
  intros Hsz Hbytes.
  rewrite (totalLeaves_leavesOf sz data Hsz) in *.
  rewrite <- (length_leafHashes sum) in *.
  split; [reflexivity|]. split; [|exact Hbytes].
  apply Nat2Z.inj_lt. rewrite pow2_63_nat_Z. unfold MaxInt64 in Hbytes. nia.
Qed.

Lemma pow2_lt_63 (h : nat) : (2 ^ h < 2 ^ 63)%nat -> (h < 63)%nat.
Proof.
  intros H. destruct (Nat.lt_ge_cases h 63) as [?|Hge]; [assumption|].
  assert (2 ^ 63 <= 2 ^ h)%nat by (apply Nat.pow_le_mono_r; lia). lia.
Qed.

(** *** NextSubtreeRoot *)

(** X19 — [NextSubtreeRoot(2^h)], called where at least [2^h] leaves are
    left in the sector, returns the root of the balanced binary tree over
    the next [2^h] leaf hashes and moves the reader on by [2^h] leaves. *)
Theorem NextSubtreeRoot_full_subtree
    (sum : list Byte.byte -> Digest) (data : list Byte.byte) (sz : nat)
    (pos h : nat) :
  (0 < sz)%nat -> Z.of_nat sz * totalLeaves data sz <= MaxInt64 ->
  Z.of_nat (pos + 2 ^ h) <= totalLeaves data sz ->
  NextSubtreeRoot sum (readerAt data sz pos) (2 ^ Z.of_nat h) =
    Some (inr (fullRoot sum h (drop pos (leafHashes sum sz data))),
          readerAt data sz (pos + 2 ^ h)).
Proof.
  intros Hsz Hbytes Hfit.
  destruct (sector_bounds sum data sz Hsz Hbytes) as (HN' & HN & _).
  rewrite HN' in Hfit. apply Nat2Z.inj_le in Hfit.
  pose proof (pow2_pos_nat h) as Hpos.
  assert (Hh : (h < 63)%nat) by (apply pow2_lt_63; lia).
  replace (2 ^ Z.of_nat h) with (Z.of_nat (2 ^ h))
    by (rewrite Nat2Z.inj_pow; reflexivity).
  destruct (NextSubtreeRoot_spec sum data sz Hsz HN pos (2 ^ h))
    as (res & HNext & _ & Hres).
  rewrite HNext. destruct Hres as (s & HR & ->); [lia|].
  rewrite Nat.min_l in HR by lia.
  rewrite (Root_full sum _ s h HR) by lia. reflexivity.
Qed.

Lemma NextSubtreeRoot_full_subtree_witness :
  NextSubtreeRoot toySum (readerAt toySector 2 4) (2 ^ Z.of_nat 2) =
    Some (inr (fullRoot toySum 2 (drop 4 (leafHashes toySum 2 toySector))),
          readerAt toySector 2 (4 + 2 ^ 2)).
Proof.
  apply (NextSubtreeRoot_full_subtree toySum toySector 2 4 2).
  - lia.
  - vm_compute. discriminate.
  - vm_compute. discriminate.
Defined.

Lemma leaves_cover sz r :
  (0 < sz)%nat -> (length r <= length (leavesOf sz r) * sz)%nat.
Proof.
  intros Hsz. rewrite length_leavesOf by exact Hsz.
  pose proof (Nat.Div0.div_mod (length r + sz - 1) sz) as Hd.
  pose proof (Nat.mod_upper_bound (length r + sz - 1) sz ltac:(lia)) as Hm.
  nia.
Qed.

(** X20 — at the end of the stream [NextSubtreeRoot] returns the root of
    the leaves that are left: asking for at least as many leaves as the
    reader still holds gives the same result as asking for exactly those,
    and leaves the reader exhausted; on a reader with no data it returns
    [io.EOF]. *)
Theorem NextSubtreeRoot_at_end_of_stream
    (sum : list Byte.byte -> Digest) (r : list Byte.byte) (sz n : nat) :
  (0 < sz)%nat -> (length (leavesOf sz r) <= n)%nat ->
  NextSubtreeRoot sum (NewSubtreeReader r sz) (Z.of_nat n) =
    NextSubtreeRoot sum (NewSubtreeReader r sz) (totalLeaves r sz) /\
  (forall res sr',
      NextSubtreeRoot sum (NewSubtreeReader r sz) (Z.of_nat n)
        = Some (res, sr') -> srData sr' = []) /\
  (r = [] ->
   NextSubtreeRoot sum (NewSubtreeReader r sz) (Z.of_nat n) =
     Some (inl ioEOF, NewSubtreeReader [] sz)).
Proof.
  intros Hsz Hn. pose proof (leaves_cover sz r Hsz) as Hcover.
  rewrite (totalLeaves_leavesOf sz r Hsz).
  unfold NextSubtreeRoot, NewSubtreeReader. cbn [srData srLeafSize].
  rewrite !Nat2Z.id, !(readSubtree_spec sum _ sz Hsz).
  assert (Hd1 : drop (n * sz) r = []) by (apply drop_ge; nia).
  assert (Hd2 : drop (length (leavesOf sz r) * sz) r = [])
    by (apply drop_ge; lia).
  rewrite Hd1, Hd2, !take_ge by lia.
  split; [reflexivity|]. split.
  - intros res sr'.
    destruct (appendAll sum NewStack (map (leafHash sum) (leavesOf sz r)))
      as [s|]; [|discriminate]. cbn [mbind option_bind].
    destruct (NumNodes s =? 0); intros [= _ <-]; reflexivity.
  - intros ->. reflexivity.
Qed.

Lemma NextSubtreeRoot_at_end_of_stream_witness :
  NextSubtreeRoot toySum (NewSubtreeReader toySector 2) (Z.of_nat 16) =
    NextSubtreeRoot toySum (NewSubtreeReader toySector 2)
      (totalLeaves toySector 2).
Proof.
  apply (NextSubtreeRoot_at_end_of_stream toySum toySector 2 16).
  - lia.
  - vm_compute. lia.
Defined.

(** *** Proofs for the whole sector *)

(** X21 — the proof for the range of all leaves of a sector is empty:
    [BuildRangeProof] from leaf 0 to the number of leaves returns no
    hashes. *)
Theorem BuildRangeProof_whole_sector
    (sum : list Byte.byte -> Digest) (data : list Byte.byte) (sz : nat)
    (fuel : nat) :
  (0 < sz)%nat -> Z.of_nat sz * totalLeaves data sz <= MaxInt64 ->
  0 < totalLeaves data sz -> (64 < fuel)%nat ->
  BuildRangeProof sum fuel 0 (totalLeaves data sz) (NewSubtreeReader data sz)
    = Some (inr []).
Proof.
  intros Hsz Hbytes Hpos Hfuel.
  destruct (sector_bounds sum data sz Hsz Hbytes) as (HN' & HN & Hb).
  rewrite HN' in *. set (N := length (leafHashes sum sz data)) in *.
  assert (Hab : (0 < N)%nat) by lia.
  assert (HbN : (N <= N)%nat) by lia.
  assert (H0 : (0 / 2 ^ 64 * 2 ^ 64 = 0)%nat).
  { rewrite Nat.Div0.div_0_l. reflexivity. }
  pose proof (buildLeft_spec sum data sz Hsz HN 0 N Hab HbN 64
                ltac:(lia) fuel [] Hfuel) as HL.
  rewrite H0 in HL.
  rewrite (leftProof_nil sum data sz Hsz HN 0 N Hab HbN 64) in HL
    by apply Nat.Div0.mod_0_l.
  destruct (Skip_readerAt sum data sz Hsz HN Hb 0 N ltac:(lia))
    as (e & HSkip & He).
  pose proof (illegalRange_ok sum data sz Hsz HN 0 N Hab HbN) as Hlegal.
  change (Z.of_nat 0) with 0 in HL, HSkip, Hlegal.
  unfold BuildRangeProof. rewrite Hlegal.
  change (shl1_u64 63) with (sizeAt 64).
  change (NewSubtreeReader data sz) with (readerAt data sz 0).
  rewrite HL. cbn [mbind option_bind app].
  rewrite Z.sub_0_r, HSkip.
  assert (Hskiperr : negb (bool_decide (e = None)) && negb (isEOF e) = false).
  { destruct He as [->| ->].
    - rewrite bool_decide_eq_true_2 by reflexivity. reflexivity.
    - rewrite isEOF_EOF. apply andb_false_r. }
  rewrite Hskiperr. cbn [Nat.add].
  change (u64 (Z.of_nat N - 1)) with (buildMask N).
  change 1 with (2 ^ Z.of_nat 0).
  apply (buildRight_eof sum data sz Hsz HN 0 N Hab HbN 63 0 [] N); lia.
Qed.

Lemma BuildRangeProof_whole_sector_witness :
  BuildRangeProof toySum 65 0 (totalLeaves toySector 2)
    (NewSubtreeReader toySector 2) = Some (inr []).
Proof.
  apply (BuildRangeProof_whole_sector toySum toySector 2 65).
  - lia.
  - vm_compute. discriminate.
  - vm_compute. reflexivity.
  - lia.
Defined.

(** *** The wrappers *)

(** X22 — the round trip through the wrappers: a proof built by
    [BuildReaderRangeProof] from the bytes of a sector is accepted by
    [VerifyRangeProof] against the bytes of the leaves of the range and
    the Merkle root of the sector. *)
Theorem reader_proof_accepted_by_VerifyRangeProof
    (sum : list Byte.byte -> Digest) (data : list Byte.byte) (sz : nat)
    (a b : Z) (fuel fuelV : nat) :
  (0 < sz)%nat ->
  Z.of_nat sz * totalLeaves data sz <= MaxInt64 ->
  0 <= a < b -> b <= totalLeaves data sz ->
  (64 < fuel)%nat -> (63 <= fuelV)%nat ->
  exists proof root,
    BuildReaderRangeProof sum fuel data sz a b = Some (inr proof) /\
    MerkleRoot sum data sz = Some root /\
    VerifyRangeProof sum fuelV (leafRange data sz a b) sz a b proof root
      = Some true.
Proof.
  intros Hsz Hbytes Hab HbN Hfuel HfuelV.
  destruct (sector_bounds sum data sz Hsz Hbytes) as (HN' & HN & Hb).
  rewrite HN' in *. set (L := leafHashes sum sz data) in *.
  destruct (NextSubtreeRoot_spec sum data sz Hsz HN 0 (length L))
    as (res & HNext & _ & Hres).
  destruct Hres as (sRef & HRef & ->); [fold L; lia|].
  fold L in HRef. rewrite Nat.sub_0_r, Nat.min_id, drop_0 in HRef.
  assert (Ha' : (Z.to_nat a < Z.to_nat b)%nat) by lia.
  assert (Hb' : (Z.to_nat b <= length L)%nat) by lia.
  destruct (round_trip_nat sum data sz Hsz HN Hb (Z.to_nat a) (Z.to_nat b)
              Ha' Hb' sRef HRef fuel fuelV Hfuel HfuelV)
    as (proof & Hbuild & Hverify).
  pose proof (illegalRange_ok sum data sz Hsz HN (Z.to_nat a) (Z.to_nat b)
                Ha' Hb') as Hlegal.
  rewrite !Z2Nat.id in Hbuild, Hverify, Hlegal by lia.
  exists proof, (Root sum sRef). split; [|split].
  - unfold BuildReaderRangeProof. rewrite Hlegal. exact Hbuild.
  - unfold MerkleRoot. rewrite HN'. fold L.
    change (NewSubtreeReader data sz) with (readerAt data sz 0).
    rewrite HNext. reflexivity.
  - unfold VerifyRangeProof. rewrite Hlegal, Hverify. reflexivity.
Qed.

Lemma reader_proof_accepted_by_VerifyRangeProof_witness :
  exists proof root,
    BuildReaderRangeProof toySum 65 toySector 2 6 11 = Some (inr proof) /\
    MerkleRoot toySum toySector 2 = Some root /\
    VerifyRangeProof toySum 63 (leafRange toySector 2 6 11) 2 6 11 proof root
      = Some true.
Proof.
  apply (reader_proof_accepted_by_VerifyRangeProof toySum toySector 2 6 11
           65 63).
  - lia.
  - vm_compute. discriminate.
  - lia.
  - vm_compute. discriminate.
  - lia.
  - lia.
Defined.

(** *** Leaf data that is too short *)

Lemma pow2_63_lt_64 : (2 ^ 63 < 2 ^ 64)%nat.
Proof. apply Nat.pow_lt_mono_r; lia. Qed.

(** Appending at an aligned height never overflows the stack while the
    count of leaves stays below [2^64], whatever the slots hold. *)
Lemma append_used sum s (p h : nat) node :
  used s = Z.of_nat p -> length (stack s) = 64%nat ->
  (h < 64)%nat -> (p mod 2 ^ h = 0)%nat -> (p + 2 ^ h < 2 ^ 64)%nat ->
  exists s',
    appendNodeAtHeight sum s node h = Some s' /\
    used s' = Z.of_nat (p + 2 ^ h) /\ length (stack s') = 64%nat.
Proof.
  intros Hu Hlen Hh Hal Hlt.
  assert (Hp0 : (p / 2 ^ h * 2 ^ h = p)%nat).
  { pose proof (Nat.Div0.div_mod p (2 ^ h)). lia. }
  destruct (mergeUp_any sum s p h Hu Hlt (64 - h) h node)
    as (j & node' & Hm & Hj & _); [lia|lia|].
  unfold appendNodeAtHeight.
  destruct (Nat.leb_spec 64 h) as [?|_]; [lia|]. rewrite Hm.
  destruct (Nat.leb_spec 64 j) as [?|_]; [lia|].
  eexists. split; [reflexivity|]. split.
  - cbn [used]. rewrite Hu, shl1_u64_small by exact Hh.
    rewrite Nat2Z.inj_add, Nat2Z.inj_pow. apply u64_small.
    unfold two64. split; [lia|].
    apply (Nat2Z.inj_lt _ (2 ^ 64)) in Hlt.
    rewrite Nat2Z.inj_add, !Nat2Z.inj_pow in Hlt. exact Hlt.
  - cbn [stack]. rewrite length_insert. exact Hlen.
Qed.

Lemma land_min_int (x : Z) : 0 <= x < 2 ^ 63 -> Z.land x (- 2 ^ 63) = 0.
Proof.
  intros Hx. apply Z.bits_inj'. intros j Hj.
  rewrite Z.land_spec, Z.bits_0.
  destruct (Z.lt_ge_cases j 63) as [Hlt|Hge].
  - replace (- 2 ^ 63) with (- 1 * 2 ^ 63) by lia.
    rewrite Z.mul_pow2_bits_low by lia. apply andb_false_r.
  - assert (Hb : Z.testbit x j = false).
    { destruct (Z.eq_dec x 0) as [->|Hne]; [apply Z.bits_0|].
      apply Z.bits_above_log2; [lia|].
      assert (Z.log2 x < 63) by (apply Z.log2_lt_pow2; lia). lia. }
    rewrite Hb. reflexivity.
Qed.

(** The test [proofStart&subtreeSize != 0] of the verifier's first loop
    reads bit [i] of [proofStart]. *)
Lemma verifyLeft_test_any (a i : nat) :
  (a < 2 ^ 63)%nat -> (i < 64)%nat ->
  negb (Z.land (Z.of_nat a) (shl1_int i) =? 0) = bitAt a i.
Proof.
  intros Ha Hi. destruct (Nat.le_gt_cases i 62) as [Hle|Hgt].
  - assert (Hs : shl1_int i = 2 ^ Z.of_nat i).
    { unfold shl1_int. rewrite Z.shiftl_1_l. apply i64_small.
      unfold MinInt64, MaxInt64.
      assert (0 < 2 ^ Z.of_nat i) by (apply Z.pow_pos_nonneg; lia).
      assert (2 ^ Z.of_nat i < 2 ^ 63) by (apply Z.pow_lt_mono_r; lia).
      lia. }
    rewrite Hs, land_pow2_eqb. apply negb_involutive.
  - replace i with 63%nat by lia.
    change (shl1_int 63) with (- 2 ^ 63).
    rewrite land_min_int.
    + rewrite (high_bits_clear a 63 63) by lia. reflexivity.
    + split; [lia|]. apply Nat2Z.inj_lt in Ha.
      rewrite pow2_63_nat_Z in Ha. exact Ha.
Qed.

Lemma trunc_set (x i : nat) :
  bitAt x i = true ->
  (x / 2 ^ S i * 2 ^ S i + 2 ^ i = x / 2 ^ i * 2 ^ i)%nat.
Proof.
  intros Hb. apply bitAt_true in Hb.
  rewrite div_pow2_succ, pow2_succ_nat.
  set (q := (x / 2 ^ i)%nat) in *. set (P := (2 ^ i)%nat). nia.
Qed.

Lemma trunc_clear (x i : nat) :
  bitAt x i = false -> (x / 2 ^ S i * 2 ^ S i = x / 2 ^ i * 2 ^ i)%nat.
Proof.
  intros Hb. apply bitAt_false in Hb.
  rewrite div_pow2_succ, pow2_succ_nat.
  set (q := (x / 2 ^ i)%nat) in *. set (P := (2 ^ i)%nat). nia.
Qed.

(** The first loop of the verifier never overflows the stack, whatever
    the proof holds. *)
Lemma verifyLeft_no_panic sum (a : nat) :
  (a < 2 ^ 63)%nat ->
  forall k, (k <= 64)%nat -> forall s proof,
    used s = Z.of_nat (a / 2 ^ k * 2 ^ k) -> length (stack s) = 64%nat ->
    exists s' rest (p' : nat),
      verifyLeft sum k (Z.of_nat a) s proof = Some (s', rest) /\
      used s' = Z.of_nat p' /\ (p' <= a)%nat /\ length (stack s') = 64%nat.
Proof.
  intros Ha. pose proof pow2_63_lt_64 as H6364.
  induction k as [|i IH]; intros Hk s proof Hu Hlen.
  - exists s, proof, (a / 2 ^ 0 * 2 ^ 0)%nat. cbn [verifyLeft].
    split; [reflexivity|]. split; [exact Hu|]. split; [apply trunc_le|exact Hlen].
  - destruct proof as [|p0 rest].
    + exists s, [], (a / 2 ^ S i * 2 ^ S i)%nat. cbn [verifyLeft].
      split; [reflexivity|]. split; [exact Hu|].
      split; [apply trunc_le|exact Hlen].
    + cbn [verifyLeft]. rewrite verifyLeft_test_any by lia.
      destruct (bitAt a i) eqn:Eb; cbn [negb].
      * pose proof (trunc_set a i Eb) as Hstep.
        pose proof (trunc_le a i) as Hpi.
        destruct (append_used sum s (a / 2 ^ S i * 2 ^ S i) i p0 Hu Hlen)
          as (s1 & Hs1 & Hu1 & Hlen1).
        -- lia.
        -- rewrite pow2_succ_nat.
           replace (a / (2 * 2 ^ i) * (2 * 2 ^ i))%nat
             with (a / (2 * 2 ^ i) * 2 * 2 ^ i)%nat by lia.
           apply Nat.Div0.mod_mul.
        -- lia.
        -- rewrite Hs1. cbn [mbind option_bind].
           rewrite Hstep in Hu1. apply IH; [lia|exact Hu1|exact Hlen1].
      * pose proof (trunc_clear a i Eb) as Hstep.
        rewrite Hstep in Hu. apply IH; [lia|exact Hu|exact Hlen].
Qed.

(** The loop over the leaves runs into the end of the data before the
    last leaf of the range. *)
Lemma verifyLeaves_short sum sz :
  (0 < sz)%nat ->
  forall k r s (p : nat),
    used s = Z.of_nat p -> length (stack s) = 64%nat ->
    (p + k < 2 ^ 64)%nat ->
    (length r + sz < k * sz)%nat ->
    verifyLeaves sum k r sz s = Some (inl errInsufficientLeafData).
Proof.
  intros Hsz. induction k as [|k IH]; intros r s p Hu Hlen Hp Hshort; [lia|].
  cbn [verifyLeaves]. unfold readFull.
  destruct (append_used sum s p 0 (leafHash sum (take sz r)) Hu Hlen)
    as (s1 & Hs1 & Hu1 & Hlen1).
  { lia. }
  { apply (Nat.mod_1_r p). }
  { change (2 ^ 0)%nat with 1%nat. lia. }
  change (2 ^ 0)%nat with 1%nat in Hu1.
  unfold AppendNode. rewrite Hs1.
  destruct (Nat.le_gt_cases sz (length r)) as [Hfull|Hpart].
  - assert (Hl : length (take sz r) = sz) by (rewrite length_take; lia).
    rewrite Hl. destruct (Nat.ltb_spec 0 sz) as [_|?]; [|lia].
    cbn [mbind option_bind]. rewrite Nat.eqb_refl.
    change (isEOF None) with false. cbn iota.
    apply (IH _ _ (p + 1)%nat); [exact Hu1|exact Hlen1|lia|].
    rewrite length_drop. lia.
  - assert (Hl : length (take sz r) = length r)
      by (rewrite length_take; lia).
    rewrite Hl.
    assert (Hk : (k =? 0)%nat = false) by (apply Nat.eqb_neq; nia).
    destruct (Nat.eqb_spec (length r) sz) as [?|_]; [lia|].
    destruct (Nat.ltb_spec 0 (length r)) as [Hpos|Hzero];
      cbn [mbind option_bind].
    + destruct (Nat.eqb_spec (length r) 0) as [?|_]; [lia|].
      rewrite isEOF_Unexpected, Hk. reflexivity.
    + destruct (Nat.eqb_spec (length r) 0) as [_|?]; [|lia].
      rewrite isEOF_EOF, Hk. reflexivity.
Qed.

(** X23 — leaf data that ends before the last leaf of the range is
    rejected, whatever the proof and the root are: when the reader holds
    fewer bytes than the leaves before the last one need,
    [VerifyReaderRangeProof] returns [false] with the
    insufficient-leaf-data error (it neither panics nor compares roots),
    and [VerifyRangeProof] returns [false]. *)
Theorem VerifyReaderRangeProof_insufficient_leaf_data
    (sum : list Byte.byte -> Digest) (fuel : nat) (r : list Byte.byte)
    (sz : nat) (a b : Z) (proof : list Digest) (root : Digest) :
  (0 < sz)%nat -> 0 <= a < b -> b <= MaxInt64 ->
  Z.of_nat (length r) < (b - a - 1) * Z.of_nat sz ->
  VerifyReaderRangeProof sum fuel r sz a b proof root
    = Some (false, Some errInsufficientLeafData) /\
  VerifyRangeProof sum fuel r sz a b proof root = Some false.
Proof.
  intros Hsz Hab Hb Hshort. pose proof pow2_63_lt_64 as H6364.
  assert (Hlegal : illegalRange a b = false).
  { unfold illegalRange.
    destruct (Z.ltb_spec a 0) as [?|_]; [lia|].
    destruct (Z.ltb_spec b a) as [?|_]; [lia|].
    destruct (Z.eqb_spec a b) as [?|_]; [lia|]. reflexivity. }
  assert (Ha63 : (Z.to_nat a < 2 ^ 63)%nat).
  { apply Nat2Z.inj_lt. rewrite pow2_63_nat_Z, Z2Nat.id by lia.
    unfold MaxInt64 in Hb. lia. }
  assert (Hb63 : (Z.to_nat b < 2 ^ 63)%nat).
  { apply Nat2Z.inj_lt. rewrite pow2_63_nat_Z, Z2Nat.id by lia.
    unfold MaxInt64 in Hb. lia. }
  assert (Hmain : VerifyReaderRangeProof sum fuel r sz a b proof root
                  = Some (false, Some errInsufficientLeafData)).
  { unfold VerifyReaderRangeProof. rewrite Hlegal.
    destruct (verifyLeft_no_panic sum (Z.to_nat a) Ha63 64 ltac:(lia)
                NewStack proof) as (s' & rest & p' & Hleft & Hu & Hp' & Hlen).
    { rewrite Nat.div_small by lia. reflexivity. }
    { reflexivity. }
    rewrite Z2Nat.id in Hleft by lia. rewrite Hleft.
    cbn [mbind option_bind].
    rewrite (verifyLeaves_short sum sz Hsz _ r s' p' Hu Hlen).
    - reflexivity.
    - lia.
    - nia. }
  split; [exact Hmain|].
  unfold VerifyRangeProof. rewrite Hlegal, Hmain. reflexivity.
Qed.

Lemma VerifyReaderRangeProof_insufficient_leaf_data_witness :
  VerifyReaderRangeProof toySum 63 [Byte.x06; Byte.x07; Byte.x08] 2 3 6
    [] [] = Some (false, Some errInsufficientLeafData) /\
  VerifyRangeProof toySum 63 [Byte.x06; Byte.x07; Byte.x08] 2 3 6 [] []
    = Some false.
Proof.
  apply (VerifyReaderRangeProof_insufficient_leaf_data toySum 63
           [Byte.x06; Byte.x07; Byte.x08] 2 3 6 [] []).
  - lia.
  - lia.
  - unfold MaxInt64. lia.
  - simpl. lia.
Defined.

End MerkleReaderFacts.

(** ** Worker pool *)

Module WorkerPoolFacts.
Import WorkerPool.

Section Pool.
Context {W : Type}.
Variable newWorker : string -> Z -> error + W.
Variable rangeContracts :
  gmap string RenterContract -> list (string * RenterContract).
Variable rangeWorkers : gmap string W -> list (string * W).

Lemma addWorkers_kept bh entries : forall ws started id w,
  ws !! id = Some w ->
  (addWorkers newWorker bh entries ws started).1 !! id = Some w.
Proof.
  induction entries as [|[id' c] rest IH]; intros ws started id w Hw;
    cbn [addWorkers]; [exact Hw|].
  destruct (ws !! id') eqn:E; [apply IH; exact Hw|].
  destruct (newWorker (HostPublicKey c) bh) as [e|w']; [apply IH; exact Hw|].
  apply IH. rewrite lookup_insert_ne; [exact Hw|]. congruence.
Qed.

Lemma addWorkers_absent bh entries : forall ws started id,
  ws !! id = None -> id ∉ entries.*1 ->
  (addWorkers newWorker bh entries ws started).1 !! id = None.
Proof.
  induction entries as [|[id' c] rest IH]; intros ws started id Hw Hnin;
    cbn [addWorkers]; [exact Hw|].
  rewrite fmap_cons in Hnin. cbn [fst] in Hnin.
  apply not_elem_of_cons in Hnin. destruct Hnin as [Hne Hnin].
  destruct (ws !! id') eqn:E; [apply IH; assumption|].
  destruct (newWorker (HostPublicKey c) bh) as [e|w'];
    [apply IH; assumption|].
  apply IH; [|exact Hnin]. rewrite lookup_insert_ne; [exact Hw|]. congruence.
Qed.

Lemma addWorkers_new bh entries : forall ws started id c,
  NoDup entries.*1 -> ws !! id = None -> (id, c) ∈ entries ->
  (addWorkers newWorker bh entries ws started).1 !! id =
    match newWorker (HostPublicKey c) bh with
    | inl _ => None
    | inr w => Some w
    end.
Proof.
  induction entries as [|[id' c'] rest IH]; intros ws started id c Hnd Hw Hin;
    [apply elem_of_nil in Hin; contradiction|].
  rewrite fmap_cons in Hnd. cbn [fst] in Hnd.
  apply NoDup_cons in Hnd. destruct Hnd as [Hfresh Hnd].
  cbn [addWorkers]. apply elem_of_cons in Hin.
  destruct Hin as [Heq|Hin].
  - injection Heq as <- <-. rewrite Hw.
    destruct (newWorker (HostPublicKey c) bh) as [e|w'].
    + apply addWorkers_absent; assumption.
    + apply addWorkers_kept. apply lookup_insert_eq.
  - assert (Hne : id' <> id).
    { intros ->. apply Hfresh.
      apply (list_elem_of_fmap_2 fst) in Hin. exact Hin. }
    destruct (ws !! id') eqn:E; [apply IH; assumption|].
    destruct (newWorker (HostPublicKey c') bh) as [e|w'];
      [apply IH; assumption|].
    apply IH; [exact Hnd| |exact Hin].
    rewrite lookup_insert_ne; [exact Hw|exact Hne].
Qed.

Lemma removeWorkers_contracted stopped cm (entries : list (string * W)) :
  forall i ws killed id,
  is_Some (cm !! id) ->
  (removeWorkers stopped i entries cm ws killed).1 !! id = ws !! id.
Proof.
  induction entries as [|[id' w'] rest IH]; intros i ws killed id Hc;
    cbn [removeWorkers]; [reflexivity|].
  destruct (stopped i); [reflexivity|].
  destruct (cm !! id') eqn:E; [apply IH; exact Hc|].
  rewrite IH by exact Hc. apply lookup_delete_ne.
  intros ->. rewrite E in Hc. destruct Hc as [x Hx]. discriminate.
Qed.

Lemma removeWorkers_unvisited stopped cm (entries : list (string * W)) :
  forall i ws killed id,
  id ∉ entries.*1 ->
  (removeWorkers stopped i entries cm ws killed).1 !! id = ws !! id.
Proof.
  induction entries as [|[id' w'] rest IH]; intros i ws killed id Hnin;
    cbn [removeWorkers]; [reflexivity|].
  rewrite fmap_cons in Hnin. cbn [fst] in Hnin.
  apply not_elem_of_cons in Hnin. destruct Hnin as [Hne Hnin].
  destruct (stopped i); [reflexivity|].
  destruct (cm !! id') eqn:E; [apply IH; exact Hnin|].
  rewrite IH by exact Hnin. apply lookup_delete_ne. congruence.
Qed.

Lemma removeWorkers_removed cm (entries : list (string * W)) :
  forall i ws killed id,
  cm !! id = None -> id ∈ entries.*1 ->
  (removeWorkers neverStopped i entries cm ws killed).1 !! id = None.
Proof.
  induction entries as [|[id' w'] rest IH]; intros i ws killed id Hc Hin;
    [apply elem_of_nil in Hin; contradiction|].
  rewrite fmap_cons in Hin. cbn [fst] in Hin.
  cbn [removeWorkers neverStopped].
  destruct (decide (id = id')) as [<-|Hne].
  - rewrite Hc.
    destruct (decide (id ∈ rest.*1)) as [Hin'|Hnin'].
    + apply IH; assumption.
    + rewrite removeWorkers_unvisited by exact Hnin'.
      apply lookup_delete_eq.
  - apply elem_of_cons in Hin. destruct Hin as [?|Hin]; [contradiction|].
    destruct (cm !! id'); apply IH; assumption.
Qed.

Lemma removeWorkers_killed stopped cm (entries : list (string * W)) :
  forall i ws killed id,
  id ∈ (removeWorkers stopped i entries cm ws killed).2 ->
  id ∈ killed \/ (cm !! id = None /\ id ∈ entries.*1).
Proof.
  induction entries as [|[id' w'] rest IH]; intros i ws killed id;
    cbn [removeWorkers]; [intros H; left; exact H|].
  rewrite fmap_cons. cbn [fst].
  destruct (stopped i); [intros H; left; exact H|].
  destruct (cm !! id') eqn:E.
  - intros H. apply IH in H. destruct H as [H|[H1 H2]]; [left; exact H|].
    right. split; [exact H1|]. apply elem_of_cons. right. exact H2.
  - intros H. apply IH in H. destruct H as [H|[H1 H2]].
    + apply elem_of_app in H. destruct H as [H|H]; [left; exact H|].
      apply list_elem_of_singleton in H. subst id'. right.
      split; [exact E|]. apply elem_of_cons. left. reflexivity.
    + right. split; [exact H1|]. apply elem_of_cons. right. exact H2.
Qed.

Hypothesis rangeContracts_perm :
  forall m, rangeContracts m ≡ₚ map_to_list m.
Hypothesis rangeWorkers_perm :
  forall m, rangeWorkers m ≡ₚ map_to_list m.

Lemma rangeContracts_elem m id c :
  (id, c) ∈ rangeContracts m <-> m !! id = Some c.
Proof. rewrite rangeContracts_perm. apply elem_of_map_to_list. Qed.

Lemma rangeContracts_NoDup m : NoDup (rangeContracts m).*1.
Proof. rewrite rangeContracts_perm. apply NoDup_fst_map_to_list. Qed.

Lemma rangeContracts_keys m id :
  id ∈ (rangeContracts m).*1 <-> is_Some (m !! id).
Proof.
  rewrite list_elem_of_fmap. split.
  - intros ([id' c] & -> & Hin). apply rangeContracts_elem in Hin.
    exists c. exact Hin.
  - intros [c Hc]. exists (id, c). split; [reflexivity|].
    apply rangeContracts_elem. exact Hc.
Qed.

Lemma rangeWorkers_keys (m : gmap string W) id :
  id ∈ (rangeWorkers m).*1 <-> is_Some (m !! id).
Proof.
  rewrite list_elem_of_fmap. split.
  - intros ([id' w] & -> & Hin). rewrite rangeWorkers_perm in Hin.
    apply elem_of_map_to_list in Hin. exists w. exact Hin.
  - intros [w Hw]. exists (id, w). split; [reflexivity|].
    rewrite rangeWorkers_perm. apply elem_of_map_to_list. exact Hw.
Qed.

Lemma addWorkers_expected wp cm bh id :
  is_Some (cm !! id) ->
  (addWorkers newWorker bh (rangeContracts cm) (workers wp) []).1 !! id
    = expectedWorker newWorker wp cm bh id.
Proof.
  intros [c Hc]. unfold expectedWorker. rewrite Hc. cbn [mbind option_bind].
  destruct (workers wp !! id) as [w|] eqn:Ew.
  - apply addWorkers_kept. exact Ew.
  - apply addWorkers_new; [apply rangeContracts_NoDup|exact Ew|].
    apply rangeContracts_elem. exact Hc.
Qed.

Lemma callUpdate_final wp contractSlice bh id :
  workers (urPool (callUpdate newWorker rangeContracts rangeWorkers wp
                     contractSlice bh neverStopped)) !! id
    = expectedWorker newWorker wp (buildContractMap contractSlice) bh id.
Proof.
  unfold callUpdate. set (cm := buildContractMap contractSlice).
  pose proof (addWorkers_expected wp cm bh id) as Hadd.
  destruct (addWorkers newWorker bh (rangeContracts cm) (workers wp) [])
    as [ws1 started] eqn:E1. cbn [fst] in Hadd.
  destruct (removeWorkers neverStopped 0 (rangeWorkers ws1) cm ws1 [])
    as [ws2 killed] eqn:E2.
  cbn [urPool workers].
  assert (Hws2 : ws2 = (removeWorkers neverStopped 0 (rangeWorkers ws1)
                          cm ws1 []).1) by (rewrite E2; reflexivity).
  rewrite Hws2. clear Hws2 E2.
  destruct (cm !! id) as [c|] eqn:Ec.
  - rewrite removeWorkers_contracted by (rewrite Ec; eexists; reflexivity).
    apply Hadd. eexists. reflexivity.
  - unfold expectedWorker. rewrite Ec. cbn [mbind option_bind].
    destruct (ws1 !! id) as [w|] eqn:Ew.
    + apply removeWorkers_removed; [exact Ec|].
      apply rangeWorkers_keys. exists w. exact Ew.
    + rewrite removeWorkers_unvisited; [exact Ew|].
      rewrite rangeWorkers_keys, Ew. intros [x Hx]. discriminate.
Qed.

End Pool.

(** X24 — [callUpdate] makes the pool match the contracts: when the
    renter is not stopped, then whatever order the maps are ranged over,
    the pool afterwards holds no worker for a host without contract, the
    worker it already had for a host with a contract, and for every other
    host with a contract a new worker if one could be built; [callWorker]
    answers accordingly, and a pool made by [newWorkerPool] holds exactly
    the workers that could be built for the hosts with a contract. *)
Theorem callUpdate_matches_contracts {W : Type}
    (newWorker : string -> Z -> error + W)
    (rangeContracts :
       gmap string RenterContract -> list (string * RenterContract))
    (rangeWorkers : gmap string W -> list (string * W))
    (wp : workerPool) (contractSlice : list RenterContract) (bh : Z) :
  (forall m, rangeContracts m ≡ₚ map_to_list m) ->
  (forall m, rangeWorkers m ≡ₚ map_to_list m) ->
  let wp' := urPool (callUpdate newWorker rangeContracts rangeWorkers wp
                       contractSlice bh neverStopped) in
  forall id,
    workers wp' !! id
      = expectedWorker newWorker wp (buildContractMap contractSlice) bh id /\
    callWorker wp' id
      = match expectedWorker newWorker wp (buildContractMap contractSlice)
                bh id with
        | Some w => inr w
        | None => inl errWorkerNotAvailable
        end /\
    workers (urPool (newWorkerPool newWorker rangeContracts rangeWorkers
                       contractSlice bh neverStopped)) !! id
      = (contract ← buildContractMap contractSlice !! id;
         match newWorker (HostPublicKey contract) bh with
         | inl _ => None
         | inr w => Some w
         end).
Proof.
  intros Hc Hw wp' id.
  assert (H : workers wp' !! id
              = expectedWorker newWorker wp (buildContractMap contractSlice)
                  bh id)
    by (apply callUpdate_final; assumption).
  split; [exact H|]. split; [unfold callWorker; rewrite H; reflexivity|].
  unfold newWorkerPool. rewrite callUpdate_final by assumption.
  unfold expectedWorker. cbn [workers]. rewrite lookup_empty. reflexivity.
Qed.

Lemma callUpdate_matches_contracts_witness :
  workers (urPool (callUpdate toyNewWorker map_to_list map_to_list toyPool
                     toyContracts 7 neverStopped)) !! "hostC"
    = expectedWorker toyNewWorker toyPool (buildContractMap toyContracts)
        7 "hostC" /\
  callWorker (urPool (callUpdate toyNewWorker map_to_list map_to_list toyPool
                        toyContracts 7 neverStopped)) "hostC"
    = match expectedWorker toyNewWorker toyPool
              (buildContractMap toyContracts) 7 "hostC" with
      | Some w => inr w
      | None => inl errWorkerNotAvailable
      end /\
  workers (urPool (newWorkerPool toyNewWorker map_to_list map_to_list
                     toyContracts 7 neverStopped)) !! "hostC"
    = (contract ← buildContractMap toyContracts !! "hostC";
       match toyNewWorker (HostPublicKey contract) 7 with
       | inl _ => None
       | inr w => Some w
       end).
Proof.
  apply (callUpdate_matches_contracts toyNewWorker map_to_list map_to_list
           toyPool toyContracts 7).
  - intros m. reflexivity.
  - intros m. reflexivity.
Defined.

(** X25 — [callUpdate] never drops or replaces the worker of a host that
    has a contract and never closes its kill channel, even when the
    renter is stopped in the middle of the update; and every worker of
    the pool afterwards either was in the pool before or belongs to a
    host with a contract. *)
Theorem callUpdate_keeps_contracted_workers {W : Type}
    (newWorker : string -> Z -> error + W)
    (rangeContracts :
       gmap string RenterContract -> list (string * RenterContract))
    (rangeWorkers : gmap string W -> list (string * W))
    (wp : workerPool) (contractSlice : list RenterContract) (bh : Z)
    (stopped : nat -> bool) :
  (forall m, rangeContracts m ≡ₚ map_to_list m) ->
  (forall m, rangeWorkers m ≡ₚ map_to_list m) ->
  let cm := buildContractMap contractSlice in
  let r := callUpdate newWorker rangeContracts rangeWorkers wp
             contractSlice bh stopped in
  (forall id w, workers wp !! id = Some w -> is_Some (cm !! id) ->
      workers (urPool r) !! id = Some w) /\
  (forall id, id ∈ urKilled r -> cm !! id = None) /\
  (forall id w, workers (urPool r) !! id = Some w ->
      workers wp !! id = Some w \/ is_Some (cm !! id)).
Proof.
  intros Hc Hw cm r. unfold r, callUpdate. fold cm.
  pose proof (addWorkers_kept newWorker bh (rangeContracts cm)
                (workers wp) []) as Hkept.
  pose proof (addWorkers_absent newWorker bh (rangeContracts cm)
                (workers wp) []) as Habsent.
  destruct (addWorkers newWorker bh (rangeContracts cm) (workers wp) [])
    as [ws1 started] eqn:E1. cbn [fst] in Hkept, Habsent.
  pose proof (removeWorkers_contracted stopped cm (rangeWorkers ws1)
                0%nat ws1 []) as Hcon.
  pose proof (removeWorkers_killed stopped cm (rangeWorkers ws1)
                0%nat ws1 []) as Hkill.
  assert (Hsub : forall id w,
            (removeWorkers stopped 0 (rangeWorkers ws1) cm ws1 []).1 !! id
              = Some w -> ws1 !! id = Some w).
  { generalize (rangeWorkers ws1) 0%nat (@nil string).
    intros entries. revert ws1 E1 Hkept Habsent Hcon Hkill.
    intros ws1 _ _ _ _ _. revert ws1.
    induction entries as [|[id' w'] rest IH]; intros ws1 i killed id w;
      cbn [removeWorkers]; [intros H; exact H|].
    destruct (stopped i); [intros H; exact H|].
    destruct (cm !! id'); [apply IH|].
    intros H. apply IH in H.
    destruct (decide (id = id')) as [->|Hne].
    - rewrite lookup_delete_eq in H. discriminate.
    - rewrite lookup_delete_ne in H by congruence. exact H. }
  destruct (removeWorkers stopped 0 (rangeWorkers ws1) cm ws1 [])
    as [ws2 killed] eqn:E2. cbn [fst snd] in Hcon, Hkill, Hsub.
  cbn [urPool urKilled workers]. split; [|split].
  - intros id w Hin Hcm. rewrite Hcon by exact Hcm.
    apply Hkept. exact Hin.
  - intros id Hin. apply Hkill in Hin.
    destruct Hin as [Hin|[Hcm _]]; [|exact Hcm].
    apply elem_of_nil in Hin. contradiction.
  - intros id w Hin. apply Hsub in Hin.
    destruct (workers wp !! id) as [w0|] eqn:Ew.
    + left. rewrite (Hkept id w0 Ew) in Hin. exact Hin.
    + right. destruct (decide (id ∈ (rangeContracts cm).*1)) as [Hk|Hk].
      * apply (rangeContracts_keys rangeContracts Hc). exact Hk.
      * rewrite (Habsent id Ew Hk) in Hin. discriminate.
Qed.

Lemma callUpdate_keeps_contracted_workers_witness :
  workers (urPool (callUpdate toyNewWorker map_to_list map_to_list toyPool
                     toyContracts 7 (fun i => (0 <? i)%nat))) !! "hostA"
    = Some ("hostA", 5).
Proof.
  destruct (callUpdate_keeps_contracted_workers toyNewWorker
              map_to_list map_to_list toyPool toyContracts 7
              (fun i => (0 <? i)%nat)) as (H & _ & _).
  - intros m. reflexivity.
  - intros m. reflexivity.
  - apply H.
    + vm_compute. reflexivity.
    + eexists. vm_compute. reflexivity.
Defined.

End WorkerPoolFacts.
